(** * react-tates: hook factories around a tates store

    A shallow embedding of the hook factories of react-tates
    ([createStateHook], [createKeyedStateHook], [createWrappedStateHook])
    together with the part of the React runtime they rely on
    ([useState], [useEffect]) and of the tates store ([subscribe]).

    The hooks never look inside the values they carry: they only test them
    with [isUndefined] and [isNil], hand them to [setState] and return them.
    A hook is therefore modelled as a function from its options, the current
    contents of the factory's closure variable [initialValueCopy] and the
    [useState] slot of the component instance to what one call of the hook
    does: the new contents of the closure variable, the state it reads, the
    effect it registers and the value it returns.

    React and the store are libraries the hooks call.  They are modelled by
    what the hooks rely on: [useState] keeps a value per mounted instance,
    seeded on mount with the initial value, or with what the initial value
    returns when it is a function; [setState] replaces the state by its
    argument, or by what its argument returns for the previous state when
    it is a function; [useEffect] runs the effect after the first
    render of an instance and after every render whose dependency list
    changed, running the cleanup the previous run returned first, and runs
    the last cleanup on unmount; [subscribe] registers a callback under a
    path and returns the function that removes it; the store calls only
    callbacks that are registered.  Caller-supplied functions are taken to
    return normally, and the functions React is handed as state to be pure,
    as React requires. *)

From Stdlib Require Import ZArith String List Bool Lia DecimalString DecimalZ DecimalPos.
Import ListNotations.
Local Open Scope string_scope.

(** ** JavaScript values *)

(** Values held by the store and by React state: the primitives,
    references to objects and arrays, and references to functions.  Numbers
    are the integer-valued ones. *)
Inductive JsVal : Type :=
| VUndefined
| VNull
| VBool (b : bool)
| VNum (n : Z)
| VStr (s : string)
| VObject (ref : nat)
| VFunction (ref : nat).

(** lodash [isUndefined], [isNil]. *)
Definition isUndefined (v : JsVal) : bool :=
  match v with VUndefined => true | _ => false end.

Definition isNil (v : JsVal) : bool :=
  match v with VUndefined | VNull => true | _ => false end.

(** [Object.is] on these values. *)
Definition objectIs (a b : JsVal) : bool :=
  match a, b with
  | VUndefined, VUndefined => true
  | VNull, VNull => true
  | VBool x, VBool y => Bool.eqb x y
  | VNum x, VNum y => Z.eqb x y
  | VStr x, VStr y => String.eqb x y
  | VObject x, VObject y => Nat.eqb x y
  | VFunction x, VFunction y => Nat.eqb x y
  | _, _ => false
  end.

(** [typeof v === 'function']. *)
Definition typeofFunction (v : JsVal) : bool :=
  match v with VFunction _ => true | _ => false end.

(** What the function with reference [f] returns when it is called with
    the given arguments.  React requires the functions it is handed as
    initial state or as a state update to be pure, so that what they return
    depends on their arguments only.  The development holds whatever the
    functions return. *)
Class Functions : Type := callFunction : nat -> list JsVal -> JsVal.

(** Functions: lodash [noop], or a function supplied by the caller,
    identified by a number. *)
Inductive JsFun : Type :=
| Noop
| UserFn (id : nat).

(** What a caller may pass as [action]: a function, or a value
    ([NotCallable VUndefined] when the field is absent; a value may itself
    be a reference to a function). *)
Inductive ActionArg : Type :=
| NotCallable (v : JsVal)
| Callable (f : JsFun).

(** lodash [isFunction]. *)
Definition isFunction (a : ActionArg) : bool :=
  match a with Callable _ => true | NotCallable v => typeofFunction v end.

(** [const actionFn = isFunction(action) ? action : noop]. *)
Definition actionFn (action : ActionArg) : JsFun :=
  match action with
  | Callable f => f
  | NotCallable (VFunction f) => UserFn f
  | NotCallable _ => Noop
  end.

(** The [key] of a keyed hook: [string | number]. *)
Inductive Key : Type :=
| KString (s : string)
| KNumber (n : Z).

Definition keyVal (k : option Key) : JsVal :=
  match k with
  | None => VUndefined
  | Some (KString s) => VStr s
  | Some (KNumber n) => VNum n
  end.

(** The text a key contributes to a template literal: a string as it
    is, an integer in decimal (as JavaScript prints the integers below
    [10^21]). *)
Definition keyString (k : Key) : string :=
  match k with
  | KString s => s
  | KNumber n => NilZero.string_of_int (Z.to_int n)
  end.

(** Functions for the examples: [() => 5], [() => undefined],
    [prev => prev], and [() => null] for every other reference. *)
Definition sampleFunctions : Functions :=
  fun f args =>
    match f with
    | 1 => VNum 5
    | 2 => VUndefined
    | 3 => hd VUndefined args
    | _ => VNull
    end.

(** ** The store and the trace of calls *)

(** What an effect returns to React: lodash [noop], or the unsubscribe
    function of the subscription with the given handle. *)
Inductive Cleanup : Type :=
| CleanupNoop
| CleanupUnsubscribe (h : nat).

(** Calls that leave the hook: a caller-supplied function invoked with
    arguments, [tate.subscribe] (which returned the handle [h]) and the
    unsubscribe function of handle [h]. *)
Inductive Event : Type :=
| EvAction (f : nat) (args : list JsVal)
| EvSubscribe (h : nat) (path : string)
| EvUnsubscribe (h : nat).

(** A subscription registered with the store.  [sub_callback] maps the
    delivered value to the argument the callback calls [setState] with. *)
Record Subscription : Type := mkSubscription {
  sub_handle : nat;
  sub_path : string;
  sub_callback : JsVal -> JsVal
}.

(** Everything outside the component instance: the closure variable
    [initialValueCopy] of the factory, the subscriptions the instance's
    hook has registered with the store and not yet removed, and the calls
    made so far, oldest first. *)
Record World : Type := mkWorld {
  closureInitialValueCopy : JsVal;
  nextHandle : nat;
  subscriptions : list Subscription;
  trace : list Event
}.

Definition setInitialValueCopy (v : JsVal) (w : World) : World :=
  mkWorld v (nextHandle w) (subscriptions w) (trace w).

Definition emit (e : Event) (w : World) : World :=
  mkWorld (closureInitialValueCopy w) (nextHandle w) (subscriptions w) (trace w ++ [e]).

(** Calling a function.  [noop] has an empty body. *)
Definition callFn (f : JsFun) (args : list JsVal) (w : World) : World :=
  match f with
  | Noop => w
  | UserFn id => emit (EvAction id args) w
  end.

(** Calling whatever was passed as [action] directly: a value that is not a
    function cannot be called ([None] stands for the TypeError). *)
Definition callValue (a : ActionArg) (args : list JsVal) (w : World) : option World :=
  match a with
  | Callable f => Some (callFn f args w)
  | NotCallable (VFunction f) => Some (callFn (UserFn f) args w)
  | NotCallable _ => None
  end.

(** [tate.subscribe(callback, path)]: registers the callback and returns
    its unsubscribe function. *)
Definition subscribe (callback : JsVal -> JsVal) (path : string) (w : World)
  : Cleanup * World :=
  let h := nextHandle w in
  (CleanupUnsubscribe h,
   mkWorld (closureInitialValueCopy w) (S h)
     (mkSubscription h path callback :: subscriptions w)
     (trace w ++ [EvSubscribe h path])).

Definition unsubscribe (h : nat) (w : World) : World :=
  mkWorld (closureInitialValueCopy w) (nextHandle w)
    (filter (fun s => negb (Nat.eqb (sub_handle s) h)) (subscriptions w))
    (trace w ++ [EvUnsubscribe h]).

Definition runCleanup (c : Cleanup) (w : World) : World :=
  match c with
  | CleanupNoop => w
  | CleanupUnsubscribe h => unsubscribe h w
  end.

Definition findSubscription (h : nat) (w : World) : option Subscription :=
  find (fun s => Nat.eqb (sub_handle s) h) (subscriptions w).

(** ** Hooks *)

(** What one call of a hook function does. *)
Record Rendered : Type := mkRendered {
  r_initialValueCopy : JsVal;            (* closure variable after the call *)
  r_state : JsVal;                       (* [state] of [useState] *)
  r_deps : list JsVal;                   (* dependency list of [useEffect] *)
  r_effect : World -> Cleanup * World;   (* the effect function *)
  r_return : JsVal                       (* the value the hook returns *)
}.

Definition Hook (Opts : Type) : Type :=
  Opts -> JsVal -> option JsVal -> Rendered.

(** A factory call: the closure variable it creates and the hook it
    returns. *)
Record Factory (Opts : Type) : Type := mkFactory {
  f_initialValueCopy : JsVal;
  f_hook : Hook Opts
}.
Arguments mkFactory {Opts} _ _.
Arguments f_initialValueCopy {Opts} _.
Arguments f_hook {Opts} _.

(** [useState(initial)]: the slot of the instance when it is mounted; on
    the first render the initial value, which React calls without arguments
    when it is a function. *)
Definition useState {fns : Functions} (slot : option JsVal) (initial : JsVal) : JsVal :=
  match slot with
  | Some s => s
  | None =>
      match initial with
      | VFunction f => callFunction f []
      | _ => initial
      end
  end.

(** [setState(action)] on the state [prev]: the new state is [action],
    or what [action] returns for [prev] when it is a function. *)
Definition setState {fns : Functions} (prev action : JsVal) : JsVal :=
  match action with
  | VFunction f => callFunction f [prev]
  | _ => action
  end.

(** *** Current factories (options objects) *)

Record StateHookOptions : Type := mkStateHookOptions {
  action : ActionArg;
  property : string;
  initialValue : JsVal
}.

Record HookOptions : Type := mkHookOptions {
  invokeAction : option bool;
  actionArgs : option (list JsVal)
}.

Record KeyedHookOptions : Type := mkKeyedHookOptions {
  key : option Key;
  hookOptions :> HookOptions
}.

(** The hook called without an argument: [= {}]. *)
Definition noOptions : HookOptions := mkHookOptions None None.

Definition createStateHook {fns : Functions} (o : StateHookOptions) : Factory HookOptions :=
  let actionFn := actionFn (action o) in
  mkFactory (initialValue o) (fun opts initialValueCopy slot =>
    let invokeAction := match invokeAction opts with Some b => b | None => true end in
    let actionArr := match actionArgs opts with Some l => l | None => [] end in
    let initialValueCopy :=
      if isUndefined initialValueCopy then VNull else initialValueCopy in
    let state := useState slot initialValueCopy in
    mkRendered initialValueCopy state
      (VBool invokeAction :: actionArr)
      (fun w =>
         let w := if invokeAction then callFn actionFn actionArr w else w in
         subscribe (fun value => if isUndefined value then VNull else value)
           (property o) w)
      (if isNil state && negb (isNil initialValueCopy)
       then initialValueCopy else state)).

Definition createKeyedStateHook {fns : Functions} (o : StateHookOptions)
  : Factory KeyedHookOptions :=
  let actionFn := actionFn (action o) in
  mkFactory (initialValue o) (fun (opts : KeyedHookOptions) initialValueCopy slot =>
    let invokeAction := match invokeAction opts with Some b => b | None => true end in
    let state := useState slot VNull in
    let actionArr := match actionArgs opts with Some l => l | None => [] end in
    mkRendered initialValueCopy state
      (keyVal (key opts) :: VBool invokeAction :: actionArr)
      (fun w =>
         let w := if isUndefined (closureInitialValueCopy w)
                  then setInitialValueCopy VNull w else w in
         match key opts with
         | None => (CleanupNoop, w)
         | Some k =>
             let w := if invokeAction then callFn actionFn actionArr w else w in
             subscribe (fun value => if isUndefined value then VNull else value)
               (property o ++ "." ++ keyString k) w
         end)
      (if isNil state && negb (isNil initialValueCopy)
       then initialValueCopy else state)).

(** *** Earlier factories (positional arguments, src/hooks.ts) *)

Module Legacy.

(** The hook [createStateHook(actor, prop, initialValue)] returns when
    [prop] is a string. *)
Definition scopedStateHook {fns : Functions} (prop : string) : Hook unit :=
  fun _ initialValueCopy slot =>
    let initialValueCopy :=
      if isUndefined initialValueCopy then VNull else initialValueCopy in
    let state := useState slot initialValueCopy in
    mkRendered initialValueCopy state []
      (fun w =>
         subscribe (fun value => if isUndefined value then VNull else value)
           prop w)
      (if isNil state && negb (isNil initialValueCopy)
       then initialValueCopy else state).

(** The function [createStateHook(actor)] returns when [prop] is not a
    string: it takes the property, builds a new scoped hook, with a
    closure variable of its own, and calls it. *)
Definition curriedStateHook {fns : Functions} : Hook string :=
  fun property initialValueCopy slot =>
    let r := scopedStateHook property tt VUndefined slot in
    mkRendered initialValueCopy (r_state r) (r_deps r) (r_effect r) (r_return r).

Definition curriedFactory {fns : Functions} (initialValue : JsVal) : Factory string :=
  mkFactory initialValue curriedStateHook.

Definition scopedFactory {fns : Functions} (prop : string) (initialValue : JsVal)
  : Factory unit :=
  mkFactory initialValue (scopedStateHook prop).

(** [createStateHook(actor, prop?, initialValue?)]. *)
Definition createStateHook {fns : Functions} (prop : option string) (initialValue : JsVal)
  : Factory string + Factory unit :=
  match prop with
  | None => inl (curriedFactory initialValue)
  | Some prop => inr (scopedFactory prop initialValue)
  end.

(** [createKeyedStateHook(actor, invoke, parentProp)]; the hook takes
    [id?: string | number].  This factory and the next have no closure
    variable; the slot of the model is left alone. *)
Definition createKeyedStateHook {fns : Functions} (invoke : nat) (parentProp : string)
  : Factory (option Key) :=
  mkFactory VUndefined (fun id initialValueCopy slot =>
    let state := useState slot VNull in
    mkRendered initialValueCopy state [keyVal id]
      (fun w =>
         match id with
         | None => (CleanupNoop, w)
         | Some k =>
             let w := callFn (UserFn invoke) [keyVal id] w in
             subscribe (fun value => if isUndefined value then VNull else value)
               (parentProp ++ "." ++ keyString k) w
         end)
      state).

(** [createWrappedStateHook(actor, invoke, prop)]; the hook takes
    [param?: string | number]. *)
Definition createWrappedStateHook {fns : Functions} (invoke : nat) (prop : string)
  : Factory (option Key) :=
  mkFactory VUndefined (fun param initialValueCopy slot =>
    let state := useState slot VNull in
    mkRendered initialValueCopy state [keyVal param]
      (fun w =>
         let w := callFn (UserFn invoke) [keyVal param] w in
         subscribe (fun value => if isUndefined value then VNull else value)
           prop w)
      state).

End Legacy.

(** ** The component runtime *)

(** The hook slots of a mounted component instance: the [useState] cell and
    the last effect's dependency list and cleanup. *)
Record Instance : Type := mkInstance {
  hookState : JsVal;
  effectDeps : list JsVal;
  effectCleanup : Cleanup
}.

(** A configuration: the world and the instance ([None] when unmounted). *)
Definition Config : Type := (World * option Instance)%type.

(** What happens to a component instance: it is rendered (the hook is
    called with some options), the store calls the callback of handle [h]
    with a value, or the instance is unmounted. *)
Inductive Step (Opts : Type) : Type :=
| Render (o : Opts)
| Notify (h : nat) (v : JsVal)
| Unmount.
Arguments Render {Opts} _.
Arguments Notify {Opts} _ _.
Arguments Unmount {Opts}.

(** React's comparison of dependency lists, element by element with
    [Object.is], over the common prefix. *)
Fixpoint reactInputsEqual (next prev : list JsVal) : bool :=
  match next, prev with
  | a :: next', b :: prev' => objectIs a b && reactInputsEqual next' prev'
  | _, _ => true
  end.

Section Runtime.

(** The comparison the runtime uses to decide whether an effect runs
    again.  The development does not depend on which one it is. *)
Variable areHookInputsEqual : list JsVal -> list JsVal -> bool.

Context {fns : Functions} {Opts : Type}.
Variable hook : Hook Opts.

(** One render of the instance followed by its commit: the hook is
    called; on mount, or when the dependency list changed, the previous
    cleanup runs and then the effect. *)
Definition renderHook (o : Opts) (c : Config) : JsVal * Config :=
  let (w, inst) := c in
  let r := hook o (closureInitialValueCopy w) (option_map hookState inst) in
  let w := setInitialValueCopy (r_initialValueCopy r) w in
  match inst with
  | None =>
      let (cleanup, w) := r_effect r w in
      (r_return r, (w, Some (mkInstance (r_state r) (r_deps r) cleanup)))
  | Some i =>
      if areHookInputsEqual (r_deps r) (effectDeps i)
      then (r_return r,
            (w, Some (mkInstance (r_state r) (r_deps r) (effectCleanup i))))
      else
        let w := runCleanup (effectCleanup i) w in
        let (cleanup, w) := r_effect r w in
        (r_return r, (w, Some (mkInstance (r_state r) (r_deps r) cleanup)))
  end.

(** The store delivers [v] to the callback registered under [h], which
    calls [setState]. *)
Definition notify (h : nat) (v : JsVal) (c : Config) : Config :=
  let (w, inst) := c in
  match findSubscription h w, inst with
  | Some s, Some i =>
      (w, Some (mkInstance (setState (hookState i) (sub_callback s v))
                           (effectDeps i) (effectCleanup i)))
  | _, _ => c
  end.

Definition unmount (c : Config) : Config :=
  let (w, inst) := c in
  match inst with
  | Some i => (runCleanup (effectCleanup i) w, None)
  | None => c
  end.

Definition step (s : Step Opts) (c : Config) : Config :=
  match s with
  | Render o => snd (renderHook o c)
  | Notify h v => notify h v c
  | Unmount => unmount c
  end.

Fixpoint run (ss : list (Step Opts)) (c : Config) : Config :=
  match ss with
  | [] => c
  | s :: ss' => run ss' (step s c)
  end.

(** The value the hook returns when it is called in configuration [c]. *)
Definition read (o : Opts) (c : Config) : JsVal := fst (renderHook o c).

End Runtime.

Section Statements.

Context {fns : Functions}.

(** The configuration right after a factory call: nothing mounted, nothing
    subscribed, nothing called. *)
Definition start {Opts : Type} (f : Factory Opts) : Config :=
  (mkWorld (f_initialValueCopy f) 0 [] [], None).

(** ** Reading a trace *)

(** The unsubscribe handle an instance holds, if any. *)
Definition cleanupHandle (c : Cleanup) : option nat :=
  match c with
  | CleanupNoop => None
  | CleanupUnsubscribe h => Some h
  end.

Definition liveHandle (inst : option Instance) : option nat :=
  match inst with
  | Some i => cleanupHandle (effectCleanup i)
  | None => None
  end.

Definition isSubscribe (h : nat) (e : Event) : bool :=
  match e with EvSubscribe h' _ => Nat.eqb h' h | _ => false end.

Definition isUnsubscribe (h : nat) (e : Event) : bool :=
  match e with EvUnsubscribe h' => Nat.eqb h' h | _ => false end.

Definition isAction (e : Event) : bool :=
  match e with EvAction _ _ => true | _ => false end.

Definition isSubscribeOrAction (e : Event) : bool :=
  match e with EvUnsubscribe _ => false | _ => true end.

Definition countOf (p : Event -> bool) (t : list Event) : nat :=
  length (filter p t).

(** Replaying a trace against the one-handle discipline: [live] is the
    handle currently held.  A subscribe while a handle is held, or an
    unsubscribe of anything but the held handle, is a violation ([None]).
    Otherwise the result is the handle held at the end. *)
Fixpoint replay (live : option nat) (t : list Event) : option (option nat) :=
  match t with
  | [] => Some live
  | EvAction _ _ :: t' => replay live t'
  | EvSubscribe h _ :: t' =>
      match live with
      | None => replay (Some h) t'
      | Some _ => None
      end
  | EvUnsubscribe h :: t' =>
      match live with
      | Some h' => if Nat.eqb h h' then replay None t' else None
      | None => None
      end
  end.

(** The closure variable with an unset value replaced by [null]. *)
Definition normalized (v : JsVal) : JsVal :=
  if isUndefined v then VNull else v.

Definition isRender {Opts : Type} (s : Step Opts) : bool :=
  match s with Render _ => true | _ => false end.

Definition isNotify {Opts : Type} (s : Step Opts) : bool :=
  match s with Notify _ _ => true | _ => false end.

(** ** What the lifecycle results say *)

(** A call of a caller-supplied function, as an event. *)
Definition actionEvent (a : nat * list JsVal) : Event :=
  EvAction (fst a) (snd a).

(** The closure variable either keeps its contents or is normalized. *)
Definition cellStep (c c' : JsVal) : Prop :=
  c' = c \/ c' = normalized c.

(** The two shapes an effect run can have: it calls caller-supplied
    functions and returns [noop], or it calls them, subscribes with a
    normalizing callback and returns the unsubscribe function. *)
Inductive EffectOutcome (w : World) : Cleanup * World -> Prop :=
| OutcomeIdle cell acts :
    cellStep (closureInitialValueCopy w) cell ->
    EffectOutcome w
      (CleanupNoop,
       mkWorld cell (nextHandle w) (subscriptions w)
         (trace w ++ map actionEvent acts))
| OutcomeSubscribed cell acts path cb :
    cellStep (closureInitialValueCopy w) cell ->
    (forall v, cb v = normalized v) ->
    EffectOutcome w
      (CleanupUnsubscribe (nextHandle w),
       mkWorld cell (S (nextHandle w))
         (mkSubscription (nextHandle w) path cb :: subscriptions w)
         (trace w ++ map actionEvent acts ++ [EvSubscribe (nextHandle w) path])).

(** What the lifecycle results need of a hook: a call leaves the closure
    variable alone or normalizes it, seeds the state with the no-value
    marker or with a closure variable that is set, returns the state or a
    closure variable that is not nil, and registers an effect of one of the
    two shapes. *)
Record WellBehaved {Opts : Type} (H : Hook Opts) : Prop := {
  wb_cell : forall o cell slot,
    cellStep cell (r_initialValueCopy (H o cell slot));
  wb_state : forall o cell slot,
    r_state (H o cell slot) = useState slot VNull \/
    (r_state (H o cell slot) = useState slot (r_initialValueCopy (H o cell slot)) /\
     r_initialValueCopy (H o cell slot) <> VUndefined);
  wb_return : forall o cell slot,
    r_return (H o cell slot) = r_state (H o cell slot) \/
    (r_return (H o cell slot) = r_initialValueCopy (H o cell slot) /\
     isNil (r_initialValueCopy (H o cell slot)) = false);
  wb_effect : forall o cell slot w,
    EffectOutcome w (r_effect (H o cell slot) w)
}.

(** The world agrees with the handle [live] the instance holds. *)
Record WorldInv (w : World) (live : option nat) : Prop := {
  wi_protocol : replay None (trace w) = Some live;
  wi_store :
    match live with
    | Some h => exists path cb,
        subscriptions w = [mkSubscription h path cb] /\
        (forall v, cb v = normalized v)
    | None => subscriptions w = []
    end;
  wi_fresh : forall h path,
    In (EvSubscribe h path) (trace w) -> h < nextHandle w;
  wi_count : forall h,
    countOf (isSubscribe h) (trace w) =
      countOf (isUnsubscribe h) (trace w) +
      (match live with
       | Some h' => if Nat.eqb h' h then 1 else 0
       | None => 0
       end) /\
    countOf (isSubscribe h) (trace w) <= 1
}.

(** The value [v] is one the store delivered in the course of [ss]. *)
Definition Delivered {Opts : Type} (ss : list (Step Opts)) (v : JsVal) : Prop :=
  exists h, In (Notify h v) ss.

(** Where the state of an instance comes from: it is the no-value marker,
    the seed [useState] made of the normalized initial value, a delivered
    value, or what a delivered function returned for an earlier state. *)
Definition StateOrigin {Opts : Type} (iv : JsVal) (ss : list (Step Opts)) (st : JsVal)
  : Prop :=
  st = VNull \/ st = useState None (normalized iv) \/
  (st <> VUndefined /\ Delivered ss st) \/
  (exists g prev, Delivered ss (VFunction g) /\ st = callFunction g [prev]).

(** What holds of every configuration reached from a factory call with
    initial value [iv] by the steps [ss]. *)
Record Inv {Opts : Type} (iv : JsVal) (ss : list (Step Opts)) (c : Config) : Prop := {
  inv_world : WorldInv (fst c) (liveHandle (snd c));
  inv_cell : cellStep iv (closureInitialValueCopy (fst c));
  inv_state : forall i, snd c = Some i -> StateOrigin iv ss (hookState i)
}.

(** The configuration reached from a factory call by the steps [ss]. *)
Definition reached {Opts : Type} (areHookInputsEqual : list JsVal -> list JsVal -> bool)
    (f : Factory Opts) (ss : list (Step Opts)) : Config :=
  run areHookInputsEqual (f_hook f) ss (start f).

(** The value shown for the state [st] under the fallback [fallback]. *)
Definition shown (fallback st : JsVal) : JsVal :=
  if isNil st && negb (isNil fallback) then fallback else st.

(** Hooks that substitute the closure variable for a nil state, and hooks
    that return the state as it is. *)
Definition FallbackRead {Opts : Type} (H : Hook Opts) : Prop :=
  forall o cell slot,
    r_return (H o cell slot) = shown (normalized cell) (r_state (H o cell slot)).

(** Hooks that hand the closure variable to [useState]. *)
Definition CellSeeded {Opts : Type} (H : Hook Opts) : Prop :=
  forall o cell slot, r_state (H o cell slot) = useState slot (normalized cell).

Definition PlainRead {Opts : Type} (H : Hook Opts) : Prop :=
  forall o cell slot, r_return (H o cell slot) = useState slot VNull.

(** ** Statements about a factory *)

(** A value delivered through the held handle and the next call of the
    hook: a value that is neither nil nor a function is returned as it is;
    a delivered [null] is returned as [null] unless a fallback that is not
    nil is configured, which is then returned instead; a delivered function
    is not stored: React calls it with the state of the instance, and the
    hook returns what it returned, or the fallback when that is nil. *)
Definition ReturnsDelivered {Opts : Type} (f : Factory Opts) (fallback : JsVal) : Prop :=
  forall areHookInputsEqual ss h v opts,
    liveHandle (snd (reached areHookInputsEqual f ss)) = Some h ->
    (isNil v = false -> typeofFunction v = false ->
     read areHookInputsEqual (f_hook f) opts
       (notify h v (reached areHookInputsEqual f ss)) = v) /\
    (v = VNull ->
     read areHookInputsEqual (f_hook f) opts
       (notify h v (reached areHookInputsEqual f ss)) =
     if isNil fallback then VNull else fallback) /\
    (forall g, v = VFunction g ->
     exists i,
       snd (reached areHookInputsEqual f ss) = Some i /\
       read areHookInputsEqual (f_hook f) opts
         (notify h v (reached areHookInputsEqual f ss)) =
       shown fallback (callFunction g [hookState i])).


(** The hook called with options that are [active] subscribes on mount.
    The callback it registers calls [setState] with [null] when [undefined]
    is delivered and with the delivered value otherwise, so that the state
    becomes [null] for [undefined], the delivered value when that is not a
    function, and what the delivered function returns for the previous
    state when it is one; after [undefined] was delivered the hook returns
    [afterUndefined] for as long as it is only rendered, whatever the state
    was before. *)
Definition NormalizesNotifications {Opts : Type} (f : Factory Opts)
    (afterUndefined : JsVal) (active : Opts -> bool) : Prop :=
  forall areHookInputsEqual,
    (forall opts,
        active opts = true ->
        liveHandle (snd (reached areHookInputsEqual f [Render opts])) = Some 0) /\
    (forall ss h,
        liveHandle (snd (reached areHookInputsEqual f ss)) = Some h ->
        (forall s, In s (subscriptions (fst (reached areHookInputsEqual f ss))) ->
                   sub_callback s VUndefined = VNull /\
                   forall v, v <> VUndefined -> sub_callback s v = v) /\
        (forall v, exists i i',
            snd (reached areHookInputsEqual f ss) = Some i /\
            snd (notify h v (reached areHookInputsEqual f ss)) = Some i' /\
            (v = VUndefined -> hookState i' = VNull) /\
            (v <> VUndefined -> typeofFunction v = false -> hookState i' = v) /\
            (forall g, v = VFunction g ->
                       hookState i' = callFunction g [hookState i])) /\
        (forall rs opts,
            forallb isRender rs = true ->
            read areHookInputsEqual (f_hook f) opts
              (reached areHookInputsEqual f (ss ++ Notify h VUndefined :: rs)) =
            afterUndefined)).

(** Options under which the keyed hooks subscribe: [!isNil(key)]. *)
Definition hasKey (k : option Key) : bool := negb (isNil (keyVal k)).

(** ** Activations *)

(** Whether a call of the hook in configuration [c] runs the effect: on
    mount, and when the runtime finds the dependency list changed. *)
Definition activates {Opts : Type} (areHookInputsEqual : list JsVal -> list JsVal -> bool)
    (hook : Hook Opts) (o : Opts) (c : Config) : bool :=
  match snd c with
  | None => true
  | Some i =>
      negb (areHookInputsEqual
              (r_deps (hook o (closureInitialValueCopy (fst c)) (Some (hookState i))))
              (effectDeps i))
  end.

(** The call a cleanup makes. *)
Definition cleanupEvents (live : option nat) : list Event :=
  match live with
  | Some h => [EvUnsubscribe h]
  | None => []
  end.

(** The call of the configured action an activation makes: none when
    [invokeAction] is false or when the action is not a caller-supplied
    function. *)
Definition actionCalls (o : StateHookOptions) (opts : HookOptions) : list Event :=
  match invokeAction opts, actionFn (action o) with
  | Some false, _ => []
  | _, UserFn f =>
      [EvAction f (match actionArgs opts with Some l => l | None => [] end)]
  | _, Noop => []
  end.

(** The calls of one activation of the action-bound hook, and of the keyed
    hook, when the store's next handle is [n]. *)
Definition stateActivation (o : StateHookOptions) (opts : HookOptions) (n : nat)
  : list Event :=
  actionCalls o opts ++ [EvSubscribe n (property o)].

Definition keyedActivation (o : StateHookOptions) (opts : KeyedHookOptions) (n : nat)
  : list Event :=
  match key opts with
  | None => []
  | Some k => actionCalls o opts ++ [EvSubscribe n (property o ++ "." ++ keyString k)]
  end.

(** Whether the instance of [c] holds the handle [h]. *)
Definition holds (c : Config) (h : nat) : bool :=
  match liveHandle (snd c) with
  | Some h' => Nat.eqb h' h
  | None => false
  end.

(** The handle discipline of a factory: in every reachable configuration
    the calls made so far never held two handles at once and only released
    the handle held, the store holds the subscription of the instance's
    handle and no other, no handle was handed out twice, each handle handed
    out was released once unless it is the one still held, and unmounting
    releases that one too. *)
Definition OneHandleAtATime {Opts : Type} (f : Factory Opts) : Prop :=
  forall areHookInputsEqual ss,
    replay None (trace (fst (reached areHookInputsEqual f ss))) =
      Some (liveHandle (snd (reached areHookInputsEqual f ss))) /\
    map sub_handle (subscriptions (fst (reached areHookInputsEqual f ss))) =
      match liveHandle (snd (reached areHookInputsEqual f ss)) with
      | Some h => [h]
      | None => []
      end /\
    (forall h,
        countOf (isSubscribe h) (trace (fst (reached areHookInputsEqual f ss))) <= 1 /\
        countOf (isSubscribe h) (trace (fst (reached areHookInputsEqual f ss))) =
        countOf (isUnsubscribe h) (trace (fst (reached areHookInputsEqual f ss))) +
        (if holds (reached areHookInputsEqual f ss) h then 1 else 0)) /\
    (subscriptions (fst (reached areHookInputsEqual f (ss ++ [Unmount]))) = [] /\
     forall h,
       countOf (isUnsubscribe h)
         (trace (fst (reached areHookInputsEqual f (ss ++ [Unmount])))) =
       countOf (isSubscribe h)
         (trace (fst (reached areHookInputsEqual f (ss ++ [Unmount]))))).

(** A change of key: after a call with key [k1], a call with a different
    key [k2] releases the handle subscribed to [property.k1], then calls
    the action (when [invokeAction]), then subscribes to [property.k2]. *)
Definition KeyChangeResubscribes (o : StateHookOptions) : Prop :=
  forall ss (opts1 opts2 : KeyedHookOptions) k1 k2,
    key opts1 = Some k1 -> key opts2 = Some k2 -> k1 <> k2 ->
    exists h cb1 cb2,
      liveHandle (snd (reached reactInputsEqual (createKeyedStateHook o)
                         (ss ++ [Render opts1]))) = Some h /\
      subscriptions (fst (reached reactInputsEqual (createKeyedStateHook o)
                            (ss ++ [Render opts1]))) =
        [mkSubscription h (property o ++ "." ++ keyString k1) cb1] /\
      trace (fst (reached reactInputsEqual (createKeyedStateHook o)
                    (ss ++ [Render opts1; Render opts2]))) =
        (trace (fst (reached reactInputsEqual (createKeyedStateHook o)
                       (ss ++ [Render opts1]))) ++
         [EvUnsubscribe h] ++ actionCalls o opts2 ++
         [EvSubscribe (S h) (property o ++ "." ++ keyString k2)])%list /\
      subscriptions (fst (reached reactInputsEqual (createKeyedStateHook o)
                            (ss ++ [Render opts1; Render opts2]))) =
        [mkSubscription (S h) (property o ++ "." ++ keyString k2) cb2].

(** What the keyed hook's instance holds under React's comparison: the
    dependency list starts with the key of the last call, and the handle
    held is the one subscribed to that key's path. *)
Definition KeyInv (o : StateHookOptions) (c : Config) : Prop :=
  match snd c with
  | None => True
  | Some i =>
      exists k rest,
        effectDeps i = keyVal k :: rest /\
        match k with
        | None => effectCleanup i = CleanupNoop
        | Some k' => exists h cb,
            effectCleanup i = CleanupUnsubscribe h /\
            nextHandle (fst c) = S h /\
            subscriptions (fst c) =
              [mkSubscription h (property o ++ "." ++ keyString k') cb]
        end
  end.

(** The keyed hook while its key is absent: whatever the configuration,
    calls of the hook with an absent key add no subscribe call and no action
    call; when the key was absent in every call since the factory was built
    nothing was called at all, nothing is subscribed and the hook returns
    the fallback, or the no-value marker without one; in general the hook
    returns the state of the instance under the fallback. *)
Definition IdleIsInert (o : StateHookOptions) : Prop :=
  forall areHookInputsEqual,
    (forall c ss,
        (forall opts, In (Render opts) ss -> key opts = None) ->
        filter isSubscribeOrAction
          (trace (fst (run areHookInputsEqual (f_hook (createKeyedStateHook o)) ss c))) =
        filter isSubscribeOrAction (trace (fst c))) /\
    (forall ss opts,
        (forall opts', In (Render opts') ss -> key opts' = None) ->
        trace (fst (reached areHookInputsEqual (createKeyedStateHook o) ss)) = [] /\
        subscriptions (fst (reached areHookInputsEqual (createKeyedStateHook o) ss)) = [] /\
        read areHookInputsEqual (f_hook (createKeyedStateHook o)) opts
          (reached areHookInputsEqual (createKeyedStateHook o) ss) =
        if isNil (initialValue o) then VNull else initialValue o) /\
    (forall ss opts,
        read areHookInputsEqual (f_hook (createKeyedStateHook o)) opts
          (reached areHookInputsEqual (createKeyedStateHook o) ss) =
        shown (initialValue o)
          (useState
             (option_map hookState
                (snd (reached areHookInputsEqual (createKeyedStateHook o) ss)))
             VNull)).

(** Hooks whose state starts as the no-value marker. *)
Definition NullSeeded {Opts : Type} (H : Hook Opts) : Prop :=
  forall o cell slot, r_state (H o cell slot) = useState slot VNull.

(** How a hook seeds its state: with the closure variable, or with the
    no-value marker. *)
Definition SeededBy {Opts : Type} (H : Hook Opts) (seeded : bool) : Prop :=
  if seeded then CellSeeded H else NullSeeded H.

(** Within an activation the action comes first and the subscription
    last: every effect run of the action-bound hook adds the action call, if
    any, and then the subscription to [property]; every effect run of the
    keyed hook with key [k] adds the action call, if any, and then the
    subscription to [property.k]; the earlier keyed and wrapped hooks call
    [invoke] and then subscribe.  In particular the keyed hook does so on
    mount with a key and when an absent key becomes defined. *)
Definition ActionThenSubscribe (o : StateHookOptions) : Prop :=
  (forall opts cell slot w,
      trace (snd (r_effect (f_hook (createStateHook o) opts cell slot) w)) =
      (trace w ++ actionCalls o opts ++ [EvSubscribe (nextHandle w) (property o)])%list) /\
  (forall (opts : KeyedHookOptions) cell slot w k,
      key opts = Some k ->
      trace (snd (r_effect (f_hook (createKeyedStateHook o) opts cell slot) w)) =
      (trace w ++ actionCalls o opts ++
       [EvSubscribe (nextHandle w) (property o ++ "." ++ keyString k)])%list) /\
  (forall areHookInputsEqual (opts : KeyedHookOptions) k,
      key opts = Some k ->
      trace (fst (reached areHookInputsEqual (createKeyedStateHook o) [Render opts])) =
      (actionCalls o opts ++ [EvSubscribe 0 (property o ++ "." ++ keyString k)])%list) /\
  (forall ss (opts1 opts2 : KeyedHookOptions) k,
      key opts1 = None -> key opts2 = Some k ->
      trace (fst (reached reactInputsEqual (createKeyedStateHook o)
                    (ss ++ [Render opts1; Render opts2]))) =
      (trace (fst (reached reactInputsEqual (createKeyedStateHook o)
                     (ss ++ [Render opts1]))) ++
       actionCalls o opts2 ++
       [EvSubscribe
          (nextHandle (fst (reached reactInputsEqual (createKeyedStateHook o)
                              (ss ++ [Render opts1]))))
          (property o ++ "." ++ keyString k)])%list) /\
  (forall opts f,
      action o = Callable (UserFn f) ->
      invokeAction opts <> Some false ->
      actionCalls o opts =
      [EvAction f (match actionArgs opts with Some l => l | None => [] end)]) /\
  (forall opts, invokeAction opts = Some false -> actionCalls o opts = []).

Definition InvokeThenSubscribe (invoke : nat) (prop : string) : Prop :=
  (forall k cell slot w,
      trace (snd (r_effect (f_hook (Legacy.createKeyedStateHook invoke prop)
                              (Some k) cell slot) w)) =
      (trace w ++ [EvAction invoke [keyVal (Some k)];
                   EvSubscribe (nextHandle w) (prop ++ "." ++ keyString k)])%list) /\
  (forall param cell slot w,
      trace (snd (r_effect (f_hook (Legacy.createWrappedStateHook invoke prop)
                              param cell slot) w)) =
      (trace w ++ [EvAction invoke [keyVal param];
                   EvSubscribe (nextHandle w) prop])%list).

(** The action-bound hook called with [invokeAction] false only: the
    action is never called, and every call that activates releases the
    handle held, if any, and subscribes to [property]; whatever the options,
    a call that activates ends by subscribing to [property] and holds the
    new handle. *)
Definition SubscribesWithoutAction (o : StateHookOptions) : Prop :=
  forall areHookInputsEqual,
    (forall ss,
        (forall opts, In (Render opts) ss -> invokeAction opts = Some false) ->
        filter isAction
          (trace (fst (reached areHookInputsEqual (createStateHook o) ss))) = []) /\
    (forall ss opts,
        invokeAction opts = Some false ->
        trace (fst (reached areHookInputsEqual (createStateHook o) (ss ++ [Render opts]))) =
        (trace (fst (reached areHookInputsEqual (createStateHook o) ss)) ++
         if activates areHookInputsEqual (f_hook (createStateHook o)) opts
              (reached areHookInputsEqual (createStateHook o) ss)
         then cleanupEvents
                (liveHandle (snd (reached areHookInputsEqual (createStateHook o) ss))) ++
              [EvSubscribe
                 (nextHandle (fst (reached areHookInputsEqual (createStateHook o) ss)))
                 (property o)]
         else [])%list) /\
    (forall ss opts,
        activates areHookInputsEqual (f_hook (createStateHook o)) opts
          (reached areHookInputsEqual (createStateHook o) ss) = true ->
        (exists pre,
            trace (fst (reached areHookInputsEqual (createStateHook o)
                          (ss ++ [Render opts]))) =
            (pre ++
             [EvSubscribe
                (nextHandle (fst (reached areHookInputsEqual (createStateHook o) ss)))
                (property o)])%list) /\
        liveHandle (snd (reached areHookInputsEqual (createStateHook o)
                           (ss ++ [Render opts]))) =
        Some (nextHandle (fst (reached areHookInputsEqual (createStateHook o) ss)))).

(** A configured action that is not a function: calling it directly
    would raise; the factory puts [noop] in its place, which can be called
    and changes nothing, so every effect run is what it would be with
    [invokeAction] false, and no action call is ever made. *)
Definition NoopForNonCallable (o : StateHookOptions) : Prop :=
  actionFn (action o) = Noop /\
  (forall args w, callValue (action o) args w = None) /\
  (forall args w, callValue (Callable (actionFn (action o))) args w = Some w) /\
  (forall opts cell slot w,
      r_effect (f_hook (createStateHook o) opts cell slot) w =
      r_effect (f_hook (createStateHook o)
                  (mkHookOptions (Some false) (actionArgs opts)) cell slot) w) /\
  (forall (opts : KeyedHookOptions) cell slot w,
      r_effect (f_hook (createKeyedStateHook o) opts cell slot) w =
      r_effect (f_hook (createKeyedStateHook o)
                  (mkKeyedHookOptions (key opts)
                     (mkHookOptions (Some false) (actionArgs opts))) cell slot) w) /\
  (forall areHookInputsEqual ss,
      filter isAction
        (trace (fst (reached areHookInputsEqual (createStateHook o) ss))) = []) /\
  (forall areHookInputsEqual ss,
      filter isAction
        (trace (fst (reached areHookInputsEqual (createKeyedStateHook o) ss))) = []).

(** The closure variable of a factory: it holds the initial value until
    the hook is first called and the normalized initial value, which is
    never unset, from then on, whatever happens to the instance. *)
Definition FallbackSlotStable {Opts : Type} (f : Factory Opts) : Prop :=
  forall areHookInputsEqual,
    (forall ss,
        closureInitialValueCopy (fst (reached areHookInputsEqual f ss)) =
        if existsb isRender ss
        then normalized (f_initialValueCopy f)
        else f_initialValueCopy f) /\
    (forall ss ss',
        existsb isRender ss = true ->
        closureInitialValueCopy (fst (reached areHookInputsEqual f ss)) <> VUndefined /\
        closureInitialValueCopy (fst (reached areHookInputsEqual f (ss ++ ss'))) =
        closureInitialValueCopy (fst (reached areHookInputsEqual f ss))).

(** Hooks whose first call on an instance normalizes the closure variable. *)
Definition MountNormalizes {Opts : Type} (H : Hook Opts) : Prop :=
  forall areHookInputsEqual o w,
    closureInitialValueCopy (fst (snd (renderHook areHookInputsEqual H o (w, None)))) =
    normalized (closureInitialValueCopy w).

(** When the fallback is not nil, or no delivered function returns
    [undefined], the hook does not return [undefined]: what it returns is
    the no-value marker, the fallback, a value that was delivered, or what
    a function returned, the fallback called as initial state or a
    delivered function called as a state update. *)
Definition NeverUndefined {Opts : Type} (f : Factory Opts) (fallback : JsVal) : Prop :=
  forall areHookInputsEqual ss opts,
    (isNil fallback = false \/
     forall g prev, Delivered ss (VFunction g) -> callFunction g [prev] <> VUndefined) ->
    read areHookInputsEqual (f_hook f) opts (reached areHookInputsEqual f ss) <>
      VUndefined /\
    (read areHookInputsEqual (f_hook f) opts (reached areHookInputsEqual f ss) = VNull \/
     read areHookInputsEqual (f_hook f) opts (reached areHookInputsEqual f ss) = fallback \/
     Delivered ss
       (read areHookInputsEqual (f_hook f) opts (reached areHookInputsEqual f ss)) \/
     (exists g,
         fallback = VFunction g /\
         read areHookInputsEqual (f_hook f) opts (reached areHookInputsEqual f ss) =
         callFunction g []) \/
     (exists g prev,
         Delivered ss (VFunction g) /\
         read areHookInputsEqual (f_hook f) opts (reached areHookInputsEqual f ss) =
         callFunction g [prev])).

(** ** Example configurations *)

Definition cartOptions : StateHookOptions :=
  mkStateHookOptions (Callable (UserFn 0)) "cart" (VObject 1).

Definition productOptions : StateHookOptions :=
  mkStateHookOptions (Callable (UserFn 0)) "product" VUndefined.


Definition withKey (k : option Key) : KeyedHookOptions :=
  mkKeyedHookOptions k noOptions.

Definition cartHook : Factory HookOptions := createStateHook cartOptions.

Definition productHook : Factory KeyedHookOptions := createKeyedStateHook productOptions.

End Statements.

(** ** The first version of the factories (rest arguments) *)

Module Positional.

(** What the hook is called with: [invokeAction = true, ...actionArgs]. *)
Record HookArgs : Type := mkHookArgs {
  argInvokeAction : option bool;
  argActionArgs : list JsVal
}.

(** [key?, invokeAction = true, ...actionArgs]. *)
Record KeyedHookArgs : Type := mkKeyedHookArgs {
  argKey : option Key;
  hookArgs :> HookArgs
}.

Definition createStateHook {fns : Functions} (o : StateHookOptions) : Factory HookArgs :=
  let actionFn := actionFn (action o) in
  mkFactory (initialValue o) (fun args initialValueCopy slot =>
    let invokeAction := match argInvokeAction args with Some b => b | None => true end in
    let actionArgs := argActionArgs args in
    let initialValueCopy :=
      if isUndefined initialValueCopy then VNull else initialValueCopy in
    let state := useState slot initialValueCopy in
    mkRendered initialValueCopy state
      (VBool invokeAction :: actionArgs)
      (fun w =>
         let w := if invokeAction then callFn actionFn actionArgs w else w in
         subscribe (fun value => if isUndefined value then VNull else value)
           (property o) w)
      (if isNil state && negb (isNil initialValueCopy)
       then initialValueCopy else state)).

Definition createKeyedStateHook {fns : Functions} (o : StateHookOptions)
  : Factory KeyedHookArgs :=
  let actionFn := actionFn (action o) in
  mkFactory (initialValue o) (fun (args : KeyedHookArgs) initialValueCopy slot =>
    let invokeAction := match argInvokeAction args with Some b => b | None => true end in
    let actionArgs := argActionArgs args in
    let state := useState slot VNull in
    mkRendered initialValueCopy state
      (keyVal (argKey args) :: VBool invokeAction :: actionArgs)
      (fun w =>
         let w := if isUndefined (closureInitialValueCopy w)
                  then setInitialValueCopy VNull w else w in
         match argKey args with
         | None => (CleanupNoop, w)
         | Some k =>
             let w := if invokeAction then callFn actionFn actionArgs w else w in
             subscribe (fun value => if isUndefined value then VNull else value)
               (property o ++ "." ++ keyString k) w
         end)
      (if isNil state && negb (isNil initialValueCopy)
       then initialValueCopy else state)).

(** The options object that passes the same arguments. *)
Definition toOptions (args : HookArgs) : HookOptions :=
  mkHookOptions (argInvokeAction args) (Some (argActionArgs args)).

Definition toKeyedOptions (args : KeyedHookArgs) : KeyedHookOptions :=
  mkKeyedHookOptions (argKey args) (toOptions args).

End Positional.

(** The same step with other options. *)
Definition mapStep {A B : Type} (g : A -> B) (s : Step A) : Step B :=
  match s with
  | Render o => Render (g o)
  | Notify h v => Notify h v
  | Unmount => Unmount
  end.

(** ** Where a hook subscribes *)

(** The effect of the hook called with [o] subscribes to [path o], or
    returns [noop] and leaves the store alone when there is none. *)
Definition SubscribesTo {Opts : Type} (H : Hook Opts) (path : Opts -> option string)
  : Prop :=
  forall o cell slot w,
    match path o with
    | Some p => exists cb,
        fst (r_effect (H o cell slot) w) = CleanupUnsubscribe (nextHandle w) /\
        nextHandle (snd (r_effect (H o cell slot) w)) = S (nextHandle w) /\
        subscriptions (snd (r_effect (H o cell slot) w)) =
          mkSubscription (nextHandle w) p cb :: subscriptions w
    | None =>
        fst (r_effect (H o cell slot) w) = CleanupNoop /\
        nextHandle (snd (r_effect (H o cell slot) w)) = nextHandle w /\
        subscriptions (snd (r_effect (H o cell slot) w)) = subscriptions w
    end.

(** The instance of [c] holds the last handle the store handed out, and
    that handle is the only subscription, to the path [p]. *)
Definition HoldsPath (p : string) (c : Config) : Prop :=
  exists h cb,
    liveHandle (snd c) = Some h /\
    nextHandle (fst c) = S h /\
    subscriptions (fst c) = [mkSubscription h p cb].

(** The instance of [c] holds a handle that the store has registered
    under the path [p]. *)
Definition SubscribedTo (p : string) (c : Config) : Prop :=
  exists h cb,
    liveHandle (snd c) = Some h /\
    In (mkSubscription h p cb) (subscriptions (fst c)).


(** The first dependency of the hook called with [o] is [d o], and the
    path subscribed to is a function of it. *)
Definition HeadDriven {Opts : Type} (H : Hook Opts) (d : Opts -> JsVal)
    (path : Opts -> option string) : Prop :=
  (forall o cell slot, exists rest, r_deps (H o cell slot) = d o :: rest) /\
  (forall o o', d o = d o' -> path o = path o') /\
  SubscribesTo H path.

(** Under React's comparison: the dependency list of the instance starts
    with the first dependency of some call, and the instance holds the path
    of that call, or nothing when it has none. *)
Definition HeadInv {Opts : Type} (d : Opts -> JsVal) (path : Opts -> option string)
    (c : Config) : Prop :=
  match snd c with
  | None => True
  | Some i =>
      exists o rest,
        effectDeps i = d o :: rest /\
        match path o with
        | None => effectCleanup i = CleanupNoop
        | Some p => HoldsPath p c
        end
  end.

(** The paths of the keyed hooks. *)
Definition keyedPath (prop : string) (k : option Key) : option string :=
  match k with
  | None => None
  | Some k => Some (prop ++ "." ++ keyString k)
  end.

Definition isUnmount {Opts : Type} (s : Step Opts) : bool :=
  match s with Unmount => true | _ => false end.

(** The calls of one activation of the earlier keyed hook, of the wrapped
    hook and of the plain hook, when the store's next handle is [n]. *)
Definition legacyKeyedActivation (invoke : nat) (parentProp : string)
    (id : option Key) (n : nat) : list Event :=
  match id with
  | None => []
  | Some k =>
      [EvAction invoke [keyVal id]; EvSubscribe n (parentProp ++ "." ++ keyString k)]
  end.

Definition wrappedActivation (invoke : nat) (prop : string)
    (param : option Key) (n : nat) : list Event :=
  [EvAction invoke [keyVal param]; EvSubscribe n prop].

(** The dependency list of the action-bound hook called with [opts]. *)
Definition stateDeps (opts : HookOptions) : list JsVal :=
  VBool (match invokeAction opts with Some b => b | None => true end) ::
  match actionArgs opts with Some l => l | None => [] end.

(** The cleanup React runs before the next effect: the one the instance
    holds, none before the first render. *)
Definition heldCleanup (inst : option Instance) : Cleanup :=
  match inst with
  | Some i => effectCleanup i
  | None => CleanupNoop
  end.

(** * Properties *)

Local Open Scope list_scope.

Section Hooks.

Context {fns : Functions}.

(** ** Values *)

Lemma objectIs_eq (a b : JsVal) : objectIs a b = true <-> a = b.
Proof.
  destruct a, b; simpl; split; intro H; try discriminate; try reflexivity.
  - apply Bool.eqb_prop in H. now subst.
  - injection H as ->. apply Bool.eqb_reflx.
  - apply Z.eqb_eq in H. now subst.
  - injection H as ->. apply Z.eqb_refl.
  - apply String.eqb_eq in H. now subst.
  - injection H as ->. apply String.eqb_refl.
  - apply Nat.eqb_eq in H. now subst.
  - injection H as ->. apply Nat.eqb_refl.
  - apply Nat.eqb_eq in H. now subst.
  - injection H as ->. apply Nat.eqb_refl.
Qed.

Lemma normalized_defined (v : JsVal) : normalized v <> VUndefined.
Proof. destruct v; discriminate. Qed.

Lemma normalized_idem (v : JsVal) : normalized (normalized v) = normalized v.
Proof. now destruct v. Qed.

Lemma isNil_normalized (v : JsVal) : isNil (normalized v) = isNil v.
Proof. now destruct v. Qed.

Lemma normalized_not_nil (v : JsVal) : isNil v = false -> normalized v = v.
Proof. now destruct v. Qed.

Lemma cellStep_refl (c : JsVal) : cellStep c c.
Proof. now left. Qed.

Lemma cellStep_trans (a b c : JsVal) : cellStep a b -> cellStep b c -> cellStep a c.
Proof.
  unfold cellStep. intros [-> | ->] [-> | ->]; auto.
  right. apply normalized_idem.
Qed.

Lemma cellStep_normalized (a b : JsVal) : cellStep a b -> normalized b = normalized a.
Proof. intros [-> | ->]; [reflexivity | apply normalized_idem]. Qed.

Lemma cellStep_defined (a b : JsVal) : cellStep a b -> b <> VUndefined -> b = normalized a.
Proof.
  intros [-> | ->] Hb; [| reflexivity].
  destruct a; try reflexivity. contradiction.
Qed.

(** ** Traces *)

Lemma replay_app (live : option nat) (t t' : list Event) :
  replay live (t ++ t') =
  match replay live t with
  | Some live' => replay live' t'
  | None => None
  end.
Proof.
  revert live. induction t as [| e t IH]; intro live; simpl; [reflexivity |].
  destruct e as [f args | h path | h].
  - apply IH.
  - destruct live; [reflexivity | apply IH].
  - destruct live as [h' |]; [| reflexivity].
    destruct (Nat.eqb h h'); [apply IH | reflexivity].
Qed.

Lemma replay_actions (live : option nat) (acts : list (nat * list JsVal)) :
  replay live (map actionEvent acts) = Some live.
Proof. induction acts as [| a acts IH]; simpl; auto. Qed.

Lemma countOf_app (p : Event -> bool) (t t' : list Event) :
  countOf p (t ++ t') = countOf p t + countOf p t'.
Proof. unfold countOf. now rewrite filter_app, length_app. Qed.

Lemma countOf_single (p : Event -> bool) (e : Event) :
  countOf p [e] = if p e then 1 else 0.
Proof. unfold countOf. simpl. now destruct (p e). Qed.

Lemma countOf_actions (p : Event -> bool) (acts : list (nat * list JsVal)) :
  (forall f args, p (EvAction f args) = false) ->
  countOf p (map actionEvent acts) = 0.
Proof.
  intro Hp. unfold countOf.
  induction acts as [| a acts IH]; simpl; [reflexivity |].
  unfold actionEvent at 1. now rewrite Hp.
Qed.

Lemma countOf_subscribe_fresh (n : nat) (t : list Event) :
  (forall h path, In (EvSubscribe h path) t -> h < n) ->
  countOf (isSubscribe n) t = 0.
Proof.
  unfold countOf. induction t as [| e t IH]; intro H; simpl; [reflexivity |].
  assert (Ht : forall h path, In (EvSubscribe h path) t -> h < n)
    by (intros h path Hin; apply (H h path); now right).
  destruct e as [f args | h path | h]; simpl; auto.
  destruct (Nat.eqb_spec h n) as [-> | Hne]; auto.
  specialize (H n path (or_introl eq_refl)). lia.
Qed.

Lemma in_actions_subscribe (h : nat) (path : string) (acts : list (nat * list JsVal)) :
  ~ In (EvSubscribe h path) (map actionEvent acts).
Proof.
  intro H. apply in_map_iff in H. destruct H as [a [Ha _]]. discriminate.
Qed.

(** ** The world invariant *)

Lemma worldInv_cell (v : JsVal) (w : World) (live : option nat) :
  WorldInv w live -> WorldInv (setInitialValueCopy v w) live.
Proof. intros [H1 H2 H3 H4]. now constructor. Qed.

Lemma worldInv_cleanup (c : Cleanup) (w : World) :
  WorldInv w (cleanupHandle c) -> WorldInv (runCleanup c w) None.
Proof.
  destruct c as [| h]; simpl; [trivial |].
  intros [Hp Hs Hf Hc]. constructor; simpl.
  - rewrite replay_app, Hp. simpl. now rewrite Nat.eqb_refl.
  - destruct Hs as [path [cb [-> _]]]. simpl. now rewrite Nat.eqb_refl.
  - intros h' path Hin. apply in_app_iff in Hin.
    destruct Hin as [Hin | [Hin | []]]; [eauto | discriminate].
  - intro h'. destruct (Hc h') as [Heq Hle].
    rewrite !countOf_app, !countOf_single. simpl.
    destruct (Nat.eqb h h'); simpl; lia.
Qed.

Lemma worldInv_effect (w w' : World) (cl : Cleanup) :
  WorldInv w None -> EffectOutcome w (cl, w') -> WorldInv w' (cleanupHandle cl).
Proof.
  intros [Hp Hs Hf Hc] Hout. inversion Hout as [cell acts Hcell | cell acts path cb Hcell Hcb];
    subst; simpl in *.
  - constructor; simpl.
    + rewrite replay_app, Hp. apply replay_actions.
    + assumption.
    + intros h path Hin. apply in_app_iff in Hin. destruct Hin as [Hin | Hin]; [eauto |].
      now apply in_actions_subscribe in Hin.
    + intro h. destruct (Hc h) as [Heq Hle].
      rewrite !countOf_app, !countOf_actions by reflexivity. lia.
  - constructor; simpl.
    + rewrite replay_app, Hp, replay_app, replay_actions. reflexivity.
    + rewrite Hs. eauto.
    + intros h p Hin. apply in_app_iff in Hin. destruct Hin as [Hin | Hin].
      * apply Hf in Hin. lia.
      * apply in_app_iff in Hin. destruct Hin as [Hin | [Hin | []]].
        -- now apply in_actions_subscribe in Hin.
        -- injection Hin as <- _. lia.
    + intro h. destruct (Hc h) as [Heq Hle].
      rewrite !countOf_app, !countOf_actions, !countOf_single by reflexivity.
      simpl.
      destruct (Nat.eqb_spec (nextHandle w) h) as [<- | Hne]; simpl; [| lia].
      rewrite (countOf_subscribe_fresh (nextHandle w) (trace w) Hf) in *. lia.
Qed.

Lemma effect_cell (w w' : World) (cl : Cleanup) :
  EffectOutcome w (cl, w') ->
  cellStep (closureInitialValueCopy w) (closureInitialValueCopy w').
Proof. intro Hout. inversion Hout; subst; assumption. Qed.

Lemma delivered_snoc {Opts : Type} (ss : list (Step Opts)) (s : Step Opts) (v : JsVal) :
  Delivered ss v -> Delivered (ss ++ [s]) v.
Proof. intros [h Hin]. exists h. apply in_app_iff. now left. Qed.

Lemma stateOrigin_snoc {Opts : Type} (iv : JsVal) (ss : list (Step Opts))
      (s : Step Opts) (st : JsVal) :
  StateOrigin iv ss st -> StateOrigin iv (ss ++ [s]) st.
Proof.
  intros [E | [E | [[E1 E2] | [g [prev [E1 E2]]]]]].
  - now left.
  - now right; left.
  - right; right; left. split; [assumption | now apply delivered_snoc].
  - right; right; right. exists g, prev. split; [now apply delivered_snoc | assumption].
Qed.

Lemma delivered_last {Opts : Type} (ss : list (Step Opts)) (h : nat) (v : JsVal) :
  Delivered (ss ++ [Notify h v]) v.
Proof. exists h. apply in_app_iff. right. now left. Qed.

(** What [setState] stores when the callback is called with [v]. *)
Lemma setState_normalized (prev v : JsVal) :
  setState prev (normalized v) =
  match v with
  | VUndefined => VNull
  | VFunction g => callFunction g [prev]
  | _ => v
  end.
Proof. now destruct v. Qed.

Lemma stateOrigin_setState {Opts : Type} (iv : JsVal) (ss : list (Step Opts))
      (h : nat) (v prev : JsVal) :
  StateOrigin iv (ss ++ [Notify h v]) (setState prev (normalized v)).
Proof.
  rewrite setState_normalized.
  destruct v; try (now left);
    try (right; right; left; split; [discriminate | apply delivered_last]).
  right; right; right. exists ref, prev. split; [apply delivered_last | reflexivity].
Qed.

(** ** The lifecycle invariant *)

Section Lifecycle.

Variable areHookInputsEqual : list JsVal -> list JsVal -> bool.
Context {Opts : Type}.
Variable hook : Hook Opts.
Hypothesis hook_ok : WellBehaved hook.
Variable iv : JsVal.

Lemma run_app (ss ss' : list (Step Opts)) (c : Config) :
  run areHookInputsEqual hook (ss ++ ss') c =
  run areHookInputsEqual hook ss' (run areHookInputsEqual hook ss c).
Proof. revert c. induction ss as [| s ss IH]; intro c; simpl; auto. Qed.

Lemma read_mounted (o : Opts) (w : World) (i : Instance) :
  read areHookInputsEqual hook o (w, Some i) =
  r_return (hook o (closureInitialValueCopy w) (Some (hookState i))).
Proof.
  unfold read, renderHook. simpl.
  destruct (areHookInputsEqual _ _); [reflexivity |].
  now destruct (r_effect _ _).
Qed.

Lemma read_unmounted (o : Opts) (w : World) :
  read areHookInputsEqual hook o (w, None) =
  r_return (hook o (closureInitialValueCopy w) None).
Proof. unfold read, renderHook. simpl. now destruct (r_effect _ _). Qed.

Lemma inv_render (ss : list (Step Opts)) (o : Opts) (c : Config) :
  Inv iv ss c -> Inv iv (ss ++ [Render o]) (snd (renderHook areHookInputsEqual hook o c)).
Proof.
  destruct c as [w inst]. intros [Hw Hc Hs]. simpl in Hw, Hc, Hs.
  unfold renderHook.
  set (r := hook o (closureInitialValueCopy w) (option_map hookState inst)).
  assert (Hcell : cellStep iv (r_initialValueCopy r))
    by (eapply cellStep_trans; [exact Hc | apply (wb_cell _ hook_ok)]).
  assert (Hstate : StateOrigin iv (ss ++ [Render o]) (r_state r)).
  { destruct inst as [i |]; simpl in r.
    - assert (Hi : r_state r = hookState i)
        by (destruct (wb_state _ hook_ok o (closureInitialValueCopy w) (Some (hookState i)))
              as [E | [E _]]; exact E).
      rewrite Hi. apply stateOrigin_snoc. now apply Hs.
    - destruct (wb_state _ hook_ok o (closureInitialValueCopy w) None) as [E | [E1 E2]].
      + now left.
      + right; left. fold r in E1, E2. rewrite E1.
        now rewrite (cellStep_defined iv (r_initialValueCopy r)). }
  assert (Heffect : forall w0 live,
             WorldInv w0 live -> live = None ->
             closureInitialValueCopy w0 = r_initialValueCopy r ->
             Inv iv (ss ++ [Render o])
               (let (cleanup, w1) := r_effect r w0 in
                (w1, Some (mkInstance (r_state r) (r_deps r) cleanup)))).
  { intros w0 live Hw0 -> Hc0.
    pose proof (wb_effect _ hook_ok o (closureInitialValueCopy w)
                  (option_map hookState inst) w0) as Hout.
    fold r in Hout. destruct (r_effect r w0) as [cl w1].
    constructor; simpl.
    - now apply (worldInv_effect w0).
    - apply effect_cell in Hout. rewrite Hc0 in Hout.
      now apply (cellStep_trans _ (r_initialValueCopy r)).
    - intros i [= <-]. exact Hstate. }
  destruct inst as [i |].
  - destruct (areHookInputsEqual (r_deps r) (effectDeps i)).
    + simpl. constructor; simpl.
      * now apply worldInv_cell.
      * exact Hcell.
      * intros i' [= <-]. exact Hstate.
    + assert (HI := Heffect
                  (runCleanup (effectCleanup i)
                     (setInitialValueCopy (r_initialValueCopy r) w)) None).
      destruct (r_effect r _). apply HI.
      * apply worldInv_cleanup. now apply worldInv_cell.
      * reflexivity.
      * now destruct (effectCleanup i).
  - assert (HI := Heffect (setInitialValueCopy (r_initialValueCopy r) w) None).
    destruct (r_effect r _).
    apply HI; [now apply worldInv_cell | reflexivity | reflexivity].
Qed.

Lemma find_live (h h' : nat) (w : World) (s : Subscription) :
  WorldInv w (Some h') ->
  findSubscription h w = Some s ->
  h = h' /\ forall v, sub_callback s v = normalized v.
Proof.
  intros [_ [path [cb [Hs Hcb]]] _ _]. unfold findSubscription. rewrite Hs. simpl.
  destruct (Nat.eqb_spec h' h) as [-> | Hne]; [| discriminate].
  intros [= <-]. now split.
Qed.

Lemma find_none (h : nat) (w : World) :
  WorldInv w None -> findSubscription h w = None.
Proof. intros [_ Hs _ _]. unfold findSubscription. now rewrite Hs. Qed.

Lemma find_held (h : nat) (w : World) :
  WorldInv w (Some h) ->
  exists s, findSubscription h w = Some s /\ forall v, sub_callback s v = normalized v.
Proof.
  intros [_ [path [cb [Hs Hcb]]] _ _]. unfold findSubscription. rewrite Hs. simpl.
  rewrite Nat.eqb_refl. eauto.
Qed.

Lemma inv_notify (ss : list (Step Opts)) (h : nat) (v : JsVal) (c : Config) :
  Inv iv ss c -> Inv iv (ss ++ [Notify h v]) (notify h v c).
Proof.
  destruct c as [w inst]. intros [Hw Hc Hs]. simpl in Hw, Hc, Hs.
  unfold notify.
  destruct (findSubscription h w) as [s |] eqn:Hfind, inst as [i |];
    try (constructor; simpl; auto;
         intros i' Hi'; apply stateOrigin_snoc; now apply Hs).
  simpl in Hw. destruct (cleanupHandle (effectCleanup i)) as [h' |] eqn:Hcl.
  - destruct (find_live h h' w s Hw Hfind) as [-> Hcb].
    constructor; simpl; [now rewrite Hcl | assumption |].
    intros i' [= <-]. simpl. rewrite Hcb. apply stateOrigin_setState.
  - rewrite (find_none h w Hw) in Hfind. discriminate.
Qed.

Lemma inv_unmount (ss : list (Step Opts)) (c : Config) :
  Inv iv ss c -> Inv iv (ss ++ [Unmount]) (unmount c).
Proof.
  destruct c as [w [i |]]; intros [Hw Hc Hs]; simpl in *.
  - constructor; simpl; [now apply worldInv_cleanup | | discriminate].
    now destruct (effectCleanup i).
  - constructor; simpl; auto. discriminate.
Qed.

Lemma inv_step (ss : list (Step Opts)) (s : Step Opts) (c : Config) :
  Inv iv ss c -> Inv iv (ss ++ [s]) (step areHookInputsEqual hook s c).
Proof.
  destruct s; simpl;
    [apply inv_render | apply inv_notify | apply inv_unmount].
Qed.

Lemma inv_start : Inv iv (@nil (Step Opts)) (mkWorld iv 0 [] [], None).
Proof.
  constructor; simpl.
  - constructor; simpl; auto.
    intro h. unfold countOf. simpl. lia.
  - apply cellStep_refl.
  - discriminate.
Qed.

Lemma inv_run (ss : list (Step Opts)) :
  Inv iv ss (run areHookInputsEqual hook ss (mkWorld iv 0 [] [], None)).
Proof.
  induction ss as [| s ss IH] using rev_ind.
  - apply inv_start.
  - rewrite run_app. simpl. now apply inv_step.
Qed.

End Lifecycle.

(** ** The factories are well behaved *)

Lemma subscribe_outcome (w : World) (cb : JsVal -> JsVal) (path : string) :
  (forall v, cb v = normalized v) ->
  EffectOutcome w (subscribe cb path w).
Proof.
  intro Hcb. unfold subscribe.
  exact (OutcomeSubscribed w (closureInitialValueCopy w) [] path cb
           (cellStep_refl _) Hcb).
Qed.

Lemma call_subscribe_outcome (w : World) (f : JsFun) (args : list JsVal)
      (cb : JsVal -> JsVal) (path : string) :
  (forall v, cb v = normalized v) ->
  EffectOutcome w (subscribe cb path (callFn f args w)).
Proof.
  intro Hcb. destruct f as [| id]; simpl; [now apply subscribe_outcome |].
  unfold subscribe, emit. simpl. rewrite <- app_assoc.
  exact (OutcomeSubscribed w (closureInitialValueCopy w) [(id, args)] path cb
           (cellStep_refl _) Hcb).
Qed.

Lemma createStateHook_ok (o : StateHookOptions) :
  WellBehaved (f_hook (createStateHook o)).
Proof.
  constructor; simpl.
  - intros _ cell _. now right.
  - intros _ cell slot. right. split; [reflexivity | apply normalized_defined].
  - intros _ cell slot. fold (normalized cell).
    destruct (isNil (useState slot (normalized cell))); simpl; [| now left].
    destruct (isNil (normalized cell)) eqn:E; simpl; [now left | now right].
  - intros opts cell slot w.
    destruct (invokeAction opts) as [[|] |];
      first [now apply call_subscribe_outcome | now apply subscribe_outcome].
Qed.

Lemma createKeyedStateHook_ok (o : StateHookOptions) :
  WellBehaved (f_hook (createKeyedStateHook o)).
Proof.
  constructor; simpl.
  - intros _ cell _. now left.
  - intros _ cell slot. now left.
  - intros _ cell slot.
    destruct (isNil (useState slot VNull)); simpl; [| now left].
    destruct (isNil cell) eqn:E; simpl; [now left | now right].
  - intros opts cell slot w.
    assert (Hn : exists w0, (if isUndefined (closureInitialValueCopy w)
                             then setInitialValueCopy VNull w else w) = w0 /\
                            nextHandle w0 = nextHandle w /\
                            subscriptions w0 = subscriptions w /\
                            trace w0 = trace w /\
                            cellStep (closureInitialValueCopy w) (closureInitialValueCopy w0)).
    { eexists. split; [reflexivity |].
      destruct (isUndefined (closureInitialValueCopy w)) eqn:E; simpl; repeat split;
        solve [ right; unfold normalized; now rewrite E | apply cellStep_refl ]. }
    destruct Hn as [w0 [-> [Hh [Hs [Ht Hc]]]]].
    destruct (key opts) as [k |].
    + assert (Hout : forall acts,
                 EffectOutcome w
                   (subscribe (fun value => if isUndefined value then VNull else value)
                      (property o ++ "." ++ keyString k)
                      (mkWorld (closureInitialValueCopy w0) (nextHandle w0)
                         (subscriptions w0) (trace w0 ++ map actionEvent acts)))).
      { intro acts. unfold subscribe. simpl. rewrite Hh, Hs, Ht, <- app_assoc.
        now apply OutcomeSubscribed. }
      destruct (match invokeAction opts with Some b => b | None => true end),
               (action o) as [[| | | | | | f] | [| f]]; simpl;
        try (specialize (Hout []); simpl in Hout; rewrite app_nil_r in Hout;
             now destruct w0);
        exact (Hout [(f, match actionArgs opts with Some l => l | None => [] end)]).
    + replace w0 with (mkWorld (closureInitialValueCopy w0) (nextHandle w)
                         (subscriptions w) (trace w ++ map actionEvent []))
        by (simpl; rewrite app_nil_r, <- Hh, <- Hs, <- Ht; now destruct w0).
      now apply OutcomeIdle.
Qed.

Lemma legacy_scopedStateHook_ok (prop : string) :
  WellBehaved (Legacy.scopedStateHook prop).
Proof.
  constructor; simpl.
  - intros _ cell _. now right.
  - intros _ cell slot. right. split; [reflexivity | apply normalized_defined].
  - intros _ cell slot. fold (normalized cell).
    destruct (isNil (useState slot (normalized cell))); simpl; [| now left].
    destruct (isNil (normalized cell)) eqn:E; simpl; [now left | now right].
  - intros _ cell slot w. now apply subscribe_outcome.
Qed.

Lemma legacy_curriedStateHook_ok : WellBehaved Legacy.curriedStateHook.
Proof.
  constructor; simpl.
  - intros _ cell _. now left.
  - intros _ cell slot. now left.
  - intros _ cell slot. rewrite andb_false_r. now left.
  - intros property cell slot w. now apply subscribe_outcome.
Qed.

Lemma legacy_createKeyedStateHook_ok (invoke : nat) (parentProp : string) :
  WellBehaved (f_hook (Legacy.createKeyedStateHook invoke parentProp)).
Proof.
  constructor; simpl.
  - intros _ cell _. now left.
  - intros _ cell slot. now left.
  - intros _ cell slot. now left.
  - intros [k |] cell slot w.
    + now apply (call_subscribe_outcome w (UserFn invoke)).
    + replace w with (mkWorld (closureInitialValueCopy w) (nextHandle w)
                        (subscriptions w) (trace w ++ map actionEvent [])) at 2
        by (simpl; rewrite app_nil_r; now destruct w).
      apply OutcomeIdle, cellStep_refl.
Qed.

Lemma legacy_createWrappedStateHook_ok (invoke : nat) (prop : string) :
  WellBehaved (f_hook (Legacy.createWrappedStateHook invoke prop)).
Proof.
  constructor; simpl.
  - intros _ cell _. now left.
  - intros _ cell slot. now left.
  - intros _ cell slot. now left.
  - intros param cell slot w.
    now apply (call_subscribe_outcome w (UserFn invoke)).
Qed.

(** ** Reading the hook *)


Lemma shown_normalized (iv st : JsVal) : shown (normalized iv) st = shown iv st.
Proof. now destruct iv, st. Qed.

Lemma createStateHook_read (o : StateHookOptions) :
  FallbackRead (f_hook (createStateHook o)).
Proof.
  intros opts cell slot. simpl. fold (normalized cell). unfold shown.
  destruct slot as [st |]; simpl; [reflexivity |].
  now destruct cell.
Qed.

Lemma createKeyedStateHook_read (o : StateHookOptions) :
  FallbackRead (f_hook (createKeyedStateHook o)).
Proof.
  intros opts cell slot. simpl. unfold shown. rewrite isNil_normalized.
  destruct (isNil (useState slot VNull)); simpl; [| reflexivity].
  destruct (isNil cell) eqn:E; simpl; [reflexivity |].
  symmetry. now apply normalized_not_nil.
Qed.

Lemma legacy_scopedStateHook_read (prop : string) :
  FallbackRead (Legacy.scopedStateHook prop).
Proof.
  intros opts cell slot. simpl. fold (normalized cell). unfold shown.
  destruct slot as [st |]; simpl; [reflexivity |].
  now destruct cell.
Qed.

Lemma legacy_curriedStateHook_read : PlainRead Legacy.curriedStateHook.
Proof. intros property cell slot. simpl. now rewrite andb_false_r. Qed.

Lemma legacy_createKeyedStateHook_read (invoke : nat) (parentProp : string) :
  PlainRead (f_hook (Legacy.createKeyedStateHook invoke parentProp)).
Proof. intros id cell slot. reflexivity. Qed.

Lemma legacy_createWrappedStateHook_read (invoke : nat) (prop : string) :
  PlainRead (f_hook (Legacy.createWrappedStateHook invoke prop)).
Proof. intros param cell slot. reflexivity. Qed.

Section Reads.

Variable areHookInputsEqual : list JsVal -> list JsVal -> bool.
Context {Opts : Type}.
Variable f : Factory Opts.
Hypothesis hook_ok : WellBehaved (f_hook f).

Lemma reached_inv (ss : list (Step Opts)) :
  Inv (f_initialValueCopy f) ss (reached areHookInputsEqual f ss).
Proof. apply inv_run, hook_ok. Qed.

Lemma reached_snoc (ss : list (Step Opts)) (s : Step Opts) :
  reached areHookInputsEqual f (ss ++ [s]) =
  step areHookInputsEqual (f_hook f) s (reached areHookInputsEqual f ss).
Proof. unfold reached. now rewrite run_app. Qed.

(** The state a call of the hook reads on a mounted instance is the
    state of the instance. *)
Lemma state_mounted (o : Opts) (cell st : JsVal) :
  r_state (f_hook f o cell (Some st)) = st.
Proof. destruct (wb_state _ hook_ok o cell (Some st)) as [E | [E _]]; exact E. Qed.

(** A notification through the held handle calls [setState] with the
    normalized value. *)
Lemma notify_held (ss : list (Step Opts)) (h : nat) (v : JsVal) :
  liveHandle (snd (reached areHookInputsEqual f ss)) = Some h ->
  exists i,
    snd (reached areHookInputsEqual f ss) = Some i /\
    notify h v (reached areHookInputsEqual f ss) =
      (fst (reached areHookInputsEqual f ss),
       Some (mkInstance (setState (hookState i) (normalized v))
                        (effectDeps i) (effectCleanup i))).
Proof.
  pose proof (reached_inv ss) as [Hw _ _].
  destruct (reached areHookInputsEqual f ss) as [w [i |]]; simpl in *; [| discriminate].
  intro Hl. rewrite Hl in Hw. exists i. split; [reflexivity |].
  destruct (find_held h w Hw) as [s [-> Hcb]]. now rewrite Hcb.
Qed.

Lemma read_state (o : Opts) (w : World) (inst : option Instance) :
  FallbackRead (f_hook f) ->
  cellStep (f_initialValueCopy f) (closureInitialValueCopy w) ->
  read areHookInputsEqual (f_hook f) o (w, inst) =
  shown (f_initialValueCopy f)
    (r_state (f_hook f o (closureInitialValueCopy w) (option_map hookState inst))).
Proof.
  intros Hr Hc.
  rewrite <- shown_normalized, <- (cellStep_normalized _ _ Hc).
  destruct inst as [i |]; [rewrite read_mounted | rewrite read_unmounted]; apply Hr.
Qed.

Lemma read_fallback_mounted (o : Opts) (w : World) (i : Instance) :
  FallbackRead (f_hook f) ->
  cellStep (f_initialValueCopy f) (closureInitialValueCopy w) ->
  read areHookInputsEqual (f_hook f) o (w, Some i) =
  shown (f_initialValueCopy f) (hookState i).
Proof.
  intros Hr Hc. rewrite (read_state o w (Some i) Hr Hc). simpl.
  now rewrite state_mounted.
Qed.

Lemma read_fallback (ss : list (Step Opts)) (o : Opts) (w : World) (inst : option Instance) :
  FallbackRead (f_hook f) ->
  NullSeeded (f_hook f) ->
  cellStep (f_initialValueCopy f) (closureInitialValueCopy w) ->
  read areHookInputsEqual (f_hook f) o (w, inst) =
  shown (f_initialValueCopy f) (useState (option_map hookState inst) VNull).
Proof. intros Hr Hn Hc. now rewrite (read_state o w inst Hr Hc), Hn. Qed.

Lemma read_fallback_seeded (o : Opts) (w : World) (inst : option Instance) :
  FallbackRead (f_hook f) ->
  CellSeeded (f_hook f) ->
  cellStep (f_initialValueCopy f) (closureInitialValueCopy w) ->
  read areHookInputsEqual (f_hook f) o (w, inst) =
  shown (f_initialValueCopy f)
    (useState (option_map hookState inst) (normalized (f_initialValueCopy f))).
Proof.
  intros Hr Hn Hc.
  now rewrite (read_state o w inst Hr Hc), Hn, (cellStep_normalized _ _ Hc).
Qed.

Lemma read_plain (o : Opts) (w : World) (inst : option Instance) :
  PlainRead (f_hook f) ->
  read areHookInputsEqual (f_hook f) o (w, inst) =
  useState (option_map hookState inst) VNull.
Proof.
  intro Hr.
  destruct inst as [i |]; [rewrite read_mounted | rewrite read_unmounted]; apply Hr.
Qed.

(** What the hook returns right after a notification through the held
    handle. *)
Lemma read_after_notify (ss : list (Step Opts)) (h : nat) (v : JsVal) (o : Opts) :
  FallbackRead (f_hook f) ->
  liveHandle (snd (reached areHookInputsEqual f ss)) = Some h ->
  exists i,
    snd (reached areHookInputsEqual f ss) = Some i /\
    read areHookInputsEqual (f_hook f) o (notify h v (reached areHookInputsEqual f ss)) =
    shown (f_initialValueCopy f) (setState (hookState i) (normalized v)).
Proof.
  intros Hr Hl. destruct (notify_held ss h v Hl) as [i [Hi ->]].
  exists i. split; [assumption |].
  apply read_fallback_mounted; [assumption |].
  apply (inv_cell _ _ _ (reached_inv ss)).
Qed.

Lemma read_after_notify_plain (ss : list (Step Opts)) (h : nat) (v : JsVal) (o : Opts) :
  PlainRead (f_hook f) ->
  liveHandle (snd (reached areHookInputsEqual f ss)) = Some h ->
  exists i,
    snd (reached areHookInputsEqual f ss) = Some i /\
    read areHookInputsEqual (f_hook f) o (notify h v (reached areHookInputsEqual f ss)) =
    setState (hookState i) (normalized v).
Proof.
  intros Hr Hl. destruct (notify_held ss h v Hl) as [i [Hi ->]].
  exists i. split; [assumption |]. now apply read_plain.
Qed.

End Reads.

Section Sequences.

Variable areHookInputsEqual : list JsVal -> list JsVal -> bool.
Context {Opts : Type}.
Variable f : Factory Opts.
Hypothesis hook_ok : WellBehaved (f_hook f).

Lemma render_keeps_state (o : Opts) (w : World) (i : Instance) :
  exists w' i',
    snd (renderHook areHookInputsEqual (f_hook f) o (w, Some i)) = (w', Some i') /\
    hookState i' = hookState i.
Proof.
  assert (Hs : r_state (f_hook f o (closureInitialValueCopy w) (Some (hookState i)))
               = hookState i)
    by (destruct (wb_state _ hook_ok o (closureInitialValueCopy w) (Some (hookState i)))
          as [E | [E _]]; exact E).
  unfold renderHook. simpl.
  destruct (areHookInputsEqual _ _); [simpl; eauto |].
  destruct (r_effect _ _) as [cl w1]. simpl. eauto.
Qed.

Lemma renders_keep_state (rs : list (Step Opts)) (w : World) (i : Instance) :
  forallb isRender rs = true ->
  exists w' i',
    run areHookInputsEqual (f_hook f) rs (w, Some i) = (w', Some i') /\
    hookState i' = hookState i.
Proof.
  revert w i. induction rs as [| s rs IH]; intros w i Hrs; [simpl; eauto |].
  destruct s as [o | |]; try discriminate. simpl in Hrs.
  destruct (render_keeps_state o w i) as [w1 [i1 [E1 H1]]].
  change (run areHookInputsEqual (f_hook f) (Render o :: rs) (w, Some i))
    with (run areHookInputsEqual (f_hook f) rs
            (snd (renderHook areHookInputsEqual (f_hook f) o (w, Some i)))).
  rewrite E1. destruct (IH w1 i1 Hrs) as [w2 [i2 [E2 H2]]].
  exists w2, i2. split; [assumption | congruence].
Qed.

(** The state after [undefined] was delivered through the held handle
    and the instance was rendered some more. *)
Lemma state_after_undefined (ss rs : list (Step Opts)) (h : nat) :
  liveHandle (snd (reached areHookInputsEqual f ss)) = Some h ->
  forallb isRender rs = true ->
  exists w i,
    reached areHookInputsEqual f (ss ++ Notify h VUndefined :: rs) = (w, Some i) /\
    hookState i = VNull.
Proof.
  intros Hl Hrs. unfold reached. rewrite run_app.
  change (run areHookInputsEqual (f_hook f) (Notify h VUndefined :: rs)
            (run areHookInputsEqual (f_hook f) ss (start f)))
    with (run areHookInputsEqual (f_hook f) rs
            (notify h VUndefined (reached areHookInputsEqual f ss))).
  destruct (notify_held areHookInputsEqual f hook_ok ss h VUndefined Hl) as [i [_ E]].
  rewrite E.
  destruct (renders_keep_state rs (fst (reached areHookInputsEqual f ss))
              (mkInstance (normalized VUndefined) (effectDeps i) (effectCleanup i)) Hrs)
    as [w' [i' [E' H']]].
  exists w', i'. split; [exact E' | exact H'].
Qed.

(** The callback held by the store and what a notification stores. *)
Lemma callback_normalizes (ss : list (Step Opts)) (h : nat) :
  liveHandle (snd (reached areHookInputsEqual f ss)) = Some h ->
  (forall s, In s (subscriptions (fst (reached areHookInputsEqual f ss))) ->
             sub_callback s VUndefined = VNull /\
             forall v, v <> VUndefined -> sub_callback s v = v) /\
  (forall v, exists i i',
      snd (reached areHookInputsEqual f ss) = Some i /\
      snd (notify h v (reached areHookInputsEqual f ss)) = Some i' /\
      (v = VUndefined -> hookState i' = VNull) /\
      (v <> VUndefined -> typeofFunction v = false -> hookState i' = v) /\
      (forall g, v = VFunction g -> hookState i' = callFunction g [hookState i])).
Proof.
  intro Hl. split.
  - pose proof (reached_inv areHookInputsEqual f hook_ok ss) as [[_ Hs _ _] _ _].
    rewrite Hl in Hs. destruct Hs as [path [cb [Hs Hcb]]]. rewrite Hs.
    intros s [<- | []]. simpl. rewrite Hcb. split; [reflexivity |].
    intros v Hv. rewrite Hcb. destruct v; try reflexivity. contradiction.
  - intro v. destruct (notify_held areHookInputsEqual f hook_ok ss h v Hl) as [i [Hi ->]].
    exists i. eexists. split; [exact Hi | split; [reflexivity |]].
    simpl. rewrite setState_normalized. repeat split.
    + now intros ->.
    + intros Hv Hf. destruct v; try reflexivity; [contradiction | discriminate].
    + now intros g ->.
Qed.



End Sequences.

Lemma not_delivered {Opts : Type} (ss : list (Step Opts)) (v : JsVal) :
  existsb isNotify ss = false -> ~ Delivered ss v.
Proof.
  intros Hn [h Hin].
  assert (existsb isNotify ss = true)
    by (apply existsb_exists; exists (Notify h v); now split).
  congruence.
Qed.

Lemma shown_unset (st : JsVal) : shown VUndefined st = st.
Proof. unfold shown. simpl. now rewrite andb_false_r. Qed.

Section Contracts.

Context {Opts : Type}.
Variable f : Factory Opts.
Hypothesis hook_ok : WellBehaved (f_hook f).



Lemma returns_delivered :
  FallbackRead (f_hook f) -> ReturnsDelivered f (f_initialValueCopy f).
Proof.
  intros Hr eq' ss h v opts Hl.
  destruct (read_after_notify eq' f hook_ok ss h v opts Hr Hl) as [i [Hi ->]].
  rewrite setState_normalized. repeat split.
  - intros Hv Hf. unfold shown. destruct v; try discriminate; reflexivity.
  - intros ->. unfold shown. simpl. now destruct (isNil (f_initialValueCopy f)).
  - intros g ->. now exists i.
Qed.

Lemma returns_delivered_plain :
  PlainRead (f_hook f) -> ReturnsDelivered f VUndefined.
Proof.
  intros Hr eq' ss h v opts Hl.
  destruct (read_after_notify_plain eq' f hook_ok ss h v opts Hr Hl) as [i [Hi ->]].
  rewrite setState_normalized. repeat split.
  - intros Hv Hf. destruct v; try discriminate; reflexivity.
  - now intros ->.
  - intros g ->. exists i. now rewrite shown_unset.
Qed.

(** The first call of the hook with [active] options leaves the instance
    with the handle [0] when the effect then returns the unsubscribe
    function. *)
Lemma mount_live (eq' : list JsVal -> list JsVal -> bool) (active : Opts -> bool)
      (opts : Opts) :
  (forall o cell slot w,
      active o = true ->
      fst (r_effect (f_hook f o cell slot) w) = CleanupUnsubscribe (nextHandle w)) ->
  active opts = true ->
  liveHandle (snd (reached eq' f [Render opts])) = Some 0.
Proof.
  intros Ha Ho. unfold reached, start. simpl.
  specialize (Ha opts (f_initialValueCopy f) None
                (setInitialValueCopy
                   (r_initialValueCopy (f_hook f opts (f_initialValueCopy f) None))
                   (mkWorld (f_initialValueCopy f) 0 [] [])) Ho).
  destruct (r_effect _ _) as [cl w1]. simpl in *. now rewrite Ha.
Qed.

Lemma normalizes_fallback (active : Opts -> bool) :
  FallbackRead (f_hook f) ->
  (forall o cell slot w,
      active o = true ->
      fst (r_effect (f_hook f o cell slot) w) = CleanupUnsubscribe (nextHandle w)) ->
  NormalizesNotifications f
    (if isNil (f_initialValueCopy f) then VNull else f_initialValueCopy f) active.
Proof.
  intros Hr Ha eq'. split; [intros opts Ho; now apply (mount_live eq' active) |].
  intros ss h Hl.
  destruct (callback_normalizes eq' f hook_ok ss h Hl) as [H1 H2].
  split; [exact H1 | split; [exact H2 |]].
  intros rs opts Hrs.
  destruct (state_after_undefined eq' f hook_ok ss rs h Hl Hrs) as [w [i [E Hi]]].
  pose proof (reached_inv eq' f hook_ok (ss ++ Notify h VUndefined :: rs)) as [_ Hc _].
  rewrite E in *. simpl in Hc.
  rewrite (read_fallback_mounted eq' f hook_ok opts w i Hr Hc), Hi.
  unfold shown. simpl. now destruct (isNil (f_initialValueCopy f)).
Qed.

Lemma normalizes_plain (active : Opts -> bool) :
  PlainRead (f_hook f) ->
  (forall o cell slot w,
      active o = true ->
      fst (r_effect (f_hook f o cell slot) w) = CleanupUnsubscribe (nextHandle w)) ->
  NormalizesNotifications f VNull active.
Proof.
  intros Hr Ha eq'. split; [intros opts Ho; now apply (mount_live eq' active) |].
  intros ss h Hl.
  destruct (callback_normalizes eq' f hook_ok ss h Hl) as [H1 H2].
  split; [exact H1 | split; [exact H2 |]].
  intros rs opts Hrs.
  destruct (state_after_undefined eq' f hook_ok ss rs h Hl Hrs) as [w [i [E Hi]]].
  rewrite E, (read_plain eq' f opts w (Some i) Hr). simpl. exact Hi.
Qed.

End Contracts.

(** How each hook seeds its state and when its effect subscribes. *)
Lemma createStateHook_seeded (o : StateHookOptions) :
  CellSeeded (f_hook (createStateHook o)).
Proof. intros opts cell slot. reflexivity. Qed.

Lemma createKeyedStateHook_nullSeeded (o : StateHookOptions) :
  NullSeeded (f_hook (createKeyedStateHook o)).
Proof. intros opts cell slot. reflexivity. Qed.

Lemma legacy_scopedStateHook_seeded (prop : string) :
  CellSeeded (Legacy.scopedStateHook prop).
Proof. intros opts cell slot. reflexivity. Qed.

Lemma nextHandle_call (f : JsFun) (args : list JsVal) (w : World) :
  nextHandle (callFn f args w) = nextHandle w.
Proof. now destruct f. Qed.

Lemma createStateHook_subscribes (o : StateHookOptions) (opts : HookOptions)
      (cell : JsVal) (slot : option JsVal) (w : World) :
  fst (r_effect (f_hook (createStateHook o) opts cell slot) w) =
  CleanupUnsubscribe (nextHandle w).
Proof.
  simpl. destruct (match invokeAction opts with Some b => b | None => true end);
    [now rewrite nextHandle_call | reflexivity].
Qed.

Lemma createKeyedStateHook_subscribes (o : StateHookOptions) (opts : KeyedHookOptions)
      (cell : JsVal) (slot : option JsVal) (w : World) :
  hasKey (key opts) = true ->
  fst (r_effect (f_hook (createKeyedStateHook o) opts cell slot) w) =
  CleanupUnsubscribe (nextHandle w).
Proof.
  simpl. destruct (key opts) as [k |]; [intros _ | discriminate].
  destruct (match invokeAction opts with Some b => b | None => true end);
    simpl; rewrite ?nextHandle_call;
    now destruct (isUndefined (closureInitialValueCopy w)).
Qed.

Lemma legacy_createKeyedStateHook_subscribes (invoke : nat) (parentProp : string)
      (id : option Key) (cell : JsVal) (slot : option JsVal) (w : World) :
  hasKey id = true ->
  fst (r_effect (f_hook (Legacy.createKeyedStateHook invoke parentProp) id cell slot) w) =
  CleanupUnsubscribe (nextHandle w).
Proof. destruct id as [k |]; [reflexivity | discriminate]. Qed.

(** * The hooks' contracts *)

(** ** Delivered values *)

(** C1, as the code has it: a delivered value that is neither [undefined]
    nor [null] nor a function is exactly what the next call of the hook
    returns, whatever fallback is configured; a delivered [null] is
    returned as [null] only when no fallback (or a nil one) is configured,
    and is otherwise replaced by the fallback; a delivered function is
    handed to [setState], which calls it with the state of the instance,
    and the next call of the hook returns what it returned, or the fallback
    when that is nil and the fallback is not.  This holds for the
    action-bound, keyed, plain and wrapped hooks. *)
Theorem delivered_value_returned_unless_null :
  forall (o : StateHookOptions) (prop : string) (iv : JsVal) (invoke : nat),
    ReturnsDelivered (createStateHook o) (initialValue o) /\
    ReturnsDelivered (createKeyedStateHook o) (initialValue o) /\
    ReturnsDelivered (Legacy.scopedFactory prop iv) iv /\
    ReturnsDelivered (Legacy.createWrappedStateHook invoke prop) VUndefined.
Proof.
  intros o prop iv invoke. split; [| split; [| split]].
  - apply (returns_delivered (createStateHook o));
      [apply createStateHook_ok | apply createStateHook_read].
  - apply (returns_delivered (createKeyedStateHook o));
      [apply createKeyedStateHook_ok | apply createKeyedStateHook_read].
  - apply (returns_delivered (Legacy.scopedFactory prop iv));
      [apply legacy_scopedStateHook_ok | apply legacy_scopedStateHook_read].
  - apply (returns_delivered_plain (Legacy.createWrappedStateHook invoke prop));
      [apply legacy_createWrappedStateHook_ok | apply legacy_createWrappedStateHook_read].
Qed.

(** ** The fallback value *)


(** ** Notifications *)

(** C3, as the code has it: every hook subscribes on mount (the keyed
    hooks when they are given a key), and the callback it registers calls
    [setState] with the no-value marker when [undefined] is delivered and
    with the delivered value, [null] included, otherwise.  The state
    becomes the no-value marker for [undefined] (and for [null]), the
    delivered value when that is not a function, and what the delivered
    function returns for the previous state when it is one.  After
    [undefined] was delivered the hook returns the fallback if one is
    configured and the no-value marker otherwise, whatever it returned
    before.  The same holds of the action-bound, the keyed, the plain
    (scoped and curried) and the wrapped hooks and of the earlier keyed
    hook. *)
Theorem undefined_notification_normalized :
  forall (o : StateHookOptions) (prop : string) (iv : JsVal) (invoke : nat),
    NormalizesNotifications (createStateHook o)
      (if isNil (initialValue o) then VNull else initialValue o) (fun _ => true) /\
    NormalizesNotifications (createKeyedStateHook o)
      (if isNil (initialValue o) then VNull else initialValue o)
      (fun opts => hasKey (key opts)) /\
    NormalizesNotifications (Legacy.scopedFactory prop iv)
      (if isNil iv then VNull else iv) (fun _ => true) /\
    NormalizesNotifications (Legacy.curriedFactory iv) VNull (fun _ => true) /\
    NormalizesNotifications (Legacy.createWrappedStateHook invoke prop) VNull
      (fun _ => true) /\
    NormalizesNotifications (Legacy.createKeyedStateHook invoke prop) VNull hasKey.
Proof.
  intros o prop iv invoke. repeat apply conj.
  - apply (normalizes_fallback (createStateHook o));
      [apply createStateHook_ok | apply createStateHook_read |].
    intros; apply createStateHook_subscribes.
  - apply (normalizes_fallback (createKeyedStateHook o));
      [apply createKeyedStateHook_ok | apply createKeyedStateHook_read |].
    intros; now apply createKeyedStateHook_subscribes.
  - apply (normalizes_fallback (Legacy.scopedFactory prop iv));
      [apply legacy_scopedStateHook_ok | apply legacy_scopedStateHook_read |].
    reflexivity.
  - apply (normalizes_plain (Legacy.curriedFactory iv));
      [apply legacy_curriedStateHook_ok | apply legacy_curriedStateHook_read |].
    reflexivity.
  - apply (normalizes_plain (Legacy.createWrappedStateHook invoke prop));
      [apply legacy_createWrappedStateHook_ok | apply legacy_createWrappedStateHook_read |].
    reflexivity.
  - apply (normalizes_plain (Legacy.createKeyedStateHook invoke prop));
      [apply legacy_createKeyedStateHook_ok | apply legacy_createKeyedStateHook_read |].
    intros; now apply legacy_createKeyedStateHook_subscribes.
Qed.

(** ** The calls of one render *)

Section RenderTrace.

Variable areHookInputsEqual : list JsVal -> list JsVal -> bool.
Context {Opts : Type}.
Variable hook : Hook Opts.

Lemma trace_runCleanup (cl : Cleanup) (w : World) :
  trace (runCleanup cl w) = trace w ++ cleanupEvents (cleanupHandle cl).
Proof. destruct cl; simpl; [now rewrite app_nil_r | reflexivity]. Qed.

Lemma nextHandle_runCleanup (cl : Cleanup) (w : World) :
  nextHandle (runCleanup cl w) = nextHandle w.
Proof. now destruct cl. Qed.

(** The calls a render adds, given the calls [events n] the hook's effect
    adds when the store's next handle is [n]. *)
Lemma render_trace (events : Opts -> nat -> list Event) (o : Opts) (c : Config) :
  (forall cell slot w,
      trace (snd (r_effect (hook o cell slot) w)) = trace w ++ events o (nextHandle w)) ->
  trace (fst (snd (renderHook areHookInputsEqual hook o c))) =
  trace (fst c) ++
  (if activates areHookInputsEqual hook o c
   then cleanupEvents (liveHandle (snd c)) ++ events o (nextHandle (fst c))
   else []).
Proof.
  intro Hev. destruct c as [w [i |]]; unfold renderHook, activates; simpl.
  - destruct (areHookInputsEqual _ _); simpl; [now rewrite app_nil_r |].
    specialize (Hev (closureInitialValueCopy w) (Some (hookState i))
                  (runCleanup (effectCleanup i)
                     (setInitialValueCopy
                        (r_initialValueCopy
                           (hook o (closureInitialValueCopy w) (Some (hookState i)))) w))).
    destruct (r_effect _ _) as [cl w1]. simpl in *.
    now rewrite Hev, trace_runCleanup, nextHandle_runCleanup, app_assoc.
  - specialize (Hev (closureInitialValueCopy w) None
                  (setInitialValueCopy
                     (r_initialValueCopy (hook o (closureInitialValueCopy w) None)) w)).
    destruct (r_effect _ _) as [cl w1]. simpl in *. exact Hev.
Qed.

End RenderTrace.

Lemma trace_callFn (o : StateHookOptions) (opts : HookOptions) (w : World) :
  trace (if match invokeAction opts with Some b => b | None => true end
         then callFn (actionFn (action o))
                (match actionArgs opts with Some l => l | None => [] end) w
         else w) =
  trace w ++ actionCalls o opts.
Proof.
  unfold actionCalls.
  destruct (invokeAction opts) as [[|] |], (actionFn (action o)) as [| f]; simpl;
    now rewrite ?app_nil_r.
Qed.

Lemma nextHandle_callFn (o : StateHookOptions) (opts : HookOptions) (w : World) :
  nextHandle (if match invokeAction opts with Some b => b | None => true end
              then callFn (actionFn (action o))
                     (match actionArgs opts with Some l => l | None => [] end) w
              else w) =
  nextHandle w.
Proof.
  destruct (invokeAction opts) as [[|] |], (actionFn (action o)) as [| f]; reflexivity.
Qed.

Lemma createStateHook_effect (o : StateHookOptions) (opts : HookOptions)
      (cell : JsVal) (slot : option JsVal) (w : World) :
  trace (snd (r_effect (f_hook (createStateHook o) opts cell slot) w)) =
  trace w ++ stateActivation o opts (nextHandle w).
Proof.
  simpl. now rewrite trace_callFn, nextHandle_callFn, <- app_assoc.
Qed.

Lemma createKeyedStateHook_effect (o : StateHookOptions) (opts : KeyedHookOptions)
      (cell : JsVal) (slot : option JsVal) (w : World) :
  trace (snd (r_effect (f_hook (createKeyedStateHook o) opts cell slot) w)) =
  trace w ++ keyedActivation o opts (nextHandle w).
Proof.
  simpl. unfold keyedActivation.
  assert (Hn : forall w0 : World,
             trace (if isUndefined (closureInitialValueCopy w0)
                    then setInitialValueCopy VNull w0 else w0) = trace w0 /\
             nextHandle (if isUndefined (closureInitialValueCopy w0)
                         then setInitialValueCopy VNull w0 else w0) = nextHandle w0)
    by (intro w0; now destruct (isUndefined (closureInitialValueCopy w0))).
  destruct (key opts) as [k |]; simpl.
  - rewrite trace_callFn, nextHandle_callFn.
    destruct (Hn w) as [-> ->]. now rewrite <- app_assoc.
  - destruct (Hn w) as [-> _]. now rewrite app_nil_r.
Qed.

(** ** One handle at a time *)

Lemma one_handle_at_a_time {Opts : Type} (f : Factory Opts) :
  WellBehaved (f_hook f) -> OneHandleAtATime f.
Proof.
  intros Hok eq' ss.
  pose proof (reached_inv eq' f Hok ss) as [[Hp Hs Hf Hc] _ _].
  pose proof (reached_inv eq' f Hok (ss ++ [Unmount])) as [[_ Hs' _ Hc'] _ _].
  assert (Hnone : liveHandle (snd (reached eq' f (ss ++ [Unmount]))) = None).
  { rewrite reached_snoc. simpl.
    now destruct (reached eq' f ss) as [w [i |]]. }
  rewrite Hnone in Hs', Hc'.
  split; [exact Hp | split; [| split; [| split]]].
  - destruct (liveHandle (snd (reached eq' f ss))) as [h |].
    + destruct Hs as [path [cb [-> _]]]. reflexivity.
    + now rewrite Hs.
  - intro h. destruct (Hc h) as [Heq Hle]. split; [exact Hle |].
    rewrite Heq. unfold holds.
    now destruct (liveHandle (snd (reached eq' f ss))).
  - exact Hs'.
  - intro h. destruct (Hc' h) as [Heq _]. lia.
Qed.

(** ** The keyed hook under React's comparison *)

Lemma keyVal_inj (k k' : option Key) : keyVal k = keyVal k' -> k = k'.
Proof.
  destruct k as [[s | n] |], k' as [[s' | n'] |]; simpl; intro H;
    try discriminate; try reflexivity; now injection H as ->.
Qed.

Lemma keyed_effect_key (o : StateHookOptions) (opts : KeyedHookOptions) (k : Key)
      (cell : JsVal) (slot : option JsVal) (w : World) :
  key opts = Some k ->
  exists cb,
    fst (r_effect (f_hook (createKeyedStateHook o) opts cell slot) w) =
      CleanupUnsubscribe (nextHandle w) /\
    nextHandle (snd (r_effect (f_hook (createKeyedStateHook o) opts cell slot) w)) =
      S (nextHandle w) /\
    subscriptions (snd (r_effect (f_hook (createKeyedStateHook o) opts cell slot) w)) =
      mkSubscription (nextHandle w) (property o ++ "." ++ keyString k)%string cb ::
      subscriptions w.
Proof.
  intro Hk. simpl. rewrite Hk. eexists. simpl.
  rewrite nextHandle_callFn.
  destruct (isUndefined (closureInitialValueCopy w)),
           (invokeAction opts) as [[|] |], (action o) as [[] | [| g]];
    simpl; repeat split; reflexivity.
Qed.

Lemma keyed_effect_nokey (o : StateHookOptions) (opts : KeyedHookOptions)
      (cell : JsVal) (slot : option JsVal) (w : World) :
  key opts = None ->
  fst (r_effect (f_hook (createKeyedStateHook o) opts cell slot) w) = CleanupNoop /\
  nextHandle (snd (r_effect (f_hook (createKeyedStateHook o) opts cell slot) w)) =
    nextHandle w /\
  subscriptions (snd (r_effect (f_hook (createKeyedStateHook o) opts cell slot) w)) =
    subscriptions w.
Proof.
  intro Hk. simpl. rewrite Hk. simpl.
  now destruct (isUndefined (closureInitialValueCopy w)).
Qed.

(** The instance a keyed effect leaves behind when it runs in a world
    without subscriptions. *)
Lemma keyed_effect_inv (o : StateHookOptions) (opts : KeyedHookOptions)
      (cell st : JsVal) (slot : option JsVal) (w : World) :
  subscriptions w = [] ->
  KeyInv o
    (let (cleanup, w1) := r_effect (f_hook (createKeyedStateHook o) opts cell slot) w in
     (w1, Some (mkInstance st
                  (r_deps (f_hook (createKeyedStateHook o) opts cell slot)) cleanup))).
Proof.
  intro Hs. unfold KeyInv.
  destruct (key opts) as [k |] eqn:Hk.
  - destruct (keyed_effect_key o opts k cell slot w Hk) as [cb [H1 [H2 H3]]].
    destruct (r_effect _ w) as [cl w1]. simpl in *.
    exists (Some k). eexists. rewrite Hk. split; [reflexivity |].
    exists (nextHandle w), cb. now rewrite H1, H2, H3, Hs.
  - destruct (keyed_effect_nokey o opts cell slot w Hk) as [H1 [H2 H3]].
    destruct (r_effect _ w) as [cl w1]. simpl in *.
    exists None. eexists. rewrite Hk. split; [reflexivity | exact H1].
Qed.

Lemma subscriptions_runCleanup (c : Config) (i : Instance) (v : JsVal) :
  snd c = Some i ->
  WorldInv (fst c) (liveHandle (snd c)) ->
  subscriptions (runCleanup (effectCleanup i) (setInitialValueCopy v (fst c))) = [].
Proof.
  intros Hi Hw. rewrite Hi in Hw. simpl in Hw.
  apply (worldInv_cell v) in Hw. apply worldInv_cleanup in Hw.
  exact (wi_store _ _ Hw).
Qed.

Lemma keyInv_render (o : StateHookOptions) (opts : KeyedHookOptions) (c : Config) :
  WorldInv (fst c) (liveHandle (snd c)) ->
  KeyInv o c ->
  KeyInv o (snd (renderHook reactInputsEqual (f_hook (createKeyedStateHook o)) opts c)).
Proof.
  destruct c as [w [i |]]; intros Hw Hk.
  - unfold renderHook.
    destruct (reactInputsEqual _ _) eqn:Heq.
    + unfold KeyInv in *. simpl in *.
      destruct Hk as [k [rest [Hd Hc]]]. rewrite Hd in Heq. simpl in Heq.
      apply andb_prop in Heq. destruct Heq as [Heq _].
      apply objectIs_eq, keyVal_inj in Heq. subst k.
      exists (key opts). eexists. split; [reflexivity | exact Hc].
    + pose proof (subscriptions_runCleanup (w, Some i) i
                    (r_initialValueCopy
                       (f_hook (createKeyedStateHook o) opts (closureInitialValueCopy w)
                          (option_map hookState (Some i)))) eq_refl Hw) as Hs.
      pose proof (keyed_effect_inv o opts (closureInitialValueCopy w)
                    (r_state (f_hook (createKeyedStateHook o) opts
                                (closureInitialValueCopy w) (option_map hookState (Some i))))
                    (option_map hookState (Some i)) _ Hs) as HI.
      destruct (r_effect _ _) as [cl w1]. exact HI.
  - unfold renderHook.
    assert (Hs : subscriptions
                   (setInitialValueCopy
                      (r_initialValueCopy
                         (f_hook (createKeyedStateHook o) opts (closureInitialValueCopy w)
                            (option_map hookState None))) w) = [])
      by exact (wi_store _ _ Hw).
    pose proof (keyed_effect_inv o opts (closureInitialValueCopy w)
                  (r_state (f_hook (createKeyedStateHook o) opts
                              (closureInitialValueCopy w) (option_map hookState None)))
                  (option_map hookState None) _ Hs) as HI.
    destruct (r_effect _ _) as [cl w1]. exact HI.
Qed.

Lemma keyInv_reached (o : StateHookOptions) (ss : list (Step KeyedHookOptions)) :
  KeyInv o (reached reactInputsEqual (createKeyedStateHook o) ss).
Proof.
  induction ss as [| s ss IH] using rev_ind; [exact I |].
  rewrite reached_snoc.
  pose proof (reached_inv reactInputsEqual (createKeyedStateHook o)
                (createKeyedStateHook_ok o) ss) as [Hw _ _].
  destruct s as [opts | h v |]; simpl.
  - now apply keyInv_render.
  - destruct (reached reactInputsEqual (createKeyedStateHook o) ss) as [w [i |]];
      unfold notify; destruct (findSubscription h w); exact IH.
  - destruct (reached reactInputsEqual (createKeyedStateHook o) ss) as [w [i |]];
      exact I.
Qed.

Lemma render_deps {Opts : Type} (areHookInputsEqual : list JsVal -> list JsVal -> bool)
      (hook : Hook Opts) (o : Opts) (c : Config) :
  exists w' i',
    snd (renderHook areHookInputsEqual hook o c) = (w', Some i') /\
    effectDeps i' =
      r_deps (hook o (closureInitialValueCopy (fst c)) (option_map hookState (snd c))) /\
    hookState i' =
      r_state (hook o (closureInitialValueCopy (fst c)) (option_map hookState (snd c))).
Proof.
  destruct c as [w [i |]]; unfold renderHook; simpl.
  - destruct (areHookInputsEqual _ _); [simpl; eauto |].
    destruct (r_effect _ _) as [cl w1]. simpl. eauto.
  - destruct (r_effect _ _) as [cl w1]. simpl. eauto.
Qed.

Lemma replay_actionCalls (o : StateHookOptions) (opts : HookOptions) (live : option nat) :
  replay live (actionCalls o opts) = Some live.
Proof.
  unfold actionCalls.
  now destruct (invokeAction opts) as [[|] |], (action o) as [[] | [| f]].
Qed.

(** The keyed instance right after a call with key [k]. *)
Lemma keyed_after_render (o : StateHookOptions) (ss : list (Step KeyedHookOptions))
      (opts : KeyedHookOptions) :
  exists w i,
    reached reactInputsEqual (createKeyedStateHook o) (ss ++ [Render opts]) = (w, Some i) /\
    (exists rest, effectDeps i = keyVal (key opts) :: rest) /\
    match key opts with
    | None => effectCleanup i = CleanupNoop
    | Some k => exists h cb,
        effectCleanup i = CleanupUnsubscribe h /\
        nextHandle w = S h /\
        subscriptions w = [mkSubscription h (property o ++ "." ++ keyString k)%string cb]
    end.
Proof.
  pose proof (keyInv_reached o (ss ++ [Render opts])) as Hk.
  rewrite reached_snoc in *. unfold step in *.
  destruct (render_deps reactInputsEqual (f_hook (createKeyedStateHook o)) opts
              (reached reactInputsEqual (createKeyedStateHook o) ss))
    as [w [i [E [Hd _]]]].
  rewrite E in *. exists w, i. split; [reflexivity |].
  simpl in Hd. split; [eauto |].
  unfold KeyInv in Hk. simpl in Hk. destruct Hk as [k [rest [Hd' Hc]]].
  rewrite Hd in Hd'. injection Hd' as Hkey _. apply keyVal_inj in Hkey. now subst k.
Qed.

Lemma key_change_resubscribes (o : StateHookOptions) : KeyChangeResubscribes o.
Proof.
  intros ss opts1 opts2 k1 k2 H1 H2 Hne.
  destruct (keyed_after_render o ss opts1) as [w1 [i1 [E1 [[rest1 Hd1] Hc1]]]].
  rewrite H1 in Hc1, Hd1. destruct Hc1 as [h [cb1 [Hcl1 [Hn1 Hs1]]]].
  destruct (keyed_after_render o (ss ++ [Render opts1]) opts2)
    as [w2 [i2 [E2 [_ Hc2]]]].
  rewrite H2 in Hc2. destruct Hc2 as [h2 [cb2 [Hcl2 [Hn2 Hs2]]]].
  rewrite <- app_assoc in E2. simpl in E2.
  assert (Ht : trace w2 =
               trace w1 ++ [EvUnsubscribe h] ++ actionCalls o opts2 ++
               [EvSubscribe (S h) (property o ++ "." ++ keyString k2)%string]).
  { change [Render opts1; Render opts2] with ([Render opts1] ++ [Render opts2]) in E2.
    rewrite app_assoc, reached_snoc, E1 in E2. unfold step in E2.
    pose proof (render_trace reactInputsEqual (f_hook (createKeyedStateHook o))
                  (keyedActivation o) opts2 (w1, Some i1)
                  (createKeyedStateHook_effect o opts2)) as Hr.
    rewrite E2 in Hr. cbn [fst snd] in Hr. rewrite Hr.
    assert (Ha : activates reactInputsEqual (f_hook (createKeyedStateHook o)) opts2
                   (w1, Some i1) = true).
    { assert (Ho : objectIs (keyVal (Some k2)) (keyVal (Some k1)) = false).
      { destruct (objectIs _ _) eqn:Eo; [| reflexivity].
        apply objectIs_eq, keyVal_inj in Eo. congruence. }
      unfold activates. cbn [fst snd]. rewrite Hd1.
      cbn [createKeyedStateHook f_hook r_deps reactInputsEqual].
      now rewrite H2, Ho. }
    rewrite Ha. unfold liveHandle. rewrite Hcl1, Hn1. unfold keyedActivation.
    now rewrite H2. }
  assert (Hh : h2 = S h).
  { pose proof (reached_inv reactInputsEqual (createKeyedStateHook o)
                  (createKeyedStateHook_ok o) (ss ++ [Render opts1])) as [[Hp1 _ _ _] _ _].
    pose proof (reached_inv reactInputsEqual (createKeyedStateHook o)
                  (createKeyedStateHook_ok o) (ss ++ [Render opts1; Render opts2]))
      as [[Hp2 _ _ _] _ _].
    rewrite E1 in Hp1. rewrite E2 in Hp2. simpl in Hp1, Hp2.
    rewrite Hcl1 in Hp1. rewrite Hcl2 in Hp2. simpl in Hp1, Hp2.
    rewrite Ht, replay_app, Hp1 in Hp2. simpl in Hp2.
    rewrite Nat.eqb_refl, replay_app, replay_actionCalls in Hp2. simpl in Hp2.
    now injection Hp2 as ->. }
  subst h2. exists h, cb1, cb2.
  rewrite E1, E2. simpl. rewrite Hcl1. repeat split; assumption.
Qed.

(** C4: for every sequence of renders, notifications and unmounts of an
    instance, the calls made never hold two handles at once and release
    only the handle held; no handle is handed out twice, and each one is
    released exactly once, by the re-activation that follows it or by the
    unmount; and when the key of the keyed hook changes from [k1] to [k2]
    the handle subscribed to [property.k1] is released before
    [property.k2] is subscribed. *)
Theorem subscription_released_exactly_once :
  forall (o : StateHookOptions),
    OneHandleAtATime (createStateHook o) /\
    OneHandleAtATime (createKeyedStateHook o) /\
    KeyChangeResubscribes o.
Proof.
  intro o. split; [| split].
  - apply one_handle_at_a_time, createStateHook_ok.
  - apply one_handle_at_a_time, createKeyedStateHook_ok.
  - apply key_change_resubscribes.
Qed.

(** ** The calls of a step *)

Lemma trace_notify (h : nat) (v : JsVal) (c : Config) :
  trace (fst (notify h v c)) = trace (fst c).
Proof.
  destruct c as [w [i |]]; unfold notify; now destruct (findSubscription h w).
Qed.

Lemma trace_unmount (c : Config) :
  trace (fst (unmount c)) = trace (fst c) ++ cleanupEvents (liveHandle (snd c)).
Proof.
  destruct c as [w [i |]]; simpl; [apply trace_runCleanup | now rewrite app_nil_r].
Qed.

Lemma filter_cleanupEvents (p : Event -> bool) (live : option nat) :
  (forall h, p (EvUnsubscribe h) = false) ->
  filter p (cleanupEvents live) = [].
Proof. intro Hp. destruct live as [h |]; simpl; [now rewrite Hp | reflexivity]. Qed.

(** ** The keyed hook without a key *)

Lemma keyed_idle_step (areHookInputsEqual : list JsVal -> list JsVal -> bool)
      (o : StateHookOptions) (s : Step KeyedHookOptions) (c : Config) :
  (forall opts, s = Render opts -> key opts = None) ->
  exists live,
    trace (fst (step areHookInputsEqual (f_hook (createKeyedStateHook o)) s c)) =
    trace (fst c) ++ cleanupEvents live.
Proof.
  intro Hs. destruct s as [opts | h v |]; unfold step.
  - rewrite (render_trace areHookInputsEqual (f_hook (createKeyedStateHook o))
               (keyedActivation o) opts c (createKeyedStateHook_effect o opts)).
    unfold keyedActivation. rewrite (Hs opts eq_refl), app_nil_r.
    destruct (activates _ _ _ _); [eauto |]. now exists None.
  - rewrite trace_notify. exists None. simpl. now rewrite app_nil_r.
  - rewrite trace_unmount. eauto.
Qed.

Lemma keyed_idle_run (areHookInputsEqual : list JsVal -> list JsVal -> bool)
      (o : StateHookOptions) (ss : list (Step KeyedHookOptions)) (c : Config) :
  (forall opts, In (Render opts) ss -> key opts = None) ->
  filter isSubscribeOrAction
    (trace (fst (run areHookInputsEqual (f_hook (createKeyedStateHook o)) ss c))) =
  filter isSubscribeOrAction (trace (fst c)).
Proof.
  revert c. induction ss as [| s ss IH]; intros c Hss; [reflexivity |].
  change (run areHookInputsEqual (f_hook (createKeyedStateHook o)) (s :: ss) c)
    with (run areHookInputsEqual (f_hook (createKeyedStateHook o)) ss
            (step areHookInputsEqual (f_hook (createKeyedStateHook o)) s c)).
  rewrite IH by (intros opts Hin; apply Hss; now right).
  destruct (keyed_idle_step areHookInputsEqual o s c) as [live ->].
  - intros opts ->. apply Hss. now left.
  - rewrite filter_app, filter_cleanupEvents by reflexivity. apply app_nil_r.
Qed.

Lemma replay_only_unsubscribes (t : list Event) (live : option nat) :
  filter isSubscribeOrAction t = [] ->
  replay None t = Some live ->
  t = [].
Proof.
  destruct t as [| [f args | h path | h] t]; simpl; try discriminate; reflexivity.
Qed.

Lemma keyed_idle_calls_nothing (areHookInputsEqual : list JsVal -> list JsVal -> bool)
      (o : StateHookOptions) (ss : list (Step KeyedHookOptions)) :
  (forall opts, In (Render opts) ss -> key opts = None) ->
  trace (fst (reached areHookInputsEqual (createKeyedStateHook o) ss)) = [] /\
  subscriptions (fst (reached areHookInputsEqual (createKeyedStateHook o) ss)) = [].
Proof.
  intro Hss.
  pose proof (reached_inv areHookInputsEqual (createKeyedStateHook o)
                (createKeyedStateHook_ok o) ss) as [[Hp Hs _ _] _ _].
  pose proof (keyed_idle_run areHookInputsEqual o ss (start (createKeyedStateHook o)) Hss)
    as Hf.
  fold (reached areHookInputsEqual (createKeyedStateHook o) ss) in Hf.
  simpl in Hf.
  assert (Ht := replay_only_unsubscribes _ _ Hf Hp).
  split; [exact Ht |].
  rewrite Ht in Hp. simpl in Hp. injection Hp as Hl. rewrite <- Hl in Hs. exact Hs.
Qed.

Lemma keyed_idle_state (areHookInputsEqual : list JsVal -> list JsVal -> bool)
      (o : StateHookOptions) (ss : list (Step KeyedHookOptions)) :
  (forall opts, In (Render opts) ss -> key opts = None) ->
  forall i,
    snd (reached areHookInputsEqual (createKeyedStateHook o) ss) = Some i ->
    hookState i = VNull.
Proof.
  induction ss as [| s ss IH] using rev_ind; intros Hss i; [discriminate |].
  assert (Hpre : forall opts, In (Render opts) ss -> key opts = None)
    by (intros opts Hin; apply Hss, in_app_iff; now left).
  specialize (IH Hpre).
  destruct (keyed_idle_calls_nothing areHookInputsEqual o ss Hpre) as [_ Hsubs].
  rewrite reached_snoc.
  destruct s as [opts | h v |]; unfold step.
  - destruct (render_deps areHookInputsEqual (f_hook (createKeyedStateHook o)) opts
                (reached areHookInputsEqual (createKeyedStateHook o) ss))
      as [w' [i' [E [_ Hst]]]].
    rewrite E. intros [= <-]. rewrite Hst.
    rewrite (createKeyedStateHook_nullSeeded o).
    destruct (reached areHookInputsEqual (createKeyedStateHook o) ss) as [w [i0 |]];
      simpl; [now apply IH | reflexivity].
  - destruct (reached areHookInputsEqual (createKeyedStateHook o) ss) as [w inst].
    unfold notify, findSubscription. simpl in Hsubs. rewrite Hsubs. simpl.
    destruct inst; exact (IH i).
  - destruct (reached areHookInputsEqual (createKeyedStateHook o) ss) as [w [i0 |]];
      discriminate.
Qed.

(** C5, as the code has it: while the key is absent the keyed hook never
    calls [subscribe] nor the configured action, however often it is
    called; when the key was absent ever since the factory was built it
    calls nothing at all and returns the no-value marker, or the fallback
    when one is configured; after a key was present, the hook with an
    absent key still returns the state last stored (under the fallback),
    which need not be the no-value marker. *)
Theorem keyed_hook_idle_without_key (o : StateHookOptions) : IdleIsInert o.
Proof.
  intro eq'. split; [| split].
  - intros c ss. apply keyed_idle_run.
  - intros ss opts Hss.
    destruct (keyed_idle_calls_nothing eq' o ss Hss) as [Ht Hs].
    split; [exact Ht | split; [exact Hs |]].
    pose proof (reached_inv eq' (createKeyedStateHook o)
                  (createKeyedStateHook_ok o) ss) as [_ Hc _].
    pose proof (keyed_idle_state eq' o ss Hss) as Hst.
    destruct (reached eq' (createKeyedStateHook o) ss) as [w inst]. simpl in Hc, Hst.
    rewrite (read_fallback eq' (createKeyedStateHook o) ss opts w inst
               (createKeyedStateHook_read o)
               (createKeyedStateHook_nullSeeded o) Hc).
    assert (Hn : useState (option_map hookState inst) VNull = VNull)
      by (destruct inst as [i |]; simpl; [now apply Hst | reflexivity]).
    rewrite Hn. unfold shown. simpl.
    now destruct (isNil (initialValue o)).
  - intros ss opts.
    pose proof (reached_inv eq' (createKeyedStateHook o)
                  (createKeyedStateHook_ok o) ss) as [_ Hc _].
    destruct (reached eq' (createKeyedStateHook o) ss) as [w inst]. simpl in Hc.
    apply (read_fallback eq' (createKeyedStateHook o) ss opts w inst
             (createKeyedStateHook_read o)
               (createKeyedStateHook_nullSeeded o) Hc).
Qed.

(** ** Action before subscription *)

Lemma actionCalls_invoked (o : StateHookOptions) (opts : HookOptions) (f : nat) :
  action o = Callable (UserFn f) ->
  invokeAction opts <> Some false ->
  actionCalls o opts =
  [EvAction f (match actionArgs opts with Some l => l | None => [] end)].
Proof.
  intros Ha Hi. unfold actionCalls. rewrite Ha.
  destruct (invokeAction opts) as [[|] |]; try reflexivity. now contradiction Hi.
Qed.

Lemma actionCalls_gated (o : StateHookOptions) (opts : HookOptions) :
  invokeAction opts = Some false -> actionCalls o opts = [].
Proof. intro Hi. unfold actionCalls. now rewrite Hi. Qed.

Lemma action_then_subscribe (o : StateHookOptions) : ActionThenSubscribe o.
Proof.
  repeat apply conj.
  - intros opts cell slot w. apply createStateHook_effect.
  - intros opts cell slot w k Hk. rewrite createKeyedStateHook_effect.
    unfold keyedActivation. now rewrite Hk.
  - intros eq' opts k Hk. unfold reached, run, step.
    rewrite (render_trace eq' (f_hook (createKeyedStateHook o)) (keyedActivation o)
               opts (start (createKeyedStateHook o)) (createKeyedStateHook_effect o opts)).
    simpl. unfold keyedActivation. now rewrite Hk.
  - intros ss opts1 opts2 k H1 H2.
    destruct (keyed_after_render o ss opts1) as [w1 [i1 [E1 [[rest1 Hd1] Hc1]]]].
    rewrite H1 in Hc1, Hd1.
    change [Render opts1; Render opts2] with ([Render opts1] ++ [Render opts2]).
    rewrite app_assoc, reached_snoc, E1. unfold step.
    rewrite (render_trace reactInputsEqual (f_hook (createKeyedStateHook o))
               (keyedActivation o) opts2 (w1, Some i1)
               (createKeyedStateHook_effect o opts2)).
    assert (Ha : activates reactInputsEqual (f_hook (createKeyedStateHook o)) opts2
                   (w1, Some i1) = true).
    { unfold activates. cbn [fst snd]. rewrite Hd1.
      cbn [createKeyedStateHook f_hook r_deps reactInputsEqual].
      rewrite H2. now destruct k. }
    rewrite Ha. cbn [fst snd]. unfold liveHandle. rewrite Hc1. simpl.
    unfold keyedActivation. now rewrite H2.
  - intros opts f. apply actionCalls_invoked.
  - intros opts. apply actionCalls_gated.
Qed.

Lemma invoke_then_subscribe (invoke : nat) (prop : string) :
  InvokeThenSubscribe invoke prop.
Proof.
  split.
  - intros k cell slot w. simpl. now rewrite <- app_assoc.
  - intros param cell slot w. simpl. now rewrite <- app_assoc.
Qed.

(** C6: in every activation the call of the action, when there is one,
    comes before the subscription, which is the last call of the
    activation; when the key of the keyed hook becomes defined, on mount or
    after calls without a key, the activation calls the action with
    [actionArgs] unless [invokeAction] is false and then subscribes to
    exactly [property + "." + key]. *)
Theorem action_precedes_subscription :
  forall (o : StateHookOptions) (invoke : nat) (prop : string),
    ActionThenSubscribe o /\ InvokeThenSubscribe invoke prop.
Proof.
  intros o invoke prop. split;
    [apply action_then_subscribe | apply invoke_then_subscribe].
Qed.

(** ** Calls of the action over a lifecycle *)

Lemma no_action_calls {Opts : Type}
      (areHookInputsEqual : list JsVal -> list JsVal -> bool) (f : Factory Opts)
      (events : Opts -> nat -> list Event) (ss : list (Step Opts)) :
  (forall o cell slot w,
      trace (snd (r_effect (f_hook f o cell slot) w)) =
      trace w ++ events o (nextHandle w)) ->
  (forall o n, In (Render o) ss -> filter isAction (events o n) = []) ->
  filter isAction (trace (fst (reached areHookInputsEqual f ss))) = [].
Proof.
  intro Hev. induction ss as [| s ss IH] using rev_ind; intro Hss; [reflexivity |].
  assert (Hpre : filter isAction (trace (fst (reached areHookInputsEqual f ss))) = [])
    by (apply IH; intros o n Hin; apply Hss, in_app_iff; now left).
  rewrite reached_snoc. destruct s as [o | h v |]; unfold step.
  - rewrite (render_trace areHookInputsEqual (f_hook f) events o _ (Hev o)).
    rewrite filter_app, Hpre. simpl.
    destruct (activates _ _ _ _); [| reflexivity].
    rewrite filter_app, filter_cleanupEvents by reflexivity. simpl.
    apply Hss, in_app_iff. right. now left.
  - now rewrite trace_notify.
  - rewrite trace_unmount, filter_app, Hpre, filter_cleanupEvents by reflexivity.
    reflexivity.
Qed.

Lemma filter_action_stateActivation (o : StateHookOptions) (opts : HookOptions) (n : nat) :
  actionCalls o opts = [] -> filter isAction (stateActivation o opts n) = [].
Proof. intro H. unfold stateActivation. now rewrite H. Qed.

Lemma filter_action_keyedActivation (o : StateHookOptions) (opts : KeyedHookOptions)
      (n : nat) :
  actionCalls o opts = [] -> filter isAction (keyedActivation o opts n) = [].
Proof. intro H. unfold keyedActivation. rewrite H. now destruct (key opts). Qed.

Lemma render_activating {Opts : Type}
      (areHookInputsEqual : list JsVal -> list JsVal -> bool) (hook : Hook Opts)
      (o : Opts) (c : Config) :
  activates areHookInputsEqual hook o c = true ->
  exists w0,
    nextHandle w0 = nextHandle (fst c) /\
    liveHandle (snd (snd (renderHook areHookInputsEqual hook o c))) =
    cleanupHandle
      (fst (r_effect (hook o (closureInitialValueCopy (fst c))
                        (option_map hookState (snd c))) w0)).
Proof.
  destruct c as [w [i |]]; unfold activates, renderHook; simpl; intro Ha.
  - apply negb_true_iff in Ha. rewrite Ha.
    exists (runCleanup (effectCleanup i)
              (setInitialValueCopy
                 (r_initialValueCopy
                    (hook o (closureInitialValueCopy w) (Some (hookState i)))) w)).
    split; [now rewrite nextHandle_runCleanup |].
    now destruct (r_effect _ _) as [cl w1].
  - exists (setInitialValueCopy
              (r_initialValueCopy (hook o (closureInitialValueCopy w) None)) w).
    split; [reflexivity |].
    now destruct (r_effect _ _) as [cl w1].
Qed.

(** C7: calling the action-bound hook with [invokeAction] false never
    calls the configured action, over any sequence of renders,
    notifications and unmounts, while every activation still subscribes to
    the configured property; whatever [invokeAction] is, an activation ends
    by subscribing. *)
Theorem invokeAction_false_skips_action_only (o : StateHookOptions) :
  SubscribesWithoutAction o.
Proof.
  intro eq'. split; [| split].
  - intros ss Hss.
    apply (no_action_calls eq' (createStateHook o) (stateActivation o) ss
             (createStateHook_effect o)).
    intros opts n Hin. apply filter_action_stateActivation, actionCalls_gated.
    now apply Hss.
  - intros ss opts Hi. rewrite reached_snoc. unfold step.
    rewrite (render_trace eq' (f_hook (createStateHook o)) (stateActivation o) opts _
               (createStateHook_effect o opts)).
    unfold stateActivation. now rewrite (actionCalls_gated o opts Hi).
  - intros ss opts Ha. rewrite reached_snoc. unfold step. split.
    + rewrite (render_trace eq' (f_hook (createStateHook o)) (stateActivation o) opts _
                 (createStateHook_effect o opts)).
      rewrite Ha. unfold stateActivation. eexists. now rewrite !app_assoc.
    + destruct (render_activating eq' (f_hook (createStateHook o)) opts _ Ha)
        as [w0 [Hn ->]].
      simpl. now rewrite nextHandle_callFn, Hn.
Qed.

(** ** An action that is not a function *)

Lemma actionCalls_not_callable (o : StateHookOptions) (opts : HookOptions) :
  isFunction (action o) = false -> actionCalls o opts = [].
Proof.
  intro H. unfold actionCalls.
  destruct (action o) as [[] | f]; try discriminate;
    now destruct (invokeAction opts) as [[|] |].
Qed.

(** C8: when the configured action is absent or is not a function, the
    factory puts [noop] in its place instead of failing; an activation with
    [invokeAction] true then does exactly what it does with [invokeAction]
    false, and no call of an action is ever recorded. *)
Theorem non_callable_action_replaced_by_noop (o : StateHookOptions) :
  isFunction (action o) = false -> NoopForNonCallable o.
Proof.
  intro H. repeat apply conj.
  - destruct (action o) as [[] | f]; try discriminate; reflexivity.
  - intros args w. destruct (action o) as [[] | f]; try discriminate; reflexivity.
  - intros args w. destruct (action o) as [[] | f]; try discriminate; reflexivity.
  - intros opts cell slot w. simpl.
    destruct (action o) as [[] | f]; try discriminate;
      now destruct (invokeAction opts) as [[|] |].
  - intros opts cell slot w. simpl.
    destruct (action o) as [[] | f]; try discriminate;
      now destruct (invokeAction opts) as [[|] |].
  - intros eq' ss.
    apply (no_action_calls eq' (createStateHook o) (stateActivation o) ss
             (createStateHook_effect o)).
    intros opts n _. now apply filter_action_stateActivation, actionCalls_not_callable.
  - intros eq' ss.
    apply (no_action_calls eq' (createKeyedStateHook o) (keyedActivation o) ss
             (createKeyedStateHook_effect o)).
    intros opts n _. now apply filter_action_keyedActivation, actionCalls_not_callable.
Qed.

(** ** The closure variable *)

Lemma closure_runCleanup (cl : Cleanup) (w : World) :
  closureInitialValueCopy (runCleanup cl w) = closureInitialValueCopy w.
Proof. now destruct cl. Qed.

Lemma closure_callFn (f : JsFun) (args : list JsVal) (w : World) :
  closureInitialValueCopy (callFn f args w) = closureInitialValueCopy w.
Proof. now destruct f. Qed.

Lemma render_cellStep {Opts : Type}
      (areHookInputsEqual : list JsVal -> list JsVal -> bool) (hook : Hook Opts)
      (o : Opts) (c : Config) :
  WellBehaved hook ->
  cellStep (closureInitialValueCopy (fst c))
    (closureInitialValueCopy (fst (snd (renderHook areHookInputsEqual hook o c)))).
Proof.
  intro Hok. destruct c as [w inst]. unfold renderHook. cbn [fst snd].
  set (r := hook o (closureInitialValueCopy w) (option_map hookState inst)).
  assert (Hr : cellStep (closureInitialValueCopy w) (r_initialValueCopy r))
    by apply (wb_cell _ Hok).
  assert (He : forall w0,
             closureInitialValueCopy w0 = r_initialValueCopy r ->
             cellStep (closureInitialValueCopy w)
               (closureInitialValueCopy (snd (r_effect r w0)))).
  { intros w0 Hw0.
    pose proof (wb_effect _ Hok o (closureInitialValueCopy w)
                  (option_map hookState inst) w0) as Hout.
    fold r in Hout. destruct (r_effect r w0) as [cl w1].
    apply effect_cell in Hout. rewrite Hw0 in Hout.
    now apply (cellStep_trans _ (r_initialValueCopy r)). }
  destruct inst as [i |].
  - destruct (areHookInputsEqual _ _); [exact Hr |].
    specialize (He (runCleanup (effectCleanup i)
                      (setInitialValueCopy (r_initialValueCopy r) w))
                   (closure_runCleanup _ _)).
    now destruct (r_effect r _).
  - specialize (He (setInitialValueCopy (r_initialValueCopy r) w) eq_refl).
    now destruct (r_effect r _).
Qed.

Lemma closure_notify (h : nat) (v : JsVal) (c : Config) :
  closureInitialValueCopy (fst (notify h v c)) = closureInitialValueCopy (fst c).
Proof.
  destruct c as [w [i |]]; unfold notify; now destruct (findSubscription h w).
Qed.

Lemma closure_unmount (c : Config) :
  closureInitialValueCopy (fst (unmount c)) = closureInitialValueCopy (fst c).
Proof. destruct c as [w [i |]]; simpl; [apply closure_runCleanup | reflexivity]. Qed.

Lemma slot_formula {Opts : Type}
      (areHookInputsEqual : list JsVal -> list JsVal -> bool) (f : Factory Opts)
      (ss : list (Step Opts)) :
  WellBehaved (f_hook f) ->
  MountNormalizes (f_hook f) ->
  closureInitialValueCopy (fst (reached areHookInputsEqual f ss)) =
    (if existsb isRender ss
     then normalized (f_initialValueCopy f)
     else f_initialValueCopy f) /\
  (existsb isRender ss = false -> snd (reached areHookInputsEqual f ss) = None).
Proof.
  intros Hok Hm. induction ss as [| s ss [IHc IHn]] using rev_ind;
    [split; reflexivity |].
  rewrite reached_snoc, existsb_app. simpl. rewrite orb_false_r.
  destruct s as [o | h v |]; unfold step; simpl isRender.
  - rewrite orb_true_r. split; [| discriminate].
    destruct (existsb isRender ss).
    + pose proof (render_cellStep areHookInputsEqual (f_hook f) o
                    (reached areHookInputsEqual f ss) Hok) as Hs.
      rewrite IHc in Hs. destruct Hs as [-> | ->]; [reflexivity | apply normalized_idem].
    + specialize (IHn eq_refl).
      destruct (reached areHookInputsEqual f ss) as [w inst]. simpl in IHn, IHc.
      subst inst. now rewrite Hm, IHc.
  - rewrite orb_false_r, closure_notify. split; [exact IHc |].
    intro Hn. specialize (IHn Hn).
    destruct (reached areHookInputsEqual f ss) as [w inst]. simpl in IHn. subst inst.
    unfold notify. now destruct (findSubscription h w).
  - rewrite orb_false_r, closure_unmount. split; [exact IHc |].
    intros _. now destruct (reached areHookInputsEqual f ss) as [w [i |]].
Qed.

Lemma fallback_slot_stable {Opts : Type} (f : Factory Opts) :
  WellBehaved (f_hook f) -> MountNormalizes (f_hook f) -> FallbackSlotStable f.
Proof.
  intros Hok Hm eq'. split.
  - intro ss. apply (slot_formula eq' f ss Hok Hm).
  - intros ss ss' Hr.
    rewrite (proj1 (slot_formula eq' f ss Hok Hm)),
            (proj1 (slot_formula eq' f (ss ++ ss') Hok Hm)).
    rewrite existsb_app, Hr. simpl. split; [apply normalized_defined | reflexivity].
Qed.

Lemma createStateHook_mount (o : StateHookOptions) :
  MountNormalizes (f_hook (createStateHook o)).
Proof.
  intros eq' opts w. unfold renderHook. simpl.
  destruct (match invokeAction opts with Some b => b | None => true end);
    simpl; now rewrite ?closure_callFn.
Qed.

Lemma createKeyedStateHook_mount (o : StateHookOptions) :
  MountNormalizes (f_hook (createKeyedStateHook o)).
Proof.
  intros eq' opts w. unfold renderHook, normalized. simpl.
  destruct (isUndefined (closureInitialValueCopy w)) eqn:E, (key opts);
    destruct (match invokeAction opts with Some b => b | None => true end);
    simpl; rewrite ?closure_callFn; simpl; reflexivity.
Qed.

Lemma legacy_scopedStateHook_mount (prop : string) :
  MountNormalizes (Legacy.scopedStateHook prop).
Proof. intros eq' opts w. reflexivity. Qed.

(** C9: the closure variable of a factory is a single cell seeded with the
    initial value; the first call of the hook normalizes it, an unset value
    becoming the no-value marker; from then on, whatever sequence of
    renders, notifications and unmounts follows, it is never unset and never
    changes. *)
Theorem fallback_slot_normalized_once :
  forall (o : StateHookOptions) (prop : string) (iv : JsVal),
    (f_initialValueCopy (createStateHook o) = initialValue o /\
     FallbackSlotStable (createStateHook o)) /\
    (f_initialValueCopy (createKeyedStateHook o) = initialValue o /\
     FallbackSlotStable (createKeyedStateHook o)) /\
    (f_initialValueCopy (Legacy.scopedFactory prop iv) = iv /\
     FallbackSlotStable (Legacy.scopedFactory prop iv)) /\
    normalized VUndefined = VNull /\
    (forall v, v <> VUndefined -> normalized v = v).
Proof.
  intros o prop iv. repeat apply conj; try reflexivity.
  - apply fallback_slot_stable; [apply createStateHook_ok | apply createStateHook_mount].
  - apply fallback_slot_stable;
      [apply createKeyedStateHook_ok | apply createKeyedStateHook_mount].
  - apply (fallback_slot_stable (Legacy.scopedFactory prop iv));
      [apply legacy_scopedStateHook_ok | apply legacy_scopedStateHook_mount].
  - intros v Hv. destruct v; try reflexivity. contradiction.
Qed.

(** ** Never [undefined] *)

Lemma nullSeeded_state {Opts : Type}
      (areHookInputsEqual : list JsVal -> list JsVal -> bool) (f : Factory Opts)
      (ss : list (Step Opts)) :
  WellBehaved (f_hook f) ->
  NullSeeded (f_hook f) ->
  forall i,
    snd (reached areHookInputsEqual f ss) = Some i ->
    StateOrigin VUndefined ss (hookState i).
Proof.
  intros Hok Hn. induction ss as [| s ss IH] using rev_ind; intro i; [discriminate |].
  pose proof (reached_inv areHookInputsEqual f Hok ss) as [Hw _ _].
  rewrite reached_snoc. destruct s as [o | h v |]; unfold step.
  - destruct (render_deps areHookInputsEqual (f_hook f) o
                (reached areHookInputsEqual f ss)) as [w' [i' [E [_ Hst]]]].
    rewrite E. intros [= <-]. rewrite Hst, Hn.
    destruct (reached areHookInputsEqual f ss) as [w [i0 |]]; simpl; [| now left].
    apply stateOrigin_snoc. now apply IH.
  - destruct (reached areHookInputsEqual f ss) as [w [i0 |]]; simpl in *;
      unfold notify; [| destruct (findSubscription h w); discriminate].
    destruct (findSubscription h w) as [s |] eqn:Hfind.
    + intros [= <-]. simpl.
      destruct (cleanupHandle (effectCleanup i0)) as [h' |] eqn:Hcl.
      * destruct (find_live h h' w s Hw Hfind) as [_ Hcb]. rewrite Hcb.
        apply stateOrigin_setState.
      * rewrite (find_none h w Hw) in Hfind. discriminate.
    + intros [= <-]. apply stateOrigin_snoc. now apply IH.
  - now destruct (reached areHookInputsEqual f ss) as [w [i0 |]].
Qed.

(** The state a call of the hook reads has one of the origins of the
    invariant. *)
Lemma read_origin {Opts : Type}
      (areHookInputsEqual : list JsVal -> list JsVal -> bool) (f : Factory Opts)
      (ss : list (Step Opts)) (o : Opts) :
  WellBehaved (f_hook f) ->
  StateOrigin (f_initialValueCopy f) ss
    (r_state (f_hook f o
                (closureInitialValueCopy (fst (reached areHookInputsEqual f ss)))
                (option_map hookState (snd (reached areHookInputsEqual f ss))))).
Proof.
  intro Hok.
  pose proof (reached_inv areHookInputsEqual f Hok ss) as [_ Hc Hs].
  destruct (reached areHookInputsEqual f ss) as [w [i |]]; simpl in *.
  - rewrite (state_mounted f Hok). now apply Hs.
  - destruct (wb_state _ Hok o (closureInitialValueCopy w) None) as [-> | [-> Hd]].
    + now left.
    + right; left.
      pose proof (wb_cell _ Hok o (closureInitialValueCopy w) None) as Hc'.
      now rewrite (cellStep_defined _ _ (cellStep_trans _ _ _ Hc Hc') Hd).
Qed.

(** The shown value of a state with one of these origins. *)
Lemma shown_origin {Opts : Type} (iv : JsVal) (ss : list (Step Opts)) (st : JsVal) :
  StateOrigin iv ss st ->
  (isNil iv = false \/
   forall g prev, Delivered ss (VFunction g) -> callFunction g [prev] <> VUndefined) ->
  shown iv st <> VUndefined /\
  (shown iv st = VNull \/ shown iv st = iv \/ Delivered ss (shown iv st) \/
   (exists g, iv = VFunction g /\ shown iv st = callFunction g []) \/
   (exists g prev, Delivered ss (VFunction g) /\ shown iv st = callFunction g [prev])).
Proof.
  intros Hst Hh. unfold shown.
  destruct (isNil st && negb (isNil iv)) eqn:E.
  - apply andb_prop in E. destruct E as [_ E]. apply negb_true_iff in E.
    split; [| now right; left].
    intro Hu. rewrite Hu in E. discriminate.
  - assert (Hdef : isNil iv = false -> st <> VUndefined).
    { intros Hiv Hu. rewrite Hu, Hiv in E. discriminate. }
    destruct Hst as [-> | [-> | [[H1 H2] | [g [prev [H1 ->]]]]]].
    + split; [discriminate | now left].
    + destruct iv; simpl in *; try (split; [discriminate | auto]).
      split; [now apply Hdef |]. right; right; right; left. now exists ref.
    + split; [assumption | now right; right; left].
    + split; [| right; right; right; right; now exists g, prev].
      destruct Hh as [Hiv | Hfun]; [now apply Hdef | now apply Hfun].
Qed.

Lemma never_undefined_fallback {Opts : Type} (f : Factory Opts) :
  WellBehaved (f_hook f) ->
  FallbackRead (f_hook f) ->
  NeverUndefined f (f_initialValueCopy f).
Proof.
  intros Hok Hr eq' ss opts Hh.
  pose proof (read_origin eq' f ss opts Hok) as Hst.
  pose proof (reached_inv eq' f Hok ss) as [_ Hc _].
  destruct (reached eq' f ss) as [w inst]. simpl in Hc, Hst.
  rewrite (read_state eq' f opts w inst Hr Hc).
  now apply (shown_origin _ ss).
Qed.

Lemma never_undefined_plain {Opts : Type} (f : Factory Opts) :
  WellBehaved (f_hook f) ->
  PlainRead (f_hook f) ->
  NullSeeded (f_hook f) ->
  NeverUndefined f VNull.
Proof.
  intros Hok Hr Hn eq' ss opts Hh.
  pose proof (nullSeeded_state eq' f ss Hok Hn) as Hs.
  destruct (reached eq' f ss) as [w inst]. simpl in Hs.
  rewrite (read_plain eq' f opts w inst Hr).
  destruct inst as [i |]; simpl; [| split; [discriminate | now left]].
  destruct Hh as [Hiv | Hfun]; [discriminate |].
  destruct (Hs i eq_refl) as [-> | [-> | [[H1 H2] | [g [prev [H1 ->]]]]]].
  - split; [discriminate | now left].
  - split; [discriminate | now left].
  - split; [assumption | now right; right; left].
  - split; [now apply Hfun | right; right; right; right; now exists g, prev].
Qed.

Lemma legacy_curriedStateHook_nullSeeded : NullSeeded Legacy.curriedStateHook.
Proof. intros property cell slot. reflexivity. Qed.

Lemma legacy_createKeyedStateHook_nullSeeded (invoke : nat) (parentProp : string) :
  NullSeeded (f_hook (Legacy.createKeyedStateHook invoke parentProp)).
Proof. intros id cell slot. reflexivity. Qed.

Lemma legacy_createWrappedStateHook_nullSeeded (invoke : nat) (prop : string) :
  NullSeeded (f_hook (Legacy.createWrappedStateHook invoke prop)).
Proof. intros param cell slot. reflexivity. Qed.

(** C10, as the code has it: whatever the factory, its configuration and
    the sequence of renders, notifications and unmounts, the hook does not
    return [undefined] when a fallback that is not nil is configured, or
    when no function that was delivered returns [undefined]: it returns the
    no-value marker, the configured fallback, a value that was delivered,
    or what a function returned, the fallback called by [useState] or a
    delivered function called by [setState]. *)
Theorem hook_never_returns_undefined :
  forall (o : StateHookOptions) (prop : string) (iv : JsVal) (invoke : nat),
    NeverUndefined (createStateHook o) (initialValue o) /\
    NeverUndefined (createKeyedStateHook o) (initialValue o) /\
    NeverUndefined (Legacy.scopedFactory prop iv) iv /\
    NeverUndefined (Legacy.curriedFactory iv) VNull /\
    NeverUndefined (Legacy.createKeyedStateHook invoke prop) VNull /\
    NeverUndefined (Legacy.createWrappedStateHook invoke prop) VNull.
Proof.
  intros o prop iv invoke. repeat apply conj.
  - apply (never_undefined_fallback (createStateHook o));
      [apply createStateHook_ok | apply createStateHook_read].
  - apply (never_undefined_fallback (createKeyedStateHook o));
      [apply createKeyedStateHook_ok | apply createKeyedStateHook_read].
  - apply (never_undefined_fallback (Legacy.scopedFactory prop iv));
      [apply legacy_scopedStateHook_ok | apply legacy_scopedStateHook_read].
  - apply (never_undefined_plain (Legacy.curriedFactory iv));
      [apply legacy_curriedStateHook_ok | apply legacy_curriedStateHook_read
       | apply legacy_curriedStateHook_nullSeeded].
  - apply (never_undefined_plain (Legacy.createKeyedStateHook invoke prop));
      [apply legacy_createKeyedStateHook_ok | apply legacy_createKeyedStateHook_read
       | apply legacy_createKeyedStateHook_nullSeeded].
  - apply (never_undefined_plain (Legacy.createWrappedStateHook invoke prop));
      [apply legacy_createWrappedStateHook_ok | apply legacy_createWrappedStateHook_read
       | apply legacy_createWrappedStateHook_nullSeeded].
Qed.

(** ** Scenarios *)

Lemma legacy_createStateHook_cases (prop : string) (iv : JsVal) :
  Legacy.createStateHook (Some prop) iv = inr (Legacy.scopedFactory prop iv) /\
  Legacy.createStateHook None iv = inl (Legacy.curriedFactory iv).
Proof. split; reflexivity. Qed.

(** A cart with the fallback [VObject 1]: the hook returns the fallback,
    then the delivered cart, then the fallback again once the store
    delivers [undefined]. *)
Example scenario_cart :
  read reactInputsEqual (f_hook cartHook) noOptions
    (reached reactInputsEqual cartHook []) = VObject 1 /\
  read reactInputsEqual (f_hook cartHook) noOptions
    (reached reactInputsEqual cartHook [Render noOptions]) = VObject 1 /\
  read reactInputsEqual (f_hook cartHook) noOptions
    (reached reactInputsEqual cartHook [Render noOptions; Notify 0 (VObject 2)]) =
    VObject 2 /\
  read reactInputsEqual (f_hook cartHook) noOptions
    (reached reactInputsEqual cartHook
       [Render noOptions; Notify 0 (VObject 2); Render noOptions; Notify 0 VUndefined]) =
    VObject 1.
Proof. repeat split. Qed.

(** A keyed hook on ["product"]: no call without a key, then one call of
    the action without arguments and one subscription to ["product.sku-1"]. *)
Example scenario_product :
  read reactInputsEqual (f_hook productHook) (withKey None)
    (reached reactInputsEqual productHook []) = VNull /\
  trace (fst (reached reactInputsEqual productHook [Render (withKey None)])) = [] /\
  trace (fst (reached reactInputsEqual productHook
                [Render (withKey None); Render (withKey (Some (KString "sku-1")))])) =
  [EvAction 0 []; EvSubscribe 0 "product.sku-1"].
Proof. repeat split. Qed.

(** * Further properties of the hooks *)

(** ** How a render unfolds *)

Lemma render_cases {Opts : Type}
      (areHookInputsEqual : list JsVal -> list JsVal -> bool) (hook : Hook Opts)
      (o : Opts) (c : Config) :
  (activates areHookInputsEqual hook o c = false /\
   exists i,
     snd c = Some i /\
     snd (renderHook areHookInputsEqual hook o c) =
     (setInitialValueCopy
        (r_initialValueCopy
           (hook o (closureInitialValueCopy (fst c)) (option_map hookState (snd c))))
        (fst c),
      Some (mkInstance
              (r_state (hook o (closureInitialValueCopy (fst c))
                          (option_map hookState (snd c))))
              (r_deps (hook o (closureInitialValueCopy (fst c))
                         (option_map hookState (snd c))))
              (effectCleanup i)))) \/
  (activates areHookInputsEqual hook o c = true /\
   snd (renderHook areHookInputsEqual hook o c) =
   (let (cleanup, w1) :=
      r_effect (hook o (closureInitialValueCopy (fst c)) (option_map hookState (snd c)))
        (runCleanup (heldCleanup (snd c))
           (setInitialValueCopy
              (r_initialValueCopy
                 (hook o (closureInitialValueCopy (fst c))
                    (option_map hookState (snd c))))
              (fst c))) in
    (w1,
     Some (mkInstance
             (r_state (hook o (closureInitialValueCopy (fst c))
                         (option_map hookState (snd c))))
             (r_deps (hook o (closureInitialValueCopy (fst c))
                        (option_map hookState (snd c))))
             cleanup)))).
Proof.
  destruct c as [w [i |]]; unfold activates, renderHook; cbn [fst snd option_map heldCleanup].
  - destruct (areHookInputsEqual _ _).
    + left. split; [reflexivity |]. exists i. split; reflexivity.
    + right. split; [reflexivity |]. now destruct (r_effect _ _).
  - right. split; [reflexivity |]. now destruct (r_effect _ _).
Qed.

Lemma subscriptions_after_cleanup (c : Config) (v : JsVal) :
  WorldInv (fst c) (liveHandle (snd c)) ->
  subscriptions (runCleanup (heldCleanup (snd c)) (setInitialValueCopy v (fst c))) = [] /\
  nextHandle (runCleanup (heldCleanup (snd c)) (setInitialValueCopy v (fst c))) =
    nextHandle (fst c).
Proof.
  intro Hw. split; [| now rewrite nextHandle_runCleanup].
  destruct c as [w [i |]]; cbn [fst snd heldCleanup liveHandle] in *.
  - apply (worldInv_cell v), worldInv_cleanup in Hw. exact (wi_store _ _ Hw).
  - exact (wi_store _ _ Hw).
Qed.

(** The instance an effect leaves behind when it runs in a world without
    subscriptions. *)
Lemma effect_holds {Opts : Type} (H : Hook Opts) (path : Opts -> option string)
      (o : Opts) (cell st : JsVal) (slot : option JsVal) (w : World) :
  SubscribesTo H path ->
  subscriptions w = [] ->
  exists cl w1,
    r_effect (H o cell slot) w = (cl, w1) /\
    nextHandle w1 = match path o with Some _ => S (nextHandle w) | None => nextHandle w end /\
    match path o with
    | Some p => HoldsPath p (w1, Some (mkInstance st (r_deps (H o cell slot)) cl))
    | None => cl = CleanupNoop /\ subscriptions w1 = []
    end.
Proof.
  intros Hsub Hs. specialize (Hsub o cell slot w).
  destruct (r_effect (H o cell slot) w) as [cl w1]. exists cl, w1.
  split; [reflexivity |]. cbn [fst snd] in Hsub.
  destruct (path o) as [p |].
  - destruct Hsub as [cb [H1 [H2 H3]]]. split; [exact H2 |].
    exists (nextHandle w), cb. cbn. rewrite H1, H2, H3, Hs. now repeat split.
  - destruct Hsub as [H1 [H2 H3]]. split; [exact H2 |]. split; [exact H1 |].
    now rewrite H3.
Qed.

Lemma holdsPath_cell (p : string) (v : JsVal) (w : World) (i i' : Instance) :
  effectCleanup i' = effectCleanup i ->
  HoldsPath p (w, Some i) ->
  HoldsPath p (setInitialValueCopy v w, Some i').
Proof.
  intros Hc [h [cb [H1 [H2 H3]]]]. exists h, cb. cbn in *. rewrite Hc. now repeat split.
Qed.

(** ** Hooks that subscribe to one path *)

Section FixedPath.

Variable areHookInputsEqual : list JsVal -> list JsVal -> bool.
Context {Opts : Type}.
Variable f : Factory Opts.
Variable p : string.
Hypothesis hook_ok : WellBehaved (f_hook f).
Hypothesis hook_path : SubscribesTo (f_hook f) (fun _ => Some p).

Lemma mounted_holds_path (ss : list (Step Opts)) :
  snd (reached areHookInputsEqual f ss) <> None ->
  HoldsPath p (reached areHookInputsEqual f ss).
Proof.
  induction ss as [| s ss IH] using rev_ind; [intro H; now contradiction H |].
  pose proof (reached_inv areHookInputsEqual f hook_ok ss) as [Hw _ _].
  rewrite reached_snoc. destruct s as [o | h v |]; unfold step.
  - intros _.
    destruct (render_cases areHookInputsEqual (f_hook f) o
                (reached areHookInputsEqual f ss)) as [[_ [i [Hi ->]]] | [_ ->]].
    + destruct (reached areHookInputsEqual f ss) as [w inst]. cbn [fst snd] in *.
      subst inst. apply (holdsPath_cell p _ w i); [reflexivity |].
      apply IH. discriminate.
    + destruct (subscriptions_after_cleanup (reached areHookInputsEqual f ss)
                  (r_initialValueCopy
                     (f_hook f o
                        (closureInitialValueCopy (fst (reached areHookInputsEqual f ss)))
                        (option_map hookState (snd (reached areHookInputsEqual f ss)))))
                  Hw) as [Hs _].
      destruct (effect_holds (f_hook f) (fun _ => Some p) o
                  (closureInitialValueCopy (fst (reached areHookInputsEqual f ss)))
                  (r_state
                     (f_hook f o
                        (closureInitialValueCopy (fst (reached areHookInputsEqual f ss)))
                        (option_map hookState (snd (reached areHookInputsEqual f ss)))))
                  (option_map hookState (snd (reached areHookInputsEqual f ss)))
                  _ hook_path Hs) as [cl [w1 [-> [_ Hh]]]].
      exact Hh.
  - destruct (reached areHookInputsEqual f ss) as [w [i |]]; unfold notify.
    + intros _. specialize (IH ltac:(discriminate)).
      destruct (findSubscription h w); [| exact IH].
      destruct IH as [h' [cb [H1 [H2 H3]]]]. exists h', cb. now repeat split.
    + destruct (findSubscription h w); intro H; now contradiction H.
  - destruct (reached areHookInputsEqual f ss) as [w [i |]]; intro H; now contradiction H.
Qed.

End FixedPath.

(** ** Hooks driven by their first dependency, under React's comparison *)

Lemma reactInputsEqual_head (a b : JsVal) (l l' : list JsVal) :
  reactInputsEqual (a :: l) (b :: l') = true -> a = b.
Proof.
  simpl. intro H. apply andb_prop in H. now apply objectIs_eq.
Qed.

Lemma reactInputsEqual_head_neq (a b : JsVal) (l l' : list JsVal) :
  a <> b -> reactInputsEqual (a :: l) (b :: l') = false.
Proof.
  intro Hne. destruct (reactInputsEqual (a :: l) (b :: l')) eqn:E; [| reflexivity].
  apply reactInputsEqual_head in E. contradiction.
Qed.

Section HeadDep.

Context {Opts : Type}.
Variable f : Factory Opts.
Variable d : Opts -> JsVal.
Variable path : Opts -> option string.
Hypothesis hook_ok : WellBehaved (f_hook f).
Hypothesis head : HeadDriven (f_hook f) d path.

Lemma headInv_reached (ss : list (Step Opts)) :
  HeadInv d path (reached reactInputsEqual f ss).
Proof.
  destruct head as [Hd [Hp Hsub]].
  induction ss as [| s ss IH] using rev_ind; [exact I |].
  pose proof (reached_inv reactInputsEqual f hook_ok ss) as [Hw _ _].
  rewrite reached_snoc. destruct s as [o | h v |]; unfold step.
  - destruct (render_cases reactInputsEqual (f_hook f) o
                (reached reactInputsEqual f ss)) as [[Ha [i [Hi ->]]] | [_ ->]].
    + destruct (reached reactInputsEqual f ss) as [w inst]. cbn [fst snd] in *.
      subst inst. unfold HeadInv in *. cbn [fst snd] in *.
      destruct IH as [o' [rest' [Hd' Hc]]].
      destruct (Hd o (closureInitialValueCopy w) (option_map hookState (Some i)))
        as [rest Hr].
      unfold activates in Ha. cbn [fst snd] in Ha. apply negb_false_iff in Ha.
      cbn [option_map] in Hr. rewrite Hr, Hd' in Ha.
      apply reactInputsEqual_head in Ha.
      exists o, rest. split; [exact Hr |]. rewrite (Hp o o' Ha).
      destruct (path o') as [q |]; [| exact Hc].
      now apply (holdsPath_cell q _ w i).
    + destruct (subscriptions_after_cleanup (reached reactInputsEqual f ss)
                  (r_initialValueCopy
                     (f_hook f o
                        (closureInitialValueCopy (fst (reached reactInputsEqual f ss)))
                        (option_map hookState (snd (reached reactInputsEqual f ss)))))
                  Hw) as [Hs _].
      destruct (effect_holds (f_hook f) path o
                  (closureInitialValueCopy (fst (reached reactInputsEqual f ss)))
                  (r_state
                     (f_hook f o
                        (closureInitialValueCopy (fst (reached reactInputsEqual f ss)))
                        (option_map hookState (snd (reached reactInputsEqual f ss)))))
                  (option_map hookState (snd (reached reactInputsEqual f ss)))
                  _ Hsub Hs) as [cl [w1 [-> [_ Hh]]]].
      unfold HeadInv. cbn [fst snd effectDeps effectCleanup].
      destruct (Hd o (closureInitialValueCopy (fst (reached reactInputsEqual f ss)))
                  (option_map hookState (snd (reached reactInputsEqual f ss))))
        as [rest Hr].
      exists o, rest. split; [exact Hr |].
      destruct (path o); [exact Hh | exact (proj1 Hh)].
  - destruct (reached reactInputsEqual f ss) as [w [i |]]; unfold notify;
      destruct (findSubscription h w); exact IH.
  - now destruct (reached reactInputsEqual f ss) as [w [i |]].
Qed.

(** The instance right after a call with [o]. *)
Lemma head_after_render (ss : list (Step Opts)) (o : Opts) :
  exists w i,
    reached reactInputsEqual f (ss ++ [Render o]) = (w, Some i) /\
    (exists rest, effectDeps i = d o :: rest) /\
    match path o with
    | None => liveHandle (Some i) = None /\ subscriptions w = []
    | Some q => HoldsPath q (w, Some i)
    end.
Proof.
  pose proof (headInv_reached (ss ++ [Render o])) as Hk.
  pose proof (reached_inv reactInputsEqual f hook_ok (ss ++ [Render o])) as [Hw _ _].
  destruct head as [Hd [Hp _]].
  rewrite reached_snoc in *. unfold step in *.
  destruct (render_deps reactInputsEqual (f_hook f) o (reached reactInputsEqual f ss))
    as [w [i [E [Hdeps _]]]].
  rewrite E in *. exists w, i. split; [reflexivity |].
  destruct (Hd o (closureInitialValueCopy (fst (reached reactInputsEqual f ss)))
              (option_map hookState (snd (reached reactInputsEqual f ss))))
    as [rest Hr].
  rewrite Hr in Hdeps. split; [eauto |].
  unfold HeadInv in Hk. cbn [fst snd] in Hk, Hw.
  destruct Hk as [o' [rest' [Hd' Hc]]].
  rewrite Hdeps in Hd'. injection Hd' as Hkey _.
  rewrite (Hp o o' Hkey).
  destruct (path o'); [exact Hc |].
  assert (Hl : liveHandle (Some i) = None) by (cbn; now rewrite Hc).
  split; [exact Hl |]. rewrite Hl in Hw. exact (wi_store _ _ Hw).
Qed.

Lemma head_change_activates (ss : list (Step Opts)) (o1 o2 : Opts) :
  d o1 <> d o2 ->
  activates reactInputsEqual (f_hook f) o2
    (reached reactInputsEqual f (ss ++ [Render o1])) = true.
Proof.
  intro Hne. destruct (head_after_render ss o1) as [w [i [-> [[rest Hr] _]]]].
  destruct head as [Hd _].
  unfold activates. cbn [fst snd]. rewrite Hr.
  destruct (Hd o2 (closureInitialValueCopy w) (Some (hookState i))) as [rest2 ->].
  rewrite reactInputsEqual_head_neq; [reflexivity | congruence].
Qed.

(** The calls a change of the first dependency adds. *)
Lemma head_change_trace (events : Opts -> nat -> list Event)
      (ss : list (Step Opts)) (o1 o2 : Opts) :
  (forall o cell slot w,
      trace (snd (r_effect (f_hook f o cell slot) w)) =
      trace w ++ events o (nextHandle w)) ->
  d o1 <> d o2 ->
  trace (fst (reached reactInputsEqual f (ss ++ [Render o1; Render o2]))) =
  trace (fst (reached reactInputsEqual f (ss ++ [Render o1]))) ++
  cleanupEvents (liveHandle (snd (reached reactInputsEqual f (ss ++ [Render o1])))) ++
  events o2 (nextHandle (fst (reached reactInputsEqual f (ss ++ [Render o1])))).
Proof.
  intros Hev Hne.
  change [Render o1; Render o2] with ([Render o1] ++ [Render o2]).
  rewrite app_assoc, reached_snoc. unfold step.
  rewrite (render_trace reactInputsEqual (f_hook f) events o2 _ (Hev o2)).
  now rewrite (head_change_activates ss o1 o2 Hne).
Qed.

End HeadDep.

(** ** Where each hook subscribes *)

Lemma createStateHook_subscribesTo (o : StateHookOptions) :
  SubscribesTo (f_hook (createStateHook o)) (fun _ => Some (property o)).
Proof.
  intros opts cell slot w. eexists. simpl. rewrite nextHandle_callFn.
  destruct (match invokeAction opts with Some b => b | None => true end);
    [destruct (actionFn (action o)) |]; simpl; repeat split.
Qed.

Lemma createKeyedStateHook_subscribesTo (o : StateHookOptions) :
  SubscribesTo (f_hook (createKeyedStateHook o))
    (fun opts : KeyedHookOptions => keyedPath (property o) (key opts)).
Proof.
  intros opts cell slot w. unfold keyedPath.
  destruct (key opts) as [k |] eqn:Hk.
  - apply (keyed_effect_key o opts k cell slot w Hk).
  - apply (keyed_effect_nokey o opts cell slot w Hk).
Qed.

Lemma legacy_scopedStateHook_subscribesTo (prop : string) :
  SubscribesTo (Legacy.scopedStateHook prop) (fun _ => Some prop).
Proof. intros opts cell slot w. eexists. simpl. repeat split. Qed.

Lemma legacy_curriedStateHook_subscribesTo :
  SubscribesTo Legacy.curriedStateHook (fun property => Some property).
Proof. intros property cell slot w. eexists. simpl. repeat split. Qed.

Lemma legacy_createKeyedStateHook_subscribesTo (invoke : nat) (parentProp : string) :
  SubscribesTo (f_hook (Legacy.createKeyedStateHook invoke parentProp))
    (keyedPath parentProp).
Proof.
  intros [k |] cell slot w; simpl; [eexists |]; repeat split.
Qed.

Lemma legacy_createWrappedStateHook_subscribesTo (invoke : nat) (prop : string) :
  SubscribesTo (f_hook (Legacy.createWrappedStateHook invoke prop)) (fun _ => Some prop).
Proof. intros param cell slot w. eexists. simpl. repeat split. Qed.

Lemma keyedPath_keyVal (prop : string) (k k' : option Key) :
  keyVal k = keyVal k' -> keyedPath prop k = keyedPath prop k'.
Proof. intro H. now rewrite (keyVal_inj k k' H). Qed.

Lemma createKeyedStateHook_headDriven (o : StateHookOptions) :
  HeadDriven (f_hook (createKeyedStateHook o))
    (fun opts : KeyedHookOptions => keyVal (key opts))
    (fun opts : KeyedHookOptions => keyedPath (property o) (key opts)).
Proof.
  split; [| split].
  - intros opts cell slot. simpl. eauto.
  - intros opts opts'. apply keyedPath_keyVal.
  - apply createKeyedStateHook_subscribesTo.
Qed.

Lemma legacy_createKeyedStateHook_headDriven (invoke : nat) (parentProp : string) :
  HeadDriven (f_hook (Legacy.createKeyedStateHook invoke parentProp))
    keyVal (keyedPath parentProp).
Proof.
  split; [| split].
  - intros id cell slot. simpl. eauto.
  - intros id id'. apply keyedPath_keyVal.
  - apply legacy_createKeyedStateHook_subscribesTo.
Qed.

Lemma legacy_createWrappedStateHook_headDriven (invoke : nat) (prop : string) :
  HeadDriven (f_hook (Legacy.createWrappedStateHook invoke prop))
    keyVal (fun _ => Some prop).
Proof.
  split; [| split].
  - intros param cell slot. simpl. eauto.
  - reflexivity.
  - apply legacy_createWrappedStateHook_subscribesTo.
Qed.

Lemma legacy_createKeyedStateHook_effect (invoke : nat) (parentProp : string)
      (id : option Key) (cell : JsVal) (slot : option JsVal) (w : World) :
  trace (snd (r_effect (f_hook (Legacy.createKeyedStateHook invoke parentProp)
                          id cell slot) w)) =
  trace w ++ legacyKeyedActivation invoke parentProp id (nextHandle w).
Proof.
  destruct id as [k |]; simpl; [now rewrite <- app_assoc | now rewrite app_nil_r].
Qed.

Lemma legacy_createWrappedStateHook_effect (invoke : nat) (prop : string)
      (param : option Key) (cell : JsVal) (slot : option JsVal) (w : World) :
  trace (snd (r_effect (f_hook (Legacy.createWrappedStateHook invoke prop)
                          param cell slot) w)) =
  trace w ++ wrappedActivation invoke prop param (nextHandle w).
Proof. simpl. now rewrite <- app_assoc. Qed.

Lemma legacy_scopedStateHook_effect (prop : string) (o : unit)
      (cell : JsVal) (slot : option JsVal) (w : World) :
  trace (snd (r_effect (Legacy.scopedStateHook prop o cell slot) w)) =
  trace w ++ [EvSubscribe (nextHandle w) prop].
Proof. reflexivity. Qed.

Lemma legacy_curriedStateHook_effect (property : string)
      (cell : JsVal) (slot : option JsVal) (w : World) :
  trace (snd (r_effect (Legacy.curriedStateHook property cell slot) w)) =
  trace w ++ [EvSubscribe (nextHandle w) property].
Proof. reflexivity. Qed.

(** ** The earlier hooks keep the handle discipline *)

(** The plain hook (scoped and curried), the earlier keyed hook and the
    wrapped hook never hold two handles at once, release only the handle
    they hold, and release every handle exactly once, at the latest on
    unmount. *)
Theorem earlier_hooks_release_exactly_once :
  forall (prop : string) (iv : JsVal) (invoke : nat),
    OneHandleAtATime (Legacy.scopedFactory prop iv) /\
    OneHandleAtATime (Legacy.curriedFactory iv) /\
    OneHandleAtATime (Legacy.createKeyedStateHook invoke prop) /\
    OneHandleAtATime (Legacy.createWrappedStateHook invoke prop).
Proof.
  intros prop iv invoke. repeat apply conj.
  - apply (one_handle_at_a_time (Legacy.scopedFactory prop iv)),
      legacy_scopedStateHook_ok.
  - apply (one_handle_at_a_time (Legacy.curriedFactory iv)),
      legacy_curriedStateHook_ok.
  - apply one_handle_at_a_time, legacy_createKeyedStateHook_ok.
  - apply one_handle_at_a_time, legacy_createWrappedStateHook_ok.
Qed.

(** ** Mounted means subscribed *)

Lemma holdsPath_subscribed (p : string) (c : Config) :
  HoldsPath p c -> SubscribedTo p c.
Proof.
  intros [h [cb [H1 [_ H3]]]]. exists h, cb. split; [exact H1 |].
  rewrite H3. now left.
Qed.

(** Whenever an instance of the action-bound hook, of the scoped plain
    hook or of the wrapped hook is mounted, it holds a handle, and the
    store has that handle registered under the configured property: these
    hooks have no idle state, whatever their options. *)
Theorem mounted_hook_is_subscribed :
  forall areHookInputsEqual (o : StateHookOptions) (prop : string) (iv : JsVal)
         (invoke : nat),
    (forall ss,
        snd (reached areHookInputsEqual (createStateHook o) ss) <> None ->
        SubscribedTo (property o) (reached areHookInputsEqual (createStateHook o) ss)) /\
    (forall ss,
        snd (reached areHookInputsEqual (Legacy.scopedFactory prop iv) ss) <> None ->
        SubscribedTo prop (reached areHookInputsEqual (Legacy.scopedFactory prop iv) ss)) /\
    (forall ss,
        snd (reached areHookInputsEqual (Legacy.createWrappedStateHook invoke prop) ss)
          <> None ->
        SubscribedTo prop
          (reached areHookInputsEqual (Legacy.createWrappedStateHook invoke prop) ss)).
Proof.
  intros eq' o prop iv invoke. repeat apply conj; intros ss Hm;
    apply holdsPath_subscribed.
  - apply mounted_holds_path;
      [apply createStateHook_ok | apply createStateHook_subscribesTo | exact Hm].
  - apply (mounted_holds_path eq' (Legacy.scopedFactory prop iv));
      [apply legacy_scopedStateHook_ok | apply legacy_scopedStateHook_subscribesTo
       | exact Hm].
  - apply mounted_holds_path;
      [apply legacy_createWrappedStateHook_ok
      | apply legacy_createWrappedStateHook_subscribesTo | exact Hm].
Qed.

(** ** Calls that have nothing to subscribe to *)

Section Idle.

Variable areHookInputsEqual : list JsVal -> list JsVal -> bool.
Context {Opts : Type}.
Variable f : Factory Opts.
Variable events : Opts -> nat -> list Event.
Hypothesis hook_ok : WellBehaved (f_hook f).
Hypothesis hook_events : forall o cell slot w,
    trace (snd (r_effect (f_hook f o cell slot) w)) = trace w ++ events o (nextHandle w).

Lemma idle_run (ss : list (Step Opts)) (c : Config) :
  (forall o n, In (Render o) ss -> events o n = []) ->
  filter isSubscribeOrAction (trace (fst (run areHookInputsEqual (f_hook f) ss c))) =
  filter isSubscribeOrAction (trace (fst c)).
Proof.
  revert c. induction ss as [| s ss IH]; intros c Hss; [reflexivity |].
  change (run areHookInputsEqual (f_hook f) (s :: ss) c)
    with (run areHookInputsEqual (f_hook f) ss (step areHookInputsEqual (f_hook f) s c)).
  rewrite IH by (intros o n Hin; apply Hss; now right).
  destruct s as [o | h v |]; unfold step.
  - rewrite (render_trace areHookInputsEqual (f_hook f) events o c (hook_events o)).
    rewrite (Hss o (nextHandle (fst c)) (or_introl eq_refl)), app_nil_r.
    destruct (activates _ _ _ _); [| now rewrite app_nil_r].
    rewrite filter_app, filter_cleanupEvents by reflexivity. apply app_nil_r.
  - now rewrite trace_notify.
  - rewrite trace_unmount, filter_app, filter_cleanupEvents by reflexivity.
    apply app_nil_r.
Qed.

Lemma idle_calls_nothing (ss : list (Step Opts)) :
  (forall o n, In (Render o) ss -> events o n = []) ->
  trace (fst (reached areHookInputsEqual f ss)) = [] /\
  subscriptions (fst (reached areHookInputsEqual f ss)) = [].
Proof.
  intro Hss.
  pose proof (reached_inv areHookInputsEqual f hook_ok ss) as [[Hp Hs _ _] _ _].
  pose proof (idle_run ss (start f) Hss) as Hf.
  fold (reached areHookInputsEqual f ss) in Hf. simpl in Hf.
  assert (Ht := replay_only_unsubscribes _ _ Hf Hp).
  split; [exact Ht |].
  rewrite Ht in Hp. simpl in Hp. injection Hp as Hl. rewrite <- Hl in Hs. exact Hs.
Qed.

Lemma idle_state (ss : list (Step Opts)) :
  NullSeeded (f_hook f) ->
  (forall o n, In (Render o) ss -> events o n = []) ->
  forall i, snd (reached areHookInputsEqual f ss) = Some i -> hookState i = VNull.
Proof.
  intro Hn. induction ss as [| s ss IH] using rev_ind; intros Hss i; [discriminate |].
  assert (Hpre : forall o n, In (Render o) ss -> events o n = [])
    by (intros o n Hin; apply Hss, in_app_iff; now left).
  specialize (IH Hpre).
  destruct (idle_calls_nothing ss Hpre) as [_ Hsubs].
  rewrite reached_snoc. destruct s as [o | h v |]; unfold step.
  - destruct (render_deps areHookInputsEqual (f_hook f) o
                (reached areHookInputsEqual f ss)) as [w' [i' [E [_ Hst]]]].
    rewrite E. intros [= <-]. rewrite Hst, Hn.
    destruct (reached areHookInputsEqual f ss) as [w [i0 |]];
      simpl; [now apply IH | reflexivity].
  - destruct (reached areHookInputsEqual f ss) as [w inst].
    unfold notify, findSubscription. simpl in Hsubs. rewrite Hsubs. simpl.
    destruct inst; exact (IH i).
  - destruct (reached areHookInputsEqual f ss) as [w [i0 |]]; discriminate.
Qed.

End Idle.

(** ** The key of the keyed hook goes away *)

(** When the keyed hook is called without a key after a call with the key
    [k1], the handle subscribed to [property.k1] is released and nothing
    else is called: the action is not invoked, nothing is subscribed, and
    the instance holds no handle any more. *)
Theorem keyed_key_removed_tears_down :
  forall (o : StateHookOptions) ss (opts1 opts2 : KeyedHookOptions) k1,
    key opts1 = Some k1 -> key opts2 = None ->
    exists h,
      HoldsPath (property o ++ "." ++ keyString k1)%string
        (reached reactInputsEqual (createKeyedStateHook o) (ss ++ [Render opts1])) /\
      liveHandle (snd (reached reactInputsEqual (createKeyedStateHook o)
                         (ss ++ [Render opts1]))) = Some h /\
      trace (fst (reached reactInputsEqual (createKeyedStateHook o)
                    (ss ++ [Render opts1; Render opts2]))) =
      trace (fst (reached reactInputsEqual (createKeyedStateHook o)
                    (ss ++ [Render opts1]))) ++ [EvUnsubscribe h] /\
      subscriptions (fst (reached reactInputsEqual (createKeyedStateHook o)
                            (ss ++ [Render opts1; Render opts2]))) = [] /\
      liveHandle (snd (reached reactInputsEqual (createKeyedStateHook o)
                         (ss ++ [Render opts1; Render opts2]))) = None.
Proof.
  intros o ss opts1 opts2 k1 H1 H2.
  pose proof (head_change_trace (createKeyedStateHook o) _ _
                (createKeyedStateHook_ok o) (createKeyedStateHook_headDriven o)
                (keyedActivation o) ss opts1 opts2
                (createKeyedStateHook_effect o)) as Ht.
  cbv beta in Ht. rewrite H1, H2 in Ht. specialize (Ht ltac:(now destruct k1)).
  destruct (head_after_render (createKeyedStateHook o) _ _
              (createKeyedStateHook_ok o) (createKeyedStateHook_headDriven o)
              ss opts1) as [w1 [i1 [E1 [_ Hh1]]]].
  destruct (head_after_render (createKeyedStateHook o) _ _
              (createKeyedStateHook_ok o) (createKeyedStateHook_headDriven o)
              (ss ++ [Render opts1]) opts2) as [w2 [i2 [E2 [_ Hh2]]]].
  cbv beta in Hh1, Hh2. rewrite H1 in Hh1. rewrite H2 in Hh2.
  rewrite <- app_assoc in E2. simpl in E2. simpl keyedPath in Hh1, Hh2.
  rewrite E1, E2 in *. destruct Hh1 as [h [cb [Hl [Hn Hs]]]].
  exists h. cbn [fst snd] in *. rewrite Hl in Ht.
  unfold keyedActivation in Ht. rewrite H2, app_nil_r in Ht.
  repeat split; try assumption; try apply Hh2.
  exists h, cb. now repeat split.
Qed.

(** ** The earlier keyed hook *)

(** The earlier keyed hook, [createKeyedStateHook(actor, invoke,
    parentProp)]: called without an id it never calls [invoke] nor
    subscribes, and as long as it was never given one nothing is called at
    all and it returns the no-value marker; when the id changes from [k1]
    to [k2] it releases the handle of [parentProp.k1], calls [invoke(k2)]
    and subscribes to [parentProp.k2], in that order; when the id goes away
    it only releases the handle. *)
Theorem earlier_keyed_hook_follows_its_id :
  forall (invoke : nat) (parentProp : string),
    (forall areHookInputsEqual c ss,
        (forall id, In (Render id) ss -> id = None) ->
        filter isSubscribeOrAction
          (trace (fst (run areHookInputsEqual
                         (f_hook (Legacy.createKeyedStateHook invoke parentProp)) ss c))) =
        filter isSubscribeOrAction (trace (fst c))) /\
    (forall areHookInputsEqual ss id,
        (forall id', In (Render id') ss -> id' = None) ->
        trace (fst (reached areHookInputsEqual
                      (Legacy.createKeyedStateHook invoke parentProp) ss)) = [] /\
        read areHookInputsEqual (f_hook (Legacy.createKeyedStateHook invoke parentProp)) id
          (reached areHookInputsEqual
             (Legacy.createKeyedStateHook invoke parentProp) ss) = VNull) /\
    (forall ss k1 k2,
        k1 <> k2 ->
        exists h,
          HoldsPath (parentProp ++ "." ++ keyString k1)%string
            (reached reactInputsEqual (Legacy.createKeyedStateHook invoke parentProp)
               (ss ++ [Render (Some k1)])) /\
          liveHandle (snd (reached reactInputsEqual
                             (Legacy.createKeyedStateHook invoke parentProp)
                             (ss ++ [Render (Some k1)]))) = Some h /\
          trace (fst (reached reactInputsEqual
                        (Legacy.createKeyedStateHook invoke parentProp)
                        (ss ++ [Render (Some k1); Render (Some k2)]))) =
          trace (fst (reached reactInputsEqual
                        (Legacy.createKeyedStateHook invoke parentProp)
                        (ss ++ [Render (Some k1)]))) ++
          [EvUnsubscribe h; EvAction invoke [keyVal (Some k2)];
           EvSubscribe (S h) (parentProp ++ "." ++ keyString k2)%string]) /\
    (forall ss k1,
        exists h,
          liveHandle (snd (reached reactInputsEqual
                             (Legacy.createKeyedStateHook invoke parentProp)
                             (ss ++ [Render (Some k1)]))) = Some h /\
          trace (fst (reached reactInputsEqual
                        (Legacy.createKeyedStateHook invoke parentProp)
                        (ss ++ [Render (Some k1); Render None]))) =
          trace (fst (reached reactInputsEqual
                        (Legacy.createKeyedStateHook invoke parentProp)
                        (ss ++ [Render (Some k1)]))) ++ [EvUnsubscribe h] /\
          subscriptions (fst (reached reactInputsEqual
                                (Legacy.createKeyedStateHook invoke parentProp)
                                (ss ++ [Render (Some k1); Render None]))) = []).
Proof.
  intros invoke parentProp.
  assert (Hidle : forall ss : list (Step (option Key)),
             (forall id, In (Render id) ss -> id = None) ->
             forall id n, In (Render id) ss ->
                          legacyKeyedActivation invoke parentProp id n = [])
    by (intros ss Hss id n Hin; now rewrite (Hss id Hin)).
  assert (Hafter : forall ss k1,
             exists h cb w i,
               reached reactInputsEqual (Legacy.createKeyedStateHook invoke parentProp)
                 (ss ++ [Render (Some k1)]) = (w, Some i) /\
               liveHandle (Some i) = Some h /\ nextHandle w = S h /\
               subscriptions w =
                 [mkSubscription h (parentProp ++ "." ++ keyString k1)%string cb]).
  { intros ss k1.
    destruct (head_after_render (Legacy.createKeyedStateHook invoke parentProp) _ _
                (legacy_createKeyedStateHook_ok invoke parentProp)
                (legacy_createKeyedStateHook_headDriven invoke parentProp)
                ss (Some k1)) as [w [i [E [_ [h [cb [Hl [Hn Hs]]]]]]]].
    exists h, cb, w, i. now repeat split. }
  repeat apply conj.
  - intros eq' c ss Hss.
    apply (idle_run eq' (Legacy.createKeyedStateHook invoke parentProp)
             (legacyKeyedActivation invoke parentProp)
             (legacy_createKeyedStateHook_effect invoke parentProp)).
    now apply Hidle.
  - intros eq' ss id Hss.
    destruct (idle_calls_nothing eq' (Legacy.createKeyedStateHook invoke parentProp)
                (legacyKeyedActivation invoke parentProp)
                (legacy_createKeyedStateHook_ok invoke parentProp)
                (legacy_createKeyedStateHook_effect invoke parentProp)
                ss (Hidle ss Hss)) as [Ht _].
    split; [exact Ht |].
    pose proof (idle_state eq' (Legacy.createKeyedStateHook invoke parentProp)
                  (legacyKeyedActivation invoke parentProp)
                  (legacy_createKeyedStateHook_ok invoke parentProp)
                  (legacy_createKeyedStateHook_effect invoke parentProp)
                  ss (legacy_createKeyedStateHook_nullSeeded invoke parentProp)
                  (Hidle ss Hss)) as Hst.
    destruct (reached eq' (Legacy.createKeyedStateHook invoke parentProp) ss)
      as [w inst].
    rewrite (read_plain eq' (Legacy.createKeyedStateHook invoke parentProp) id w inst
               (legacy_createKeyedStateHook_read invoke parentProp)).
    destruct inst as [i |]; simpl; [now apply Hst | reflexivity].
  - intros ss k1 k2 Hne.
    pose proof (head_change_trace (Legacy.createKeyedStateHook invoke parentProp) _ _
                  (legacy_createKeyedStateHook_ok invoke parentProp)
                  (legacy_createKeyedStateHook_headDriven invoke parentProp)
                  (legacyKeyedActivation invoke parentProp) ss (Some k1) (Some k2)
                  (legacy_createKeyedStateHook_effect invoke parentProp)) as Ht.
    specialize (Ht ltac:(intro E; apply keyVal_inj in E; congruence)).
    destruct (Hafter ss k1) as [h [cb [w [i [E [Hl [Hn Hs]]]]]]].
    rewrite E in *. cbn [fst snd] in *. rewrite Hl, Hn in Ht.
    exists h. repeat split; try assumption.
    exists h, cb. now repeat split.
  - intros ss k1.
    pose proof (head_change_trace (Legacy.createKeyedStateHook invoke parentProp) _ _
                  (legacy_createKeyedStateHook_ok invoke parentProp)
                  (legacy_createKeyedStateHook_headDriven invoke parentProp)
                  (legacyKeyedActivation invoke parentProp) ss (Some k1) None
                  (legacy_createKeyedStateHook_effect invoke parentProp)) as Ht.
    specialize (Ht ltac:(now destruct k1)).
    destruct (Hafter ss k1) as [h [cb [w [i [E [Hl [Hn Hs]]]]]]].
    destruct (head_after_render (Legacy.createKeyedStateHook invoke parentProp) _ _
                (legacy_createKeyedStateHook_ok invoke parentProp)
                (legacy_createKeyedStateHook_headDriven invoke parentProp)
                (ss ++ [Render (Some k1)]) None) as [w2 [i2 [E2 [_ [_ Hs2]]]]].
    rewrite <- app_assoc in E2. simpl in E2.
    rewrite E in *. rewrite E2 in *. cbn [fst snd] in *. rewrite Hl in Ht.
    simpl in Ht. exists h. now repeat split.
Qed.

(** ** The wrapped hook *)

(** The wrapped hook calls [invoke(param)] on every activation, also when
    [param] is absent, and then subscribes to the fixed property, which does
    not depend on [param]: an activating call releases the handle held,
    calls [invoke] and subscribes; under React's comparison a change of
    [param] activates, and re-subscribes to the same property. *)
Theorem wrapped_hook_invokes_then_subscribes :
  forall (invoke : nat) (prop : string),
    (forall areHookInputsEqual ss param,
        trace (fst (reached areHookInputsEqual (Legacy.createWrappedStateHook invoke prop)
                      (ss ++ [Render param]))) =
        trace (fst (reached areHookInputsEqual
                      (Legacy.createWrappedStateHook invoke prop) ss)) ++
        (if activates areHookInputsEqual
              (f_hook (Legacy.createWrappedStateHook invoke prop)) param
              (reached areHookInputsEqual (Legacy.createWrappedStateHook invoke prop) ss)
         then cleanupEvents
                (liveHandle
                   (snd (reached areHookInputsEqual
                           (Legacy.createWrappedStateHook invoke prop) ss))) ++
              [EvAction invoke [keyVal param];
               EvSubscribe
                 (nextHandle
                    (fst (reached areHookInputsEqual
                            (Legacy.createWrappedStateHook invoke prop) ss)))
                 prop]
         else [])) /\
    (forall areHookInputsEqual param,
        trace (fst (reached areHookInputsEqual (Legacy.createWrappedStateHook invoke prop)
                      [Render param])) =
        [EvAction invoke [keyVal param]; EvSubscribe 0 prop]) /\
    (forall ss p1 p2,
        keyVal p1 <> keyVal p2 ->
        exists h,
          liveHandle (snd (reached reactInputsEqual
                             (Legacy.createWrappedStateHook invoke prop)
                             (ss ++ [Render p1]))) = Some h /\
          trace (fst (reached reactInputsEqual (Legacy.createWrappedStateHook invoke prop)
                        (ss ++ [Render p1; Render p2]))) =
          trace (fst (reached reactInputsEqual (Legacy.createWrappedStateHook invoke prop)
                        (ss ++ [Render p1]))) ++
          [EvUnsubscribe h; EvAction invoke [keyVal p2]; EvSubscribe (S h) prop]).
Proof.
  intros invoke prop. repeat apply conj.
  - intros eq' ss param. rewrite reached_snoc. unfold step.
    apply (render_trace eq' (f_hook (Legacy.createWrappedStateHook invoke prop))
             (wrappedActivation invoke prop) param _
             (legacy_createWrappedStateHook_effect invoke prop param)).
  - intros eq' param. unfold reached, run, step.
    rewrite (render_trace eq' (f_hook (Legacy.createWrappedStateHook invoke prop))
               (wrappedActivation invoke prop) param _
               (legacy_createWrappedStateHook_effect invoke prop param)).
    reflexivity.
  - intros ss p1 p2 Hne.
    pose proof (head_change_trace (Legacy.createWrappedStateHook invoke prop) _ _
                  (legacy_createWrappedStateHook_ok invoke prop)
                  (legacy_createWrappedStateHook_headDriven invoke prop)
                  (wrappedActivation invoke prop) ss p1 p2
                  (legacy_createWrappedStateHook_effect invoke prop) Hne) as Ht.
    destruct (head_after_render (Legacy.createWrappedStateHook invoke prop) _ _
                (legacy_createWrappedStateHook_ok invoke prop)
                (legacy_createWrappedStateHook_headDriven invoke prop)
                ss p1) as [w [i [E [_ [h [cb [Hl [Hn Hs]]]]]]]].
    rewrite E in *. cbn [fst snd] in *. rewrite Hl, Hn in Ht.
    exists h. split; assumption.
Qed.

(** ** The plain hook *)

Lemma reactInputsEqual_nil (prev : list JsVal) : reactInputsEqual [] prev = true.
Proof. reflexivity. Qed.

Lemma setInitialValueCopy_same (w : World) :
  setInitialValueCopy (closureInitialValueCopy w) w = w.
Proof. now destruct w. Qed.

(** The plain hook has an empty dependency list.  Under React's comparison
    a call on a mounted instance therefore makes no call at all and leaves
    the store alone; the scoped hook subscribes once per mount, and the
    curried hook stays subscribed to the property of the call that mounted
    it, whatever property later calls pass. *)
Theorem plain_hook_subscribes_once_per_mount :
  forall (prop : string) (iv : JsVal),
    (forall ss o,
        snd (reached reactInputsEqual (Legacy.scopedFactory prop iv) ss) <> None ->
        trace (fst (reached reactInputsEqual (Legacy.scopedFactory prop iv)
                      (ss ++ [Render o]))) =
        trace (fst (reached reactInputsEqual (Legacy.scopedFactory prop iv) ss)) /\
        subscriptions (fst (reached reactInputsEqual (Legacy.scopedFactory prop iv)
                              (ss ++ [Render o]))) =
        subscriptions (fst (reached reactInputsEqual (Legacy.scopedFactory prop iv) ss))) /\
    (forall ss property,
        snd (reached reactInputsEqual (Legacy.curriedFactory iv) ss) <> None ->
        fst (reached reactInputsEqual (Legacy.curriedFactory iv) (ss ++ [Render property])) =
        fst (reached reactInputsEqual (Legacy.curriedFactory iv) ss)) /\
    (forall first rs,
        existsb isUnmount rs = false ->
        trace (fst (reached reactInputsEqual (Legacy.curriedFactory iv)
                      (Render first :: rs))) = [EvSubscribe 0 first] /\
        HoldsPath first
          (reached reactInputsEqual (Legacy.curriedFactory iv) (Render first :: rs))).
Proof.
  intros prop iv. repeat apply conj.
  - intros ss o Hm. rewrite reached_snoc. unfold step.
    destruct (reached reactInputsEqual (Legacy.scopedFactory prop iv) ss)
      as [w [i |]]; [| now contradiction Hm].
    unfold renderHook. now cbn.
  - intros ss property Hm. rewrite reached_snoc. unfold step.
    destruct (reached reactInputsEqual (Legacy.curriedFactory iv) ss)
      as [w [i |]]; [| now contradiction Hm].
    unfold renderHook. cbn. now rewrite setInitialValueCopy_same.
  - intros first rs.
    assert (Hgen : forall rs c,
               existsb isUnmount rs = false ->
               snd c <> None ->
               trace (fst (run reactInputsEqual (f_hook (Legacy.curriedFactory iv)) rs c)) =
                 trace (fst c) /\
               (forall q, HoldsPath q c ->
                          HoldsPath q
                            (run reactInputsEqual (f_hook (Legacy.curriedFactory iv)) rs c))).
    { clear rs. induction rs as [| s rs IH]; intros c Hrs Hm; [now split |].
      simpl in Hrs. apply orb_false_iff in Hrs. destruct Hrs as [Hs Hrs].
      change (run reactInputsEqual (f_hook (Legacy.curriedFactory iv)) (s :: rs) c)
        with (run reactInputsEqual (f_hook (Legacy.curriedFactory iv)) rs
                (step reactInputsEqual (f_hook (Legacy.curriedFactory iv)) s c)).
      destruct c as [w [i |]]; [| now contradiction Hm].
      destruct s as [property | h v |]; [| | discriminate]; unfold step.
      - unfold renderHook. cbn [fst snd option_map f_hook Legacy.curriedFactory
                                  Legacy.curriedStateHook r_initialValueCopy r_deps
                                  Legacy.scopedStateHook reactInputsEqual].
        rewrite setInitialValueCopy_same. cbn [snd].
        destruct (IH (w, Some (mkInstance
                                 (r_state (Legacy.scopedStateHook property tt VUndefined
                                             (Some (hookState i))))
                                 [] (effectCleanup i))) Hrs ltac:(discriminate))
          as [Ht Hh].
        split; [exact Ht |]. intros q [h [cb [H1 [H2 H3]]]]. apply Hh.
        exists h, cb. now repeat split.
      - unfold notify. destruct (findSubscription h w) as [s |].
        + destruct (IH (w, Some (mkInstance (setState (hookState i) (sub_callback s v))
                                   (effectDeps i) (effectCleanup i)))
                      Hrs ltac:(discriminate))
            as [Ht Hh].
          split; [exact Ht |]. intros q [h' [cb [H1 [H2 H3]]]]. apply Hh.
          exists h', cb. now repeat split.
        + now apply IH. }
    intro Hrs.
    change (reached reactInputsEqual (Legacy.curriedFactory iv) (Render first :: rs))
      with (run reactInputsEqual (f_hook (Legacy.curriedFactory iv)) rs
              (step reactInputsEqual (f_hook (Legacy.curriedFactory iv)) (Render first)
                 (start (Legacy.curriedFactory iv)))).
    destruct (Hgen rs (step reactInputsEqual (f_hook (Legacy.curriedFactory iv))
                         (Render first) (start (Legacy.curriedFactory iv)))
                Hrs ltac:(discriminate)) as [Ht Hh].
    split; [rewrite Ht; reflexivity |].
    apply Hh. eexists 0, _. cbn. repeat split.
Qed.

Lemma curried_closure_untouched (areHookInputsEqual : list JsVal -> list JsVal -> bool)
      (iv : JsVal) (ss : list (Step string)) :
  closureInitialValueCopy (fst (reached areHookInputsEqual (Legacy.curriedFactory iv) ss))
  = iv.
Proof.
  induction ss as [| s ss IH] using rev_ind; [reflexivity |].
  rewrite reached_snoc. destruct s as [property | h v |]; unfold step.
  - destruct (render_cases areHookInputsEqual (f_hook (Legacy.curriedFactory iv)) property
                (reached areHookInputsEqual (Legacy.curriedFactory iv) ss))
      as [[_ [i [_ ->]]] | [_ ->]].
    + exact IH.
    + cbn. now rewrite closure_runCleanup.
  - now rewrite closure_notify.
  - now rewrite closure_unmount.
Qed.

(** The curried plain hook, [createStateHook(actor)(property)], drops the
    initial value it was built with: the closure variable is never read nor
    normalized, the hook returns the no-value marker until a value is
    delivered, also when an initial value was passed, and after the
    delivery of a value that is not a function it returns what was
    delivered, [null] for [null] and for [undefined]. *)
Theorem curried_hook_ignores_initialValue :
  forall areHookInputsEqual (iv : JsVal),
    (forall ss,
        closureInitialValueCopy
          (fst (reached areHookInputsEqual (Legacy.curriedFactory iv) ss)) = iv) /\
    (forall ss property,
        existsb isNotify ss = false ->
        read areHookInputsEqual (f_hook (Legacy.curriedFactory iv)) property
          (reached areHookInputsEqual (Legacy.curriedFactory iv) ss) = VNull) /\
    (forall ss h v property,
        liveHandle (snd (reached areHookInputsEqual (Legacy.curriedFactory iv) ss)) =
          Some h ->
        typeofFunction v = false ->
        read areHookInputsEqual (f_hook (Legacy.curriedFactory iv)) property
          (notify h v (reached areHookInputsEqual (Legacy.curriedFactory iv) ss)) =
        normalized v).
Proof.
  intros eq' iv. repeat apply conj.
  - apply curried_closure_untouched.
  - intros ss property Hn.
    pose proof (nullSeeded_state eq' (Legacy.curriedFactory iv) ss
                  legacy_curriedStateHook_ok legacy_curriedStateHook_nullSeeded) as Hs.
    destruct (reached eq' (Legacy.curriedFactory iv) ss) as [w inst].
    rewrite (read_plain eq' (Legacy.curriedFactory iv) property w inst
               legacy_curriedStateHook_read).
    destruct inst as [i |]; simpl; [| reflexivity].
    destruct (Hs i eq_refl) as [E | [E | [[_ E] | [g [prev [E _]]]]]];
      [exact E | exact E | |]; now apply not_delivered in E.
  - intros ss h v property Hl Hf.
    destruct (read_after_notify_plain eq' (Legacy.curriedFactory iv)
                legacy_curriedStateHook_ok ss h v property legacy_curriedStateHook_read Hl)
      as [i [_ ->]].
    rewrite setState_normalized. now destruct v.
Qed.

(** ** Rendering again *)

Lemma objectIs_refl (a : JsVal) : objectIs a a = true.
Proof. now apply objectIs_eq. Qed.

Lemma reactInputsEqual_refl (l : list JsVal) : reactInputsEqual l l = true.
Proof. induction l as [| a l IH]; simpl; [reflexivity |]. now rewrite objectIs_refl. Qed.

Lemma reactInputsEqual_same_length (a b : list JsVal) :
  length a = length b -> reactInputsEqual a b = true -> a = b.
Proof.
  revert b. induction a as [| x a IH]; intros [| y b] Hl He; try discriminate;
    [reflexivity |].
  simpl in He. apply andb_prop in He. destruct He as [Hx He].
  apply objectIs_eq in Hx. subst y. f_equal. apply IH; [now injection Hl | exact He].
Qed.

Section SameOptions.

Context {Opts : Type}.
Variable f : Factory Opts.
Variable deps : Opts -> list JsVal.
Hypothesis hook_ok : WellBehaved (f_hook f).
Hypothesis hook_mount : MountNormalizes (f_hook f).
Hypothesis hook_deps : forall o cell slot, r_deps (f_hook f o cell slot) = deps o.

Lemma after_render (ss : list (Step Opts)) (o : Opts) :
  exists w i,
    reached reactInputsEqual f (ss ++ [Render o]) = (w, Some i) /\
    effectDeps i = deps o /\
    closureInitialValueCopy w = normalized (f_initialValueCopy f).
Proof.
  pose proof (proj1 (slot_formula reactInputsEqual f (ss ++ [Render o])
                       hook_ok hook_mount)) as Hc.
  rewrite existsb_app in Hc. simpl in Hc. rewrite orb_true_r in Hc.
  rewrite reached_snoc in *. unfold step in *.
  destruct (render_deps reactInputsEqual (f_hook f) o (reached reactInputsEqual f ss))
    as [w [i [E [Hd _]]]].
  rewrite E in *. exists w, i. rewrite hook_deps in Hd. now repeat split.
Qed.

Lemma rerender_same_options (ss : list (Step Opts)) (o : Opts) :
  reached reactInputsEqual f (ss ++ [Render o; Render o]) =
  reached reactInputsEqual f (ss ++ [Render o]).
Proof.
  destruct (after_render ss o) as [w [i [E [Hd Hc]]]].
  change [Render o; Render o] with ([Render o] ++ [Render o]).
  rewrite app_assoc, reached_snoc, E. unfold step.
  destruct (render_cases reactInputsEqual (f_hook f) o (w, Some i))
    as [[_ [i' [Hi ->]]] | [Ha _]].
  - cbn [fst snd option_map] in *. injection Hi as <-.
    assert (Hcell : r_initialValueCopy
                      (f_hook f o (closureInitialValueCopy w) (Some (hookState i))) =
                    closureInitialValueCopy w).
    { destruct (wb_cell _ hook_ok o (closureInitialValueCopy w) (Some (hookState i)))
        as [-> | ->]; [reflexivity |].
      rewrite Hc. apply normalized_idem. }
    assert (Hst : r_state (f_hook f o (closureInitialValueCopy w) (Some (hookState i))) =
                  hookState i)
      by (destruct (wb_state _ hook_ok o (closureInitialValueCopy w)
                      (Some (hookState i))) as [Hs | [Hs _]]; exact Hs).
    rewrite Hcell, Hst, hook_deps, <- Hd, setInitialValueCopy_same. now destruct i.
  - unfold activates in Ha. cbn [fst snd] in Ha.
    rewrite hook_deps, Hd, reactInputsEqual_refl in Ha. discriminate.
Qed.

End SameOptions.

(** Calling the action-bound hook or the keyed hook again with the same
    options changes nothing, under React's comparison: the action is not
    called again, the subscription is kept, and the instance and the closure
    variable are as they were. *)
Theorem rerender_with_same_options_is_inert :
  forall (o : StateHookOptions),
    (forall ss opts,
        reached reactInputsEqual (createStateHook o) (ss ++ [Render opts; Render opts]) =
        reached reactInputsEqual (createStateHook o) (ss ++ [Render opts])) /\
    (forall ss (opts : KeyedHookOptions),
        reached reactInputsEqual (createKeyedStateHook o)
          (ss ++ [Render opts; Render opts]) =
        reached reactInputsEqual (createKeyedStateHook o) (ss ++ [Render opts])).
Proof.
  intro o. split; intros ss opts.
  - apply (rerender_same_options (createStateHook o) stateDeps
             (createStateHook_ok o) (createStateHook_mount o)).
    reflexivity.
  - apply (rerender_same_options (createKeyedStateHook o)
             (fun opts : KeyedHookOptions => keyVal (key opts) :: stateDeps opts)
             (createKeyedStateHook_ok o) (createKeyedStateHook_mount o)).
    reflexivity.
Qed.

(** ** Changed arguments *)

(** When the action-bound hook is called with a dependency list
    ([invokeAction] followed by the action arguments) of the same length as
    that of the previous call but different from it, it activates again
    under React's comparison: it releases the handle it holds, calls the
    action with the new arguments unless [invokeAction] is false, and
    subscribes to the property with a new handle. *)
Theorem changed_arguments_reactivate :
  forall (o : StateHookOptions) ss (opts1 opts2 : HookOptions),
    length (stateDeps opts2) = length (stateDeps opts1) ->
    stateDeps opts2 <> stateDeps opts1 ->
    exists h,
      liveHandle (snd (reached reactInputsEqual (createStateHook o)
                         (ss ++ [Render opts1]))) = Some h /\
      trace (fst (reached reactInputsEqual (createStateHook o)
                    (ss ++ [Render opts1; Render opts2]))) =
      trace (fst (reached reactInputsEqual (createStateHook o) (ss ++ [Render opts1]))) ++
      [EvUnsubscribe h] ++ actionCalls o opts2 ++ [EvSubscribe (S h) (property o)] /\
      liveHandle (snd (reached reactInputsEqual (createStateHook o)
                         (ss ++ [Render opts1; Render opts2]))) = Some (S h).
Proof.
  intros o ss opts1 opts2 Hlen Hne.
  destruct (after_render (createStateHook o) stateDeps (createStateHook_ok o)
              (createStateHook_mount o) (fun _ _ _ => eq_refl) ss opts1)
    as [w [i [E [Hd _]]]].
  assert (Hh : HoldsPath (property o)
                 (reached reactInputsEqual (createStateHook o) (ss ++ [Render opts1])))
    by (apply mounted_holds_path;
        [apply createStateHook_ok | apply createStateHook_subscribesTo
        | rewrite E; discriminate]).
  assert (Ha : activates reactInputsEqual (f_hook (createStateHook o)) opts2
                 (reached reactInputsEqual (createStateHook o) (ss ++ [Render opts1])) =
               true).
  { rewrite E. unfold activates. cbn [fst snd]. rewrite Hd.
    change (r_deps (f_hook (createStateHook o) opts2 (closureInitialValueCopy w)
                      (Some (hookState i)))) with (stateDeps opts2).
    destruct (reactInputsEqual (stateDeps opts2) (stateDeps opts1)) eqn:Eq;
      [| reflexivity].
    now apply reactInputsEqual_same_length in Eq. }
  destruct Hh as [h [cb [Hl [Hn Hs]]]]. exists h. split; [exact Hl |].
  change [Render opts1; Render opts2] with ([Render opts1] ++ [Render opts2]).
  rewrite app_assoc, reached_snoc. unfold step. split.
  - rewrite (render_trace reactInputsEqual (f_hook (createStateHook o))
               (stateActivation o) opts2 _ (createStateHook_effect o opts2)).
    rewrite Ha, Hl, Hn. reflexivity.
  - destruct (render_activating reactInputsEqual (f_hook (createStateHook o)) opts2 _ Ha)
      as [w0 [Hn0 ->]].
    simpl. now rewrite nextHandle_callFn, Hn0, Hn.
Qed.

(** ** After an unmount *)

Lemma shown_null_normalized (iv : JsVal) : shown iv VNull = normalized iv.
Proof. now destruct iv. Qed.

Lemma reached_unmounted {Opts : Type}
      (areHookInputsEqual : list JsVal -> list JsVal -> bool) (f : Factory Opts)
      (ss : list (Step Opts)) :
  snd (reached areHookInputsEqual f (ss ++ [Unmount])) = None.
Proof.
  rewrite reached_snoc. simpl.
  now destruct (reached areHookInputsEqual f ss) as [w [i |]].
Qed.

(** What the hook returns when it is called on no instance. *)
Lemma read_unmounted_seed {Opts : Type}
      (areHookInputsEqual : list JsVal -> list JsVal -> bool) (f : Factory Opts)
      (seeded : bool) (o : Opts) (w : World) :
  FallbackRead (f_hook f) ->
  SeededBy (f_hook f) seeded ->
  cellStep (f_initialValueCopy f) (closureInitialValueCopy w) ->
  read areHookInputsEqual (f_hook f) o (w, None) =
  shown (f_initialValueCopy f)
    (useState None (if seeded then normalized (f_initialValueCopy f) else VNull)).
Proof.
  intros Hr Hs Hc. rewrite (read_state areHookInputsEqual f o w None Hr Hc).
  destruct seeded; simpl in Hs; rewrite Hs;
    [now rewrite (cellStep_normalized _ _ Hc) | reflexivity].
Qed.

Lemma read_after_unmount {Opts : Type}
      (areHookInputsEqual : list JsVal -> list JsVal -> bool) (f : Factory Opts)
      (seeded : bool) (ss : list (Step Opts)) (o : Opts) :
  WellBehaved (f_hook f) ->
  FallbackRead (f_hook f) ->
  SeededBy (f_hook f) seeded ->
  read areHookInputsEqual (f_hook f) o (reached areHookInputsEqual f (ss ++ [Unmount])) =
    read areHookInputsEqual (f_hook f) o (start f) /\
  (typeofFunction (f_initialValueCopy f) && seeded = false ->
   read areHookInputsEqual (f_hook f) o (reached areHookInputsEqual f (ss ++ [Unmount])) =
   normalized (f_initialValueCopy f)).
Proof.
  intros Hok Hr Hs.
  pose proof (reached_inv areHookInputsEqual f Hok (ss ++ [Unmount])) as [_ Hc _].
  pose proof (reached_unmounted areHookInputsEqual f ss) as Hn.
  destruct (reached areHookInputsEqual f (ss ++ [Unmount])) as [w inst].
  simpl in Hc, Hn. subst inst.
  rewrite (read_unmounted_seed areHookInputsEqual f seeded o w Hr Hs Hc).
  split.
  - unfold start.
    now rewrite (read_unmounted_seed areHookInputsEqual f seeded o
                   (mkWorld (f_initialValueCopy f) 0 [] []) Hr Hs
                   (cellStep_refl (f_initialValueCopy f))).
  - destruct seeded, (f_initialValueCopy f); try discriminate; reflexivity.
Qed.

(** Delivered values do not survive an unmount: the next call of the
    hook, which mounts a new instance, returns what the first call of the
    hook returned, whatever was delivered before: the normalized initial
    value, unless that is a function the hook hands to [useState]. *)
Theorem delivered_values_do_not_survive_unmount :
  forall areHookInputsEqual (o : StateHookOptions) (prop : string) (iv : JsVal),
    (forall ss opts,
        read areHookInputsEqual (f_hook (createStateHook o)) opts
          (reached areHookInputsEqual (createStateHook o) (ss ++ [Unmount])) =
          read areHookInputsEqual (f_hook (createStateHook o)) opts
            (start (createStateHook o)) /\
        (typeofFunction (initialValue o) = false ->
         read areHookInputsEqual (f_hook (createStateHook o)) opts
           (reached areHookInputsEqual (createStateHook o) (ss ++ [Unmount])) =
         normalized (initialValue o))) /\
    (forall ss (opts : KeyedHookOptions),
        read areHookInputsEqual (f_hook (createKeyedStateHook o)) opts
          (reached areHookInputsEqual (createKeyedStateHook o) (ss ++ [Unmount])) =
        normalized (initialValue o)) /\
    (forall ss opts,
        read areHookInputsEqual (f_hook (Legacy.scopedFactory prop iv)) opts
          (reached areHookInputsEqual (Legacy.scopedFactory prop iv) (ss ++ [Unmount])) =
          read areHookInputsEqual (f_hook (Legacy.scopedFactory prop iv)) opts
            (start (Legacy.scopedFactory prop iv)) /\
        (typeofFunction iv = false ->
         read areHookInputsEqual (f_hook (Legacy.scopedFactory prop iv)) opts
           (reached areHookInputsEqual (Legacy.scopedFactory prop iv) (ss ++ [Unmount])) =
         normalized iv)).
Proof.
  intros eq' o prop iv. repeat apply conj; intros ss opts.
  - destruct (read_after_unmount eq' (createStateHook o) true ss opts
                (createStateHook_ok o) (createStateHook_read o)
                (createStateHook_seeded o)) as [H1 H2].
    split; [exact H1 |]. intro Hf. apply H2. simpl. now rewrite Hf.
  - apply (read_after_unmount eq' (createKeyedStateHook o) false ss opts
             (createKeyedStateHook_ok o) (createKeyedStateHook_read o)
             (createKeyedStateHook_nullSeeded o)).
    apply andb_false_r.
  - destruct (read_after_unmount eq' (Legacy.scopedFactory prop iv) true ss opts
                (legacy_scopedStateHook_ok prop) (legacy_scopedStateHook_read prop)
                (legacy_scopedStateHook_seeded prop)) as [H1 H2].
    split; [exact H1 |]. intro Hf. apply H2. simpl. now rewrite Hf.
Qed.

(** ** The first version of the factories *)

Lemma run_mapStep {A B : Type}
      (areHookInputsEqual : list JsVal -> list JsVal -> bool)
      (HA : Hook A) (HB : Hook B) (g : A -> B) :
  (forall a cell slot, HA a cell slot = HB (g a) cell slot) ->
  forall ss c,
    run areHookInputsEqual HA ss c = run areHookInputsEqual HB (map (mapStep g) ss) c.
Proof.
  intro Hg. induction ss as [| s ss IH]; intro c; [reflexivity |].
  simpl. rewrite IH. f_equal.
  destruct s as [a | h v |]; simpl; try reflexivity.
  destruct c as [w inst]. unfold renderHook. now rewrite Hg.
Qed.

(** The hooks of the first version, which take [invokeAction] and the
    action arguments as rest arguments, go through the same configurations
    and return the same values as the hooks that take an options object,
    called with [{ invokeAction, actionArgs: [...args] }] (and the key). *)
Theorem positional_hooks_agree_with_options_hooks :
  forall areHookInputsEqual (o : StateHookOptions),
    (forall ss,
        reached areHookInputsEqual (Positional.createStateHook o) ss =
        reached areHookInputsEqual (createStateHook o)
          (map (mapStep Positional.toOptions) ss)) /\
    (forall ss args,
        read areHookInputsEqual (f_hook (Positional.createStateHook o)) args
          (reached areHookInputsEqual (Positional.createStateHook o) ss) =
        read areHookInputsEqual (f_hook (createStateHook o)) (Positional.toOptions args)
          (reached areHookInputsEqual (createStateHook o)
             (map (mapStep Positional.toOptions) ss))) /\
    (forall ss,
        reached areHookInputsEqual (Positional.createKeyedStateHook o) ss =
        reached areHookInputsEqual (createKeyedStateHook o)
          (map (mapStep Positional.toKeyedOptions) ss)) /\
    (forall ss args,
        read areHookInputsEqual (f_hook (Positional.createKeyedStateHook o)) args
          (reached areHookInputsEqual (Positional.createKeyedStateHook o) ss) =
        read areHookInputsEqual (f_hook (createKeyedStateHook o))
          (Positional.toKeyedOptions args)
          (reached areHookInputsEqual (createKeyedStateHook o)
             (map (mapStep Positional.toKeyedOptions) ss))).
Proof.
  intros eq' o.
  assert (H1 : forall ss,
             reached eq' (Positional.createStateHook o) ss =
             reached eq' (createStateHook o) (map (mapStep Positional.toOptions) ss))
    by (intro ss; unfold reached; now apply run_mapStep).
  assert (H2 : forall ss,
             reached eq' (Positional.createKeyedStateHook o) ss =
             reached eq' (createKeyedStateHook o)
               (map (mapStep Positional.toKeyedOptions) ss))
    by (intro ss; unfold reached; now apply run_mapStep).
  repeat apply conj; try assumption.
  - intros ss args. rewrite H1. reflexivity.
  - intros ss args. rewrite H2. reflexivity.
Qed.

(** ** Paths and keys *)






(** ** Changed arguments of the keyed hook *)

(** When the keyed hook is called with the same key but with
    [invokeAction] and action arguments that differ from those of the
    previous call (in a list of the same length), it activates again under
    React's comparison: it releases the handle of [property.key], calls the
    action with the new arguments unless [invokeAction] is false, and
    subscribes to the same path again. *)
Theorem keyed_changed_arguments_reactivate :
  forall (o : StateHookOptions) ss (opts1 opts2 : KeyedHookOptions) k,
    key opts1 = Some k -> key opts2 = Some k ->
    length (stateDeps opts2) = length (stateDeps opts1) ->
    stateDeps opts2 <> stateDeps opts1 ->
    exists h,
      liveHandle (snd (reached reactInputsEqual (createKeyedStateHook o)
                         (ss ++ [Render opts1]))) = Some h /\
      trace (fst (reached reactInputsEqual (createKeyedStateHook o)
                    (ss ++ [Render opts1; Render opts2]))) =
      trace (fst (reached reactInputsEqual (createKeyedStateHook o)
                    (ss ++ [Render opts1]))) ++
      [EvUnsubscribe h] ++ actionCalls o opts2 ++
      [EvSubscribe (S h) (property o ++ "." ++ keyString k)%string].
Proof.
  intros o ss opts1 opts2 k H1 H2 Hlen Hne.
  destruct (after_render (createKeyedStateHook o)
              (fun opts : KeyedHookOptions => keyVal (key opts) :: stateDeps opts)
              (createKeyedStateHook_ok o) (createKeyedStateHook_mount o)
              (fun _ _ _ => eq_refl) ss opts1) as [w [i [E [Hd _]]]].
  destruct (head_after_render (createKeyedStateHook o) _ _
              (createKeyedStateHook_ok o) (createKeyedStateHook_headDriven o)
              ss opts1) as [w' [i' [E' [_ Hh]]]].
  rewrite E in E'. injection E' as <- <-. cbv beta in Hh. rewrite H1 in Hh.
  simpl keyedPath in Hh. destruct Hh as [h [cb [Hl [Hn Hs]]]].
  cbn [fst snd] in Hl, Hn.
  assert (Ha : activates reactInputsEqual (f_hook (createKeyedStateHook o)) opts2
                 (w, Some i) = true).
  { unfold activates. cbn [fst snd]. rewrite Hd.
    change (r_deps (f_hook (createKeyedStateHook o) opts2 (closureInitialValueCopy w)
                      (Some (hookState i))))
      with (keyVal (key opts2) :: stateDeps opts2).
    destruct (reactInputsEqual (keyVal (key opts2) :: stateDeps opts2)
                (keyVal (key opts1) :: stateDeps opts1)) eqn:Eq; [| reflexivity].
    apply reactInputsEqual_same_length in Eq; [| cbn [length]; f_equal; exact Hlen].
    congruence. }
  exists h. rewrite E. split; [exact Hl |].
  change [Render opts1; Render opts2] with ([Render opts1] ++ [Render opts2]).
  rewrite app_assoc, reached_snoc, E. unfold step.
  rewrite (render_trace reactInputsEqual (f_hook (createKeyedStateHook o))
             (keyedActivation o) opts2 _ (createKeyedStateHook_effect o opts2)).
  rewrite Ha. cbn [fst snd]. rewrite Hl, Hn. unfold keyedActivation. now rewrite H2.
Qed.

End Hooks.

(** * Worked examples *)

(** The properties above at concrete configurations, with the functions of
    [sampleFunctions]. *)

#[local] Existing Instance sampleFunctions.

Lemma delivered_value_returned_unless_null_witness :
  liveHandle (snd (reached reactInputsEqual cartHook [Render noOptions])) = Some 0 /\
  isNil (VObject 2) = false /\
  typeofFunction (VObject 2) = false /\
  read reactInputsEqual (f_hook cartHook) noOptions
    (notify 0 (VObject 2) (reached reactInputsEqual cartHook [Render noOptions])) =
  VObject 2.
Proof.
  split; [reflexivity | split; [reflexivity | split; [reflexivity |]]].
  apply (proj1 (delivered_value_returned_unless_null cartOptions "cart" VNull 0)
           reactInputsEqual [Render noOptions] 0 (VObject 2) noOptions);
    reflexivity.
Defined.

(** C1 as stated fails: with the fallback [VObject 1] configured, a
    delivered [null] is not what the next call returns, the fallback is;
    and a delivered function, here [() => 5], is not what the next call
    returns either: React calls it and the hook returns its result. *)
Lemma delivered_null_replaced_by_fallback :
  liveHandle (snd (reached reactInputsEqual cartHook [Render noOptions])) = Some 0 /\
  read reactInputsEqual (f_hook cartHook) noOptions
    (notify 0 VNull (reached reactInputsEqual cartHook [Render noOptions])) =
  VObject 1 /\
  read reactInputsEqual (f_hook cartHook) noOptions
    (notify 0 VNull (reached reactInputsEqual cartHook [Render noOptions])) <>
  VNull /\
  read reactInputsEqual (f_hook cartHook) noOptions
    (notify 0 (VFunction 1) (reached reactInputsEqual cartHook [Render noOptions])) =
  VNum 5 /\
  read reactInputsEqual (f_hook cartHook) noOptions
    (notify 0 (VFunction 1) (reached reactInputsEqual cartHook [Render noOptions])) <>
  VFunction 1.
Proof. repeat split; discriminate. Qed.



Lemma undefined_notification_normalized_witness :
  liveHandle (snd (reached reactInputsEqual cartHook
                     [Render noOptions; Notify 0 (VObject 2)])) = Some 0 /\
  forallb isRender [Render noOptions; Render noOptions] = true /\
  read reactInputsEqual (f_hook cartHook) noOptions
    (reached reactInputsEqual cartHook
       ([Render noOptions; Notify 0 (VObject 2)] ++
        Notify 0 VUndefined :: [Render noOptions; Render noOptions])) =
  VObject 1.
Proof.
  split; [reflexivity | split; [reflexivity |]].
  apply (proj2 (proj2 (proj2 (proj1
           (undefined_notification_normalized cartOptions "cart" VNull 0)
           reactInputsEqual)
           [Render noOptions; Notify 0 (VObject 2)] 0 eq_refl))
           [Render noOptions; Render noOptions] noOptions).
  reflexivity.
Defined.

(** C3 as stated fails: the state becomes the no-value marker also when
    [null], which is not [undefined], is delivered; and a delivered value
    that is a function, here [() => 5], is not stored as it is: the state
    becomes what it returns. *)
Lemma null_and_function_notifications :
  liveHandle (snd (reached reactInputsEqual cartHook [Render noOptions])) = Some 0 /\
  option_map hookState
    (snd (notify 0 VNull (reached reactInputsEqual cartHook [Render noOptions]))) =
  Some VNull /\
  VNull <> VUndefined /\
  option_map hookState
    (snd (notify 0 (VFunction 1) (reached reactInputsEqual cartHook [Render noOptions]))) =
  Some (VNum 5) /\
  VNum 5 <> VFunction 1.
Proof. repeat split; discriminate. Qed.

Lemma subscription_released_exactly_once_witness :
  key (withKey (Some (KString "sku-1"))) = Some (KString "sku-1") /\
  key (withKey (Some (KNumber 42))) = Some (KNumber 42) /\
  KString "sku-1" <> KNumber 42 /\
  trace (fst (reached reactInputsEqual productHook
                [Render (withKey (Some (KString "sku-1")));
                 Render (withKey (Some (KNumber 42)))])) =
  [EvAction 0 []; EvSubscribe 0 "product.sku-1"; EvUnsubscribe 0;
   EvAction 0 []; EvSubscribe 1 "product.42"].
Proof.
  split; [reflexivity | split; [reflexivity | split; [discriminate |]]].
  destruct (proj2 (proj2 (subscription_released_exactly_once productOptions))
              [] (withKey (Some (KString "sku-1"))) (withKey (Some (KNumber 42)))
              (KString "sku-1") (KNumber 42) eq_refl eq_refl)
    as [h [cb1 [cb2 [Hl [_ [Ht _]]]]]]; [discriminate |].
  injection Hl as <-. exact Ht.
Defined.

Lemma keyed_hook_idle_without_key_witness :
  (forall opts, In (Render opts) [Render (withKey None); Render (withKey None)] ->
                key opts = None) /\
  trace (fst (reached reactInputsEqual productHook
                [Render (withKey None); Render (withKey None)])) = [] /\
  read reactInputsEqual (f_hook productHook) (withKey None)
    (reached reactInputsEqual productHook
       [Render (withKey None); Render (withKey None)]) = VNull.
Proof.
  assert (H : forall opts,
             In (Render opts) [Render (withKey None); Render (withKey None)] ->
             key opts = None)
    by (intros opts [[= <-] | [[= <-] | []]]; reflexivity).
  split; [exact H |].
  destruct (proj1 (proj2 (keyed_hook_idle_without_key productOptions reactInputsEqual))
              [Render (withKey None); Render (withKey None)] (withKey None) H)
    as [Ht [_ Hr]].
  split; [exact Ht | exact Hr].
Defined.

(** C5 as stated fails: with the key absent again after a value was
    delivered under a key, nothing is subscribed and the hook, which has no
    fallback here, returns that value rather than the no-value marker. *)
Lemma idle_after_active_returns_last_value :
  key (withKey None) = None /\
  initialValue productOptions = VUndefined /\
  subscriptions
    (fst (reached reactInputsEqual productHook
            [Render (withKey (Some (KString "sku-1"))); Notify 0 (VNum 5);
             Render (withKey None)])) = [] /\
  read reactInputsEqual (f_hook productHook) (withKey None)
    (reached reactInputsEqual productHook
       [Render (withKey (Some (KString "sku-1"))); Notify 0 (VNum 5);
        Render (withKey None)]) = VNum 5 /\
  read reactInputsEqual (f_hook productHook) (withKey None)
    (reached reactInputsEqual productHook
       [Render (withKey (Some (KString "sku-1"))); Notify 0 (VNum 5);
        Render (withKey None)]) <> VNull.
Proof. repeat split; discriminate. Qed.

Lemma action_precedes_subscription_witness :
  key (withKey None) = None /\
  key (withKey (Some (KString "sku-1"))) = Some (KString "sku-1") /\
  trace (fst (reached reactInputsEqual productHook
                ([] ++ [Render (withKey None);
                        Render (withKey (Some (KString "sku-1")))]))) =
  [EvAction 0 []; EvSubscribe 0 "product.sku-1"].
Proof.
  split; [reflexivity | split; [reflexivity |]].
  exact (proj1 (proj2 (proj2 (proj2 (proj1
           (action_precedes_subscription productOptions 0 "product")))))
           [] (withKey None) (withKey (Some (KString "sku-1"))) (KString "sku-1")
           eq_refl eq_refl).
Defined.

Lemma invokeAction_false_skips_action_only_witness :
  invokeAction (mkHookOptions (Some false) (Some [VNum 3])) = Some false /\
  trace (fst (reached reactInputsEqual cartHook
                ([Render (mkHookOptions (Some false) (Some [VNum 1]))] ++
                 [Render (mkHookOptions (Some false) (Some [VNum 3]))]))) =
  [EvSubscribe 0 "cart"; EvUnsubscribe 0; EvSubscribe 1 "cart"].
Proof.
  split; [reflexivity |].
  exact (proj1 (proj2 (invokeAction_false_skips_action_only cartOptions reactInputsEqual))
           [Render (mkHookOptions (Some false) (Some [VNum 1]))]
           (mkHookOptions (Some false) (Some [VNum 3])) eq_refl).
Defined.

Lemma non_callable_action_replaced_by_noop_witness :
  isFunction (action (mkStateHookOptions (NotCallable (VStr "oops")) "cart" VUndefined)) =
    false /\
  NoopForNonCallable (mkStateHookOptions (NotCallable (VStr "oops")) "cart" VUndefined).
Proof.
  split; [reflexivity |].
  apply (non_callable_action_replaced_by_noop
           (mkStateHookOptions (NotCallable (VStr "oops")) "cart" VUndefined)).
  reflexivity.
Defined.

Lemma fallback_slot_normalized_once_witness :
  existsb isRender [Render (withKey None)] = true /\
  closureInitialValueCopy
    (fst (reached reactInputsEqual productHook
            ([Render (withKey None)] ++
             [Render (withKey (Some (KString "sku-1"))); Notify 0 VUndefined; Unmount]))) =
  VNull.
Proof.
  split; [reflexivity |].
  apply (eq_trans (proj2 (proj2 (proj2 (proj1 (proj2
           (fallback_slot_normalized_once productOptions "product" VUndefined)))
           reactInputsEqual)
           [Render (withKey None)]
           [Render (withKey (Some (KString "sku-1"))); Notify 0 VUndefined; Unmount]
           eq_refl))).
  reflexivity.
Defined.

Lemma mounted_hook_is_subscribed_witness :
  snd (reached reactInputsEqual cartHook
         [Render noOptions; Notify 0 VNull;
          Render (mkHookOptions (Some false) None)]) <> None /\
  SubscribedTo "cart"
    (reached reactInputsEqual cartHook
       [Render noOptions; Notify 0 VNull; Render (mkHookOptions (Some false) None)]).
Proof.
  split; [discriminate |].
  apply (proj1 (mounted_hook_is_subscribed reactInputsEqual cartOptions "cart" VNull 0)).
  discriminate.
Defined.

Lemma keyed_key_removed_tears_down_witness :
  key (withKey (Some (KString "sku-1"))) = Some (KString "sku-1") /\
  key (withKey None) = None /\
  trace (fst (reached reactInputsEqual productHook
                ([Render (withKey None)] ++
                 [Render (withKey (Some (KString "sku-1"))); Render (withKey None)]))) =
  [EvAction 0 []; EvSubscribe 0 "product.sku-1"; EvUnsubscribe 0].
Proof.
  split; [reflexivity | split; [reflexivity |]].
  destruct (keyed_key_removed_tears_down productOptions [Render (withKey None)]
              (withKey (Some (KString "sku-1"))) (withKey None) (KString "sku-1")
              eq_refl eq_refl) as [h [_ [Hl [Ht _]]]].
  injection Hl as <-. exact Ht.
Defined.

Lemma earlier_keyed_hook_follows_its_id_witness :
  KString "a" <> KString "b" /\
  trace (fst (reached reactInputsEqual (Legacy.createKeyedStateHook 7 "item")
                ([Render None] ++ [Render (Some (KString "a")); Render (Some (KString "b"))]))) =
  [EvAction 7 [VStr "a"]; EvSubscribe 0 "item.a"; EvUnsubscribe 0;
   EvAction 7 [VStr "b"]; EvSubscribe 1 "item.b"].
Proof.
  split; [discriminate |].
  assert (Hne : KString "a" <> KString "b") by discriminate.
  destruct (proj1 (proj2 (proj2 (earlier_keyed_hook_follows_its_id 7 "item")))
              [Render None] (KString "a") (KString "b") Hne) as [h [_ [Hl Ht]]].
  injection Hl as <-. exact Ht.
Defined.

Lemma wrapped_hook_invokes_then_subscribes_witness :
  keyVal None <> keyVal (Some (KNumber 3)) /\
  trace (fst (reached reactInputsEqual (Legacy.createWrappedStateHook 7 "list")
                ([] ++ [Render None; Render (Some (KNumber 3))]))) =
  [EvAction 7 [VUndefined]; EvSubscribe 0 "list"; EvUnsubscribe 0;
   EvAction 7 [VNum 3]; EvSubscribe 1 "list"].
Proof.
  assert (Hne : keyVal None <> keyVal (Some (KNumber 3))) by discriminate.
  split; [exact Hne |].
  destruct (proj2 (proj2 (wrapped_hook_invokes_then_subscribes 7 "list"))
              [] None (Some (KNumber 3)) Hne) as [h [Hl Ht]].
  injection Hl as <-. exact Ht.
Defined.

Lemma plain_hook_subscribes_once_per_mount_witness :
  existsb isUnmount [Render "b"; Notify 0 (VNum 1); Render "c"] = false /\
  trace (fst (reached reactInputsEqual (Legacy.curriedFactory (VNum 9))
                (Render "a" :: [Render "b"; Notify 0 (VNum 1); Render "c"]))) =
  [EvSubscribe 0 "a"].
Proof.
  split; [reflexivity |].
  apply (proj2 (proj2 (plain_hook_subscribes_once_per_mount "a" (VNum 9)))
           "a" [Render "b"; Notify 0 (VNum 1); Render "c"]).
  reflexivity.
Defined.

Lemma curried_hook_ignores_initialValue_witness :
  existsb isNotify [Render "a"; Render "a"; Unmount; Render "a"] = false /\
  read reactInputsEqual (f_hook (Legacy.curriedFactory (VNum 9))) "a"
    (reached reactInputsEqual (Legacy.curriedFactory (VNum 9))
       [Render "a"; Render "a"; Unmount; Render "a"]) = VNull.
Proof.
  split; [reflexivity |].
  apply (proj1 (proj2 (curried_hook_ignores_initialValue reactInputsEqual (VNum 9)))).
  reflexivity.
Defined.

Lemma changed_arguments_reactivate_witness :
  length (stateDeps (mkHookOptions None (Some [VStr "p2"]))) =
    length (stateDeps (mkHookOptions None (Some [VStr "p1"]))) /\
  stateDeps (mkHookOptions None (Some [VStr "p2"])) <>
    stateDeps (mkHookOptions None (Some [VStr "p1"])) /\
  trace (fst (reached reactInputsEqual cartHook
                ([] ++ [Render (mkHookOptions None (Some [VStr "p1"]));
                        Render (mkHookOptions None (Some [VStr "p2"]))]))) =
  [EvAction 0 [VStr "p1"]; EvSubscribe 0 "cart"; EvUnsubscribe 0;
   EvAction 0 [VStr "p2"]; EvSubscribe 1 "cart"].
Proof.
  assert (Hne : stateDeps (mkHookOptions None (Some [VStr "p2"])) <>
                stateDeps (mkHookOptions None (Some [VStr "p1"]))) by discriminate.
  split; [reflexivity | split; [exact Hne |]].
  destruct (changed_arguments_reactivate cartOptions []
              (mkHookOptions None (Some [VStr "p1"]))
              (mkHookOptions None (Some [VStr "p2"])) eq_refl Hne) as [h [Hl [Ht _]]].
  injection Hl as <-. exact Ht.
Defined.


Lemma keyed_changed_arguments_reactivate_witness :
  key (mkKeyedHookOptions (Some (KString "sku-1")) (mkHookOptions (Some true) None)) =
    Some (KString "sku-1") /\
  key (mkKeyedHookOptions (Some (KString "sku-1")) (mkHookOptions (Some false) None)) =
    Some (KString "sku-1") /\
  trace (fst (reached reactInputsEqual productHook
                ([] ++ [Render (mkKeyedHookOptions (Some (KString "sku-1"))
                                  (mkHookOptions (Some true) None));
                        Render (mkKeyedHookOptions (Some (KString "sku-1"))
                                  (mkHookOptions (Some false) None))]))) =
  [EvAction 0 []; EvSubscribe 0 "product.sku-1"; EvUnsubscribe 0;
   EvSubscribe 1 "product.sku-1"].
Proof.
  split; [reflexivity | split; [reflexivity |]].
  assert (Hne : stateDeps (mkHookOptions (Some false) None) <>
                stateDeps (mkHookOptions (Some true) None)) by discriminate.
  destruct (keyed_changed_arguments_reactivate productOptions []
              (mkKeyedHookOptions (Some (KString "sku-1")) (mkHookOptions (Some true) None))
              (mkKeyedHookOptions (Some (KString "sku-1")) (mkHookOptions (Some false) None))
              (KString "sku-1") eq_refl eq_refl eq_refl Hne) as [h [Hl Ht]].
  injection Hl as <-. exact Ht.
Defined.

Lemma delivered_values_do_not_survive_unmount_witness :
  typeofFunction (initialValue cartOptions) = false /\
  read reactInputsEqual (f_hook cartHook) noOptions
    (reached reactInputsEqual cartHook
       ([Render noOptions; Notify 0 (VObject 2)] ++ [Unmount])) = VObject 1.
Proof.
  split; [reflexivity |].
  exact (proj2 (proj1 (delivered_values_do_not_survive_unmount reactInputsEqual
                         cartOptions "cart" VNull)
                  [Render noOptions; Notify 0 (VObject 2)] noOptions) eq_refl).
Defined.

Lemma hook_never_returns_undefined_witness :
  isNil (initialValue cartOptions) = false /\
  read reactInputsEqual (f_hook cartHook) noOptions
    (reached reactInputsEqual cartHook [Render noOptions; Notify 0 (VFunction 2)]) <>
  VUndefined.
Proof.
  split; [reflexivity |].
  exact (proj1 (proj1 (hook_never_returns_undefined cartOptions "cart" VNull 0)
                  reactInputsEqual [Render noOptions; Notify 0 (VFunction 2)] noOptions
                  (or_introl eq_refl))).
Defined.

(** C10 as stated fails: without a fallback, once the function
    [() => undefined] was delivered the hook returns [undefined]: the
    callback hands the function to [setState], which stores what it
    returns. *)
Lemma delivered_function_returns_undefined :
  initialValue productOptions = VUndefined /\
  liveHandle
    (snd (reached reactInputsEqual (createStateHook productOptions) [Render noOptions])) =
  Some 0 /\
  read reactInputsEqual (f_hook (createStateHook productOptions)) noOptions
    (reached reactInputsEqual (createStateHook productOptions)
       [Render noOptions; Notify 0 (VFunction 2)]) = VUndefined.
Proof. repeat split. Qed.
